(** * Crab numerical abstract domains: split octagons and array lifters

    A shallow embedding of the array-expansion domain, the array-smashing
    domain, the checker traits and the split-octagon domain, together with
    the properties their specification states about them.

    Conventions of the embedding.
    - [Number] is the unbounded integer type of the analysis (z_number): [Z],
      with the truncating division of the bignum library ([Z.quot]).
    - [Wt] (C++ [long]) is [Z]; where the source converts a number to [Wt]
      and multiplies it (in [set]) the result is kept in the range of a long
      by wrapping modulo 2^64, which is what the compiled code does.
    - An offset and a size of a cell are [Z]. They are the numbers the source
      computes with when the offset is not negative and the size fits the
      type unsigned (the specification takes offsets to be non-negative and
      sizes positive); a property that depends on the order of the offsets
      or on the size kept in a cell states that range as a premise
      ([cell_in_range], [map_in_range]).
    - A mutating C++ method becomes a function from the old object to the new
      one; a method that also returns a value returns a pair.
    - CRAB_WARN is a write to a log that is threaded with the state; a
      message is the list of the arguments of the call. CRAB_LOG and the
      statistics counters are dropped. *)

From Stdlib Require Import ZArith Lia Bool Sorted.
From stdpp Require Import gmap list fin_maps strings sorting.

Local Open Scope Z_scope.

(** ** Numbers, bounds and intervals *)

Abbreviation number_t := Z (only parsing).
Abbreviation Wt := Z (only parsing).

(** Modelled from the spec: bound, interval (crab/domains/intervals.hpp is not
    part of the sources). "Bound: rational-or-integer value extended with
    ±∞. Interval: pair [lb, ub] of bounds with lb ≤ ub; bottom represents
    empty." The constructor maps every empty pair to the one bottom value. *)
Inductive bound_t : Type :=
| minus_infinity
| finite (n : number_t)
| plus_infinity.

#[global] Instance bound_eq_dec : EqDecision bound_t.
Proof. solve_decision. Defined.

Definition bound_leb (a b : bound_t) : bool :=
  match a, b with
  | minus_infinity, _ => true
  | _, plus_infinity => true
  | finite x, finite y => x <=? y
  | _, _ => false
  end.

Definition bound_ltb (a b : bound_t) : bool := negb (bound_leb b a).

Definition bound_min (a b : bound_t) : bound_t := if bound_leb a b then a else b.
Definition bound_max (a b : bound_t) : bound_t := if bound_leb a b then b else a.

Definition bound_add (a b : bound_t) : bound_t :=
  match a, b with
  | finite x, finite y => finite (x + y)
  | minus_infinity, _ | _, minus_infinity => minus_infinity
  | _, _ => plus_infinity
  end.

Definition bound_opp (a : bound_t) : bound_t :=
  match a with
  | minus_infinity => plus_infinity
  | finite x => finite (- x)
  | plus_infinity => minus_infinity
  end.

(** Product of a bound by a finite number; zero absorbs infinity. *)
Definition bound_scale (k : number_t) (a : bound_t) : bound_t :=
  match a with
  | finite x => finite (k * x)
  | _ => if k =? 0 then finite 0
         else if 0 <? k then a else bound_opp a
  end.

Record interval_t : Type := Interval { lb : bound_t; ub : bound_t }.

#[global] Instance interval_eq_dec : EqDecision interval_t.
Proof. solve_decision. Defined.

Module interval.

Definition bottom : interval_t := Interval (finite 0) (finite (-1)).
Definition top : interval_t := Interval minus_infinity plus_infinity.

(** interval_t(lb, ub): an empty range is stored as bottom. *)
Definition make (l u : bound_t) : interval_t :=
  if bound_ltb u l then bottom else Interval l u.

Definition of_number (n : number_t) : interval_t := Interval (finite n) (finite n).

Definition is_bottom (i : interval_t) : bool := bound_ltb (ub i) (lb i).

Definition is_top (i : interval_t) : bool :=
  bool_decide (lb i = minus_infinity) && bool_decide (ub i = plus_infinity).

Definition singleton (i : interval_t) : option number_t :=
  match lb i, ub i with
  | finite x, finite y => if x =? y then Some x else None
  | _, _ => None
  end.

Definition leq (x y : interval_t) : bool :=
  if is_bottom x then true
  else if is_bottom y then false
  else bound_leb (lb y) (lb x) && bound_leb (ub x) (ub y).

Definition join (x y : interval_t) : interval_t :=
  if is_bottom x then y
  else if is_bottom y then x
  else Interval (bound_min (lb x) (lb y)) (bound_max (ub x) (ub y)).

Definition meet (x y : interval_t) : interval_t :=
  if is_bottom x || is_bottom y then bottom
  else make (bound_max (lb x) (lb y)) (bound_min (ub x) (ub y)).

Definition add (x y : interval_t) : interval_t :=
  if is_bottom x || is_bottom y then bottom
  else Interval (bound_add (lb x) (lb y)) (bound_add (ub x) (ub y)).

(** Product of the constant interval [k, k] with [y]. *)
Definition scale (k : number_t) (y : interval_t) : interval_t :=
  if is_bottom y then bottom
  else
    let a := bound_scale k (lb y) in
    let b := bound_scale k (ub y) in
    Interval (bound_min a b) (bound_max a b).

End interval.

(** ** Variables, linear expressions and linear constraints *)

Inductive variable_type : Type :=
| BOOL_TYPE | INT_TYPE | REAL_TYPE | PTR_TYPE
| ARR_BOOL_TYPE | ARR_INT_TYPE | ARR_REAL_TYPE | ARR_PTR_TYPE.

#[global] Instance variable_type_eq_dec : EqDecision variable_type.
Proof. solve_decision. Defined.

(** Modelled from the spec: the variable factory is an external collaborator
    that "must provide stable identity for (array, offset, size) triples".
    A name is either a program name [vfac[s]] or the shadow name
    [vfac.get(key, _)] that the factory keeps per key. *)
Inductive varname_t : Type :=
| Named (n : nat)
| Shadow (key : nat).

#[global] Instance varname_eq_dec : EqDecision varname_t.
Proof. solve_decision. Defined.

#[global] Instance varname_countable : Countable varname_t.
Proof.
  refine (inj_countable'
    (fun v => match v with Named n => inl n | Shadow k => inr k end)
    (fun s => match s with inl n => Named n | inr k => Shadow k end) _).
  by intros [].
Defined.

(** A typed name; two variables are the same variable when their names are. *)
Record variable_t : Type :=
  Variable_ { name : varname_t; get_type : variable_type; get_bitwidth : Z }.

#[global] Instance variable_eq_dec : EqDecision variable_t.
Proof. solve_decision. Defined.

(** Modelled from the spec: "Linear expression. A constant plus a finite set
    of (coefficient, variable) pairs with distinct variables." *)
Record linear_expression_t : Type :=
  LinExp { constant : number_t; terms : list (number_t * variable_t) }.

#[global] Instance linear_expression_eq_dec : EqDecision linear_expression_t.
Proof. solve_decision. Defined.

Definition exp_of_number (n : number_t) : linear_expression_t := LinExp n [].
Definition exp_of_variable (v : variable_t) : linear_expression_t := LinExp 0 [(1, v)].

Definition is_constant (e : linear_expression_t) : bool :=
  match terms e with [] => true | _ => false end.

Definition get_variable (e : linear_expression_t) : option variable_t :=
  match terms e with
  | [(c, v)] => if (constant e =? 0) && (c =? 1) then Some v else None
  | _ => None
  end.

Definition exp_scale (e : linear_expression_t) (k : number_t) : linear_expression_t :=
  LinExp (constant e * k) (map (fun t => (fst t * k, snd t)) (terms e)).

(** Modelled from the spec: "Linear constraint. A linear expression with a
    kind: equality (e = 0), inequality (e ≤ 0), disequality (e ≠ 0), or
    strict inequality. Negation of an inequality yields a strict
    inequality." *)
Inductive kind_t : Type := EQUALITY | DISEQUATION | INEQUALITY | STRICT_INEQUALITY.

#[global] Instance kind_eq_dec : EqDecision kind_t.
Proof. solve_decision. Defined.

Record linear_constraint_t : Type :=
  LinCst { expression : linear_expression_t; kind : kind_t }.

#[global] Instance linear_constraint_eq_dec : EqDecision linear_constraint_t.
Proof. solve_decision. Defined.

Abbreviation linear_constraint_system_t := (list linear_constraint_t) (only parsing).

Definition is_equality (c : linear_constraint_t) : bool := bool_decide (kind c = EQUALITY).
Definition is_inequality (c : linear_constraint_t) : bool := bool_decide (kind c = INEQUALITY).
Definition is_disequation (c : linear_constraint_t) : bool := bool_decide (kind c = DISEQUATION).

Definition is_tautology (c : linear_constraint_t) : bool :=
  is_constant (expression c) &&
  match kind c with
  | EQUALITY => constant (expression c) =? 0
  | DISEQUATION => negb (constant (expression c) =? 0)
  | INEQUALITY => constant (expression c) <=? 0
  | STRICT_INEQUALITY => constant (expression c) <? 0
  end.

Definition is_contradiction (c : linear_constraint_t) : bool :=
  is_constant (expression c) &&
  match kind c with
  | EQUALITY => negb (constant (expression c) =? 0)
  | DISEQUATION => constant (expression c) =? 0
  | INEQUALITY => 0 <? constant (expression c)
  | STRICT_INEQUALITY => 0 <=? constant (expression c)
  end.

(** not (e ≤ 0) is -e < 0; not (e < 0) is -e ≤ 0; equality and disequality
    are each other's negation. *)
Definition negate (c : linear_constraint_t) : linear_constraint_t :=
  match kind c with
  | INEQUALITY => LinCst (exp_scale (expression c) (-1)) STRICT_INEQUALITY
  | STRICT_INEQUALITY => LinCst (exp_scale (expression c) (-1)) INEQUALITY
  | EQUALITY => LinCst (expression c) DISEQUATION
  | DISEQUATION => LinCst (expression c) EQUALITY
  end.

Definition get_true : linear_constraint_t := LinCst (exp_of_number 0) EQUALITY.
Definition get_false : linear_constraint_t := LinCst (exp_of_number 0) DISEQUATION.

(** ** The numerical-domain contract

    The array domains and the traits are templates over [NumDomain]; the
    operations they call are the fields of this class. *)
Class NumDomain (D : Type) : Type := {
  d_top : D;
  d_bottom : D;
  d_is_bottom : D -> bool;
  d_is_top : D -> bool;
  d_leq : D -> D -> bool;                                   (* <= *)
  d_join : D -> D -> D;                                     (* |  *)
  d_add : linear_constraint_t -> D -> D;                    (* += *)
  d_forget : variable_t -> D -> D;                          (* -= *)
  d_assign : variable_t -> linear_expression_t -> D -> D;
  d_interval : D -> variable_t -> interval_t;               (* [] *)
  d_assign_bool_cst : variable_t -> linear_constraint_t -> D -> D;
  d_assign_bool_var : variable_t -> variable_t -> bool -> D -> D;
  d_pointer_mk_null : variable_t -> D -> D;
  d_pointer_assign : variable_t -> variable_t -> linear_expression_t -> D -> D
}.

(** ** Domain traits (crab/domains/domain_traits.hpp) *)

(** Domain::set(v, interval), used by the traits below. *)
Class NumDomainSet (D : Type) : Type := {
  d_set : variable_t -> interval_t -> D -> D
}.

Module domain_traits.
Section with_domain.
Context {Domain : Type} `{!NumDomain Domain} `{!NumDomainSet Domain}.

(** Remove all variables [begin, end) *)
Definition forget (vs : list variable_t) (inv : Domain) : Domain :=
  fold_left (fun inv v => d_forget v inv) vs inv.

(** Forget all variables except [begin, end) *)
Definition project (vs : list variable_t) (inv : Domain) : Domain :=
  let res := d_top in
  fold_left (fun res v => d_set v (d_interval inv v) res) vs res.

(** Make a new copy of x without relating x with new_x *)
Definition expand (x new_x : variable_t) (inv : Domain) : Domain :=
  d_set new_x (d_interval inv x) inv.

End with_domain.
End domain_traits.

Module constraint_simp_domain_traits.

(** Convert an equality into two inequalities; [csts += c] appends. *)
Definition lower_equality (cst : linear_constraint_t)
    (csts : linear_constraint_system_t) : linear_constraint_system_t :=
  if is_equality cst then
    (csts ++ [LinCst (expression cst) INEQUALITY])
      ++ [LinCst (exp_scale (expression cst) (-1)) INEQUALITY]
  else csts ++ [cst].

End constraint_simp_domain_traits.

Module checker_domain_traits.
Section with_domain.
Context {Domain : Type} `{!NumDomain Domain}.

(** struct entailment: operator() works on a copy of the stored domain. *)
Definition entailment (_dom : Domain) (cst : linear_constraint_t) : bool :=
  let dom := _dom in
  let neg_cst := negate cst in
  let dom := d_add neg_cst dom in
  d_is_bottom dom.

Definition entail_all_of (inv : Domain) (csts : linear_constraint_system_t) : bool :=
  forallb (entailment inv) csts.

(** Return true if inv entails cst. *)
Definition entail (inv : Domain) (cst : linear_constraint_t) : bool :=
  if d_is_bottom inv then true
  else if is_tautology cst then true
  else if is_contradiction cst then false
  else if is_equality cst then
    let csts := constraint_simp_domain_traits.lower_equality cst [] in
    entail_all_of inv csts
  else entailment inv cst.

End with_domain.
End checker_domain_traits.

(** ** Array smashing (crab/domains/array_smashing.hpp) *)

Module array_smashing.
Section with_domain.
Context {NumDomain_t : Type} `{!NumDomain NumDomain_t}.

(** The only member of the class is the inner state [_inv]. *)
Record array_smashing_t : Type := ArraySmashing { _inv : NumDomain_t }.

(** The per-type assignment [a := rhs] that strong_update, weak_update and
    array_init each spell out. *)
Definition strong_update (a : variable_t) (rhs : linear_expression_t)
    (s : array_smashing_t) : array_smashing_t :=
  let inv := _inv s in
  if decide (get_type a = ARR_BOOL_TYPE) then
    if is_constant rhs then
      if 1 <=? constant rhs
      then ArraySmashing (d_assign_bool_cst a get_true inv)
      else ArraySmashing (d_assign_bool_cst a get_false inv)
    else match get_variable rhs with
         | Some rhs_v => ArraySmashing (d_assign_bool_var a rhs_v false inv)
         | None => s
         end
  else if decide (get_type a = ARR_INT_TYPE \/ get_type a = ARR_REAL_TYPE) then
    ArraySmashing (d_assign a rhs inv)
  else if decide (get_type a = ARR_PTR_TYPE) then
    if is_constant rhs && (constant rhs =? 0)
    then ArraySmashing (d_pointer_mk_null a inv)
    else match get_variable rhs with
         | Some rhs_v => ArraySmashing (d_pointer_assign a rhs_v (exp_of_number 0) inv)
         | None => s
         end
  else s.

Definition weak_update (a : variable_t) (rhs : linear_expression_t)
    (s : array_smashing_t) : array_smashing_t :=
  let other := _inv s in
  let other :=
    if decide (get_type a = ARR_BOOL_TYPE) then
      if is_constant rhs then
        if 1 <=? constant rhs
        then d_assign_bool_cst a get_true other
        else d_assign_bool_cst a get_false other
      else match get_variable rhs with
           | Some rhs_v => d_assign_bool_var a rhs_v false other
           | None => other
           end
    else if decide (get_type a = ARR_INT_TYPE \/ get_type a = ARR_REAL_TYPE) then
      d_assign a rhs other
    else if decide (get_type a = ARR_PTR_TYPE) then
      if is_constant rhs && (constant rhs =? 0)
      then d_pointer_mk_null a other
      else match get_variable rhs with
           | Some rhs_v => d_pointer_assign a rhs_v (exp_of_number 0) other
           | None => other
           end
    else other in
  ArraySmashing (d_join (_inv s) other).

Definition array_store (a : variable_t) (elem_size i val : linear_expression_t)
    (is_singleton : bool) (s : array_smashing_t) : array_smashing_t :=
  if is_singleton then strong_update a val s else weak_update a val s.

End with_domain.
End array_smashing.

(** The array operators of class array_smashing besides array_store. *)
Module array_smashing_api.
Section with_domain.
Context {NumDomain_t : Type} `{!NumDomain NumDomain_t} `{!NumDomainSet NumDomain_t}.
Import array_smashing.

(** All the array elements are initialized to val *)
Definition array_init (a : variable_t) (elem_size lb_idx ub_idx val : linear_expression_t)
    (s : array_smashing_t) : array_smashing_t :=
  let inv := _inv s in
  if decide (get_type a = ARR_BOOL_TYPE) then
    if is_constant val then
      if 1 <=? constant val
      then ArraySmashing (d_assign_bool_cst a get_true inv)
      else ArraySmashing (d_assign_bool_cst a get_false inv)
    else match get_variable val with
         | Some var => ArraySmashing (d_assign_bool_var a var false inv)
         | None => s
         end
  else if decide (get_type a = ARR_INT_TYPE \/ get_type a = ARR_REAL_TYPE) then
    ArraySmashing (d_assign a val inv)
  else if decide (get_type a = ARR_PTR_TYPE) then
    if is_constant val && (constant val =? 0)
    then ArraySmashing (d_pointer_mk_null a inv)
    else match get_variable val with
         | Some var => ArraySmashing (d_pointer_assign a var (exp_of_number 0) inv)
         | None => s
         end
  else s.

(** array_load: [a_prime] is the temporary variable that the variable
    factory hands out. *)
Definition array_load (lhs a : variable_t) (elem_size i : linear_expression_t)
    (a_prime : variable_t) (s : array_smashing_t) : array_smashing_t :=
  let inv := domain_traits.expand a a_prime (_inv s) in
  let inv :=
    if decide (get_type a = ARR_BOOL_TYPE) then d_assign_bool_var lhs a_prime false inv
    else if decide (get_type a = ARR_INT_TYPE \/ get_type a = ARR_REAL_TYPE) then
      d_assign lhs (exp_of_variable a_prime) inv
    else if decide (get_type a = ARR_PTR_TYPE) then
      d_pointer_assign lhs a_prime (exp_of_number 0) inv
    else inv in
  ArraySmashing (d_forget a_prime inv).

End with_domain.
End array_smashing_api.

(** ** Outcomes of fallible operations

    CRAB_ERROR and an arithmetic trap both end the analysis ("abort analysis
    via a fatal-error channel"); a loop of the source that is run with a
    step budget can also exhaust it. *)
Inductive outcome (A : Type) : Type :=
| Done (a : A)
| Abort (msg : string)
| OutOfFuel.
Arguments Done {A} a.
Arguments Abort {A} msg.
Arguments OutOfFuel {A}.

#[global] Instance outcome_bind : MBind outcome := fun A B f x =>
  match x with
  | Done a => f a
  | Abort msg => Abort msg
  | OutOfFuel => OutOfFuel
  end.

#[global] Instance outcome_ret : MRet outcome := @Done.

(** ** Warnings

    CRAB_WARN(args...) streams its arguments to the warning sink one after
    the other: string literals, offsets and indices (printed as numbers),
    numbers and linear expressions. A message keeps them as they are
    passed. *)
Inductive warn_arg : Type :=
| W_str (s : string)
| W_index (n : Z)
| W_number (n : number_t)
| W_exp (e : linear_expression_t).

Definition message : Type := list warn_arg.

Definition msg_of_string (s : string) : message := [W_str s].
Coercion msg_of_string : string >-> message.

(** ** Array expansion (src/unnamed/part_000) *)

Module array_expansion.

(** offset_t wraps an index; offsets and sizes are taken in their intended
    range (non-negative, no truncation by the (long) and unsigned casts). *)
Abbreviation offset_t := Z (only parsing).

Record cell_t : Type :=
  Cell { _offset : offset_t; _size : Z; _scalar : option variable_t }.

Module cell.

Definition null : cell_t := Cell 0 0 None.
Definition of_scalar (offset : offset_t) (scalar : variable_t) : cell_t :=
  Cell offset (get_bitwidth scalar) (Some scalar).
Definition of_size (offset : offset_t) (size : Z) : cell_t := Cell offset size None.

Definition to_interval (o : offset_t) (size : Z) : interval_t :=
  interval.make (finite o) (finite (o + size - 1)).

Definition is_null (c : cell_t) : bool := (_offset c =? 0) && (_size c =? 0).
Definition get_offset (c : cell_t) : offset_t := _offset c.
Definition get_size (c : cell_t) : Z := _size c.
Definition has_scalar (c : cell_t) : bool :=
  match _scalar c with Some _ => true | None => false end.

Definition get_scalar (c : cell_t) : outcome variable_t :=
  match _scalar c with
  | Some v => Done v
  | None => Abort "cannot get undefined scalar variable"
  end.

(** operator== and operator< ignore the scalar variable. *)
Definition eqb (c o : cell_t) : bool :=
  (get_offset c =? get_offset o) && (get_size c =? get_size o).

Definition ltb (c o : cell_t) : bool :=
  if get_offset c <? get_offset o then true
  else if get_offset c =? get_offset o then get_size c <? get_size o
  else false.

Definition overlap (c : cell_t) (o : offset_t) (size : Z) : bool :=
  let x := to_interval (get_offset c) (get_size c) in
  let y := to_interval o size in
  negb (interval.is_bottom (interval.meet x y)).

End cell.

(** std::set<cell_t>: a list kept sorted by [cell.ltb], one element per
    (offset, size). *)
Abbreviation cell_set_t := (list cell_t) (only parsing).

Module cell_set.

Fixpoint find (c : cell_t) (s : cell_set_t) : option cell_t :=
  match s with
  | [] => None
  | x :: s' => if cell.eqb x c then Some x else find c s'
  end.

(** insert keeps the element already present; the flag is [.second]. *)
Fixpoint insert (c : cell_t) (s : cell_set_t) : cell_set_t * bool :=
  match s with
  | [] => ([c], true)
  | x :: s' =>
      if cell.eqb x c then (s, false)
      else if cell.ltb c x then (c :: s, true)
      else let '(r, b) := insert c s' in (x :: r, b)
  end.

(** erase returns the number of erased elements (0 or 1) as a flag. *)
Fixpoint erase (c : cell_t) (s : cell_set_t) : cell_set_t * bool :=
  match s with
  | [] => ([], false)
  | x :: s' =>
      if cell.eqb x c then (s', true)
      else let '(r, b) := erase c s' in (x :: r, b)
  end.

End cell_set.

(** Modelled from the spec: patricia_tree<offset_t, cell_set_t>
    (crab/domains/patricia_trees.hpp is not part of the sources). "A
    persistent binary trie keyed by unsigned integer bit patterns (big-endian
    traversal, so iteration is sorted). Operations: lookup(k), insert(k, v),
    remove(k)." The tree is the list of its bindings in iteration order. *)
Abbreviation patricia_tree_t := (list (offset_t * cell_set_t)) (only parsing).

Module patricia_tree.

Fixpoint lookup (k : offset_t) (t : patricia_tree_t) : option cell_set_t :=
  match t with
  | [] => None
  | (k', v) :: t' => if k' =? k then Some v else lookup k t'
  end.

Fixpoint insert (k : offset_t) (v : cell_set_t) (t : patricia_tree_t) : patricia_tree_t :=
  match t with
  | [] => [(k, v)]
  | (k', v') :: t' =>
      if k =? k' then (k, v) :: t'
      else if k <? k' then (k, v) :: t
      else (k', v') :: insert k v t'
  end.

Fixpoint remove (k : offset_t) (t : patricia_tree_t) : patricia_tree_t :=
  match t with
  | [] => []
  | (k', v') :: t' => if k' =? k then t' else (k', v') :: remove k t'
  end.

End patricia_tree.

(** The process-wide table [_index_map] and the warning sink. *)
Record globals_t : Type := Globals {
  _index_map : gmap (varname_t * (offset_t * Z)) nat;
  crab_warnings : list message
}.

Definition CRAB_WARN (msg : message) (g : globals_t) : globals_t :=
  Globals (_index_map g) (crab_warnings g ++ [msg]).

(** class offset_map: the member [_map]. *)
Abbreviation offset_map_t := patricia_tree_t (only parsing).

Module offset_map.

Definition remove_cell (c : cell_t) (_map : offset_map_t) : offset_map_t :=
  match patricia_tree.lookup (cell.get_offset c) _map with
  | Some cells =>
      let '(cells, erased) := cell_set.erase c cells in
      if erased then
        let _map := patricia_tree.remove (cell.get_offset c) _map in
        match cells with
        | [] => _map
        | _ => patricia_tree.insert (cell.get_offset c) cells _map
        end
      else _map
  | None => _map
  end.

Definition insert_cell (c : cell_t) (sanity_check : bool) (_map : offset_map_t)
    : outcome offset_map_t :=
  if sanity_check && negb (cell.has_scalar c) then
    Abort "array expansion cannot insert a cell without scalar variable"
  else
    match patricia_tree.lookup (cell.get_offset c) _map with
    | Some cells =>
        let '(cells, inserted) := cell_set.insert c cells in
        if inserted then
          let _map := patricia_tree.remove (cell.get_offset c) _map in
          Done (patricia_tree.insert (cell.get_offset c) cells _map)
        else Done _map
    | None => Done (patricia_tree.insert (cell.get_offset c) [c] _map)
    end.

Definition get_cell (o : offset_t) (size : Z) (_map : offset_map_t) : cell_t :=
  match patricia_tree.lookup o _map with
  | Some cells =>
      let tmp := cell.of_size o size in
      match cell_set.find tmp cells with
      | Some c => c
      | None => cell.null
      end
  | None => cell.null
  end.

Definition get_array_element_type (array_type : variable_type) : variable_type :=
  if decide (array_type = ARR_BOOL_TYPE) then BOOL_TYPE
  else if decide (array_type = ARR_INT_TYPE) then INT_TYPE
  else if decide (array_type = ARR_REAL_TYPE) then REAL_TYPE
  else PTR_TYPE.

(** The same triple of array, offset and size maps to the same index. *)
Definition get_index (a : variable_t) (o : offset_t) (size : Z) (g : globals_t)
    : nat * globals_t :=
  match _index_map g !! (name a, (o, size)) with
  | Some res => (res, g)
  | None =>
      let res := base.size (_index_map g) in
      (res, Globals (<[(name a, (o, size)) := res]> (_index_map g)) (crab_warnings g))
  end.

Definition mk_cell (array : variable_t) (o : offset_t) (size : Z)
    (_map : offset_map_t) (g : globals_t) : outcome (cell_t * offset_map_t * globals_t) :=
  let c := get_cell o size _map in
  '(c, _map, g) ←
    (if cell.is_null c then
       let vtype := get_array_element_type (get_type array) in
       let '(vindex, g) := get_index array o size g in
       let scalar_var := Variable_ (Shadow vindex) vtype size in
       let c := cell.of_scalar o scalar_var in
       _map ← insert_cell c true _map;
       Done (c, _map, g)
     else Done (c, _map, g));
  if negb (cell.has_scalar c) then
    Abort "array expansion created a new cell without a scalar"
  else Done (c, _map, g).

(** operator-=(const std::vector<cell_t>&) *)
Definition remove_cells (cells : list cell_t) (_map : offset_map_t) : offset_map_t :=
  fold_left (fun m c => remove_cell c m) cells _map.

(** out.push_back(x) guarded by std::find(out.begin(), out.end(), x). *)
Definition push_back_unique (x : cell_t) (out : list cell_t) : list cell_t :=
  if existsb (fun y => cell.eqb y x) out then out else out ++ [x].

(** Body of the first loop for one bucket: the cells of upto_lb[i]. *)
Definition scan_bucket_lb (c : cell_t) (o : offset_t) (size : Z)
    (bucket : cell_set_t) (out : list cell_t) : list cell_t * bool :=
  fold_left
    (fun '(out, continue_outer_loop) x =>
       if cell.overlap x o size then
         ((if negb (cell.eqb x c) then push_back_unique x out else out), true)
       else (out, continue_outer_loop))
    bucket (out, false).

(** Body of the second loop for one bucket. *)
Definition scan_bucket_ub (o : offset_t) (size : Z)
    (bucket : cell_set_t) (out : list cell_t) : list cell_t * bool :=
  fold_left
    (fun '(out, continue_outer_loop) x =>
       if cell.overlap x o size then (push_back_unique x out, true)
       else (out, continue_outer_loop))
    bucket (out, false).

(** Body of the third loop for one bucket. *)
Definition scan_bucket_eq (c : cell_t) (o : offset_t) (size : Z)
    (bucket : cell_set_t) (out : list cell_t) : list cell_t * bool :=
  fold_left
    (fun '(out, continue_outer_loop) x =>
       if cell.eqb x c then (out, continue_outer_loop)
       else if cell.overlap x o size then
         ((if negb (cell.eqb x c) then push_back_unique x out else out), true)
       else (out, continue_outer_loop))
    bucket (out, false).

(** A loop over buckets that leaves at the first bucket without an
    overlapping cell; also returns how many buckets were passed. *)
Fixpoint walk (scan : cell_set_t -> list cell_t -> list cell_t * bool)
    (buckets : list cell_set_t) (out : list cell_t) : list cell_t * nat :=
  match buckets with
  | [] => (out, 0%nat)
  | b :: rest =>
      let '(out, continue_outer_loop) := scan b out in
      if continue_outer_loop then
        let '(out, n) := walk scan rest out in (out, S n)
      else (out, 0%nat)
  end.

(** std::lower_bound and std::upper_bound over the sorted bindings, as the
    position of the iterator they return. *)
Fixpoint lower_bound (o : offset_t) (t : patricia_tree_t) : nat :=
  match t with
  | [] => 0%nat
  | (k, _) :: t' => if k <? o then S (lower_bound o t') else 0%nat
  end.

Fixpoint upper_bound (o : offset_t) (t : patricia_tree_t) : nat :=
  match t with
  | [] => 0%nat
  | (k, _) :: t' => if k <=? o then S (upper_bound o t') else 0%nat
  end.

(** Return in out all cells that might overlap with (o, size). *)
Definition get_overlap_cells (o : offset_t) (size : Z) (out : list cell_t)
    (_map : offset_map_t) : outcome (list cell_t * offset_map_t) :=
  let c := get_cell o size _map in
  (* we need to add a temporary cell for (o, size) *)
  let added := cell.is_null c in
  let c := if added then cell.of_size o size else c in
  _map ← (if added then insert_cell c false _map else Done _map);
  (* lb_it: first binding whose key is not less than o *)
  let lb_it := lower_bound o _map in
  let out :=
    match drop lb_it _map with
    | [] => out
    | _ =>
        let upto_lb := map snd (take (S lb_it) _map) in
        fst (walk (scan_bucket_lb c o size) (rev upto_lb) out)
    end in
  (* ub_it: first binding whose key is greater than o *)
  let ub_it := upper_bound o _map in
  let '(out, passed) := walk (scan_bucket_ub o size) (map snd (drop ub_it _map)) out in
  let ub_it := (ub_it + passed)%nat in
  (* the bindings from ++lb_it up to ub_it *)
  let range := take (ub_it - S lb_it)%nat (drop (S lb_it) _map) in
  let out := fst (walk (scan_bucket_eq c o size) (map snd range) out) in
  let _map := if added then remove_cell c _map else _map in
  Done (out, _map).

End offset_map.

Section with_domain.
Context {NumDomain_t : Type} `{!NumDomain NumDomain_t}.

(** Modelled from the spec: separate_domain<variable_t, offset_map_t>
    (crab/domains/separate_domains.hpp is not part of the sources). "A mapping
    from array variable to its offset map"; a variable without binding has
    the top value, which for offset maps is the empty map, and binding a
    variable to top removes it. *)
Abbreviation separate_domain_t := (gmap varname_t offset_map_t) (only parsing).

Definition separate_domain_get (a : variable_t) (m : separate_domain_t) : offset_map_t :=
  default [] (m !! name a).

Definition separate_domain_set (a : variable_t) (v : offset_map_t)
    (m : separate_domain_t) : separate_domain_t :=
  match v with
  | [] => delete (name a) m
  | _ => <[name a := v]> m
  end.

Record array_expansion_domain_t : Type :=
  ArrayExpansion { _array_map : separate_domain_t; _inv : NumDomain_t }.

Definition top : array_expansion_domain_t := ArrayExpansion ∅ d_top.
Definition bottom : array_expansion_domain_t := ArrayExpansion ∅ d_bottom.

Definition is_bottom (s : array_expansion_domain_t) : bool := d_is_bottom (_inv s).
Definition is_top (s : array_expansion_domain_t) : bool := d_is_top (_inv s).

Definition to_interval (expr : linear_expression_t) (s : array_expansion_domain_t)
    : interval_t :=
  fold_left
    (fun r t => interval.add r (interval.scale (fst t) (d_interval (_inv s) (snd t))))
    (terms expr) (interval.of_number (constant expr)).

(** operator-= on a non-array variable *)
Definition forget_scalar (var : variable_t) (s : array_expansion_domain_t)
    : array_expansion_domain_t :=
  ArrayExpansion (_array_map s) (d_forget var (_inv s)).

Definition array_load (lhs a : variable_t) (elem_size i : linear_expression_t)
    (s : array_expansion_domain_t) (g : globals_t)
    : outcome (array_expansion_domain_t * globals_t) :=
  if is_bottom s || is_top s then Done (s, g)
  else
    let ii := to_interval i s in
    match interval.singleton ii with
    | Some n =>
        let offset_map := separate_domain_get a (_array_map s) in
        let o := n in
        let i_elem_size := to_interval elem_size s in
        match interval.singleton i_elem_size with
        | None =>
            Done (s, CRAB_WARN
              "array expansion ignored array load because element size is not constant" g)
        | Some n_bytes =>
            let size := n_bytes in
            '(cells, offset_map) ← offset_map.get_overlap_cells o size [] offset_map;
            match cells with
            | _ :: _ =>
                let g := CRAB_WARN
                  [W_str "array expansion ignored read from cell [";
                   W_index o; W_str "..."; W_index (o + size - 1); W_str "]";
                   W_str " because it overlaps with other cells."] g in
                Done (forget_scalar lhs s, g)
            | [] =>
                '(c, offset_map, g) ← offset_map.mk_cell a o size offset_map g;
                scalar ← cell.get_scalar c;
                Done (ArrayExpansion
                        (separate_domain_set a offset_map (_array_map s))
                        (d_assign lhs (exp_of_variable scalar) (_inv s)), g)
            end
        end
    | None =>
        let g := CRAB_WARN
          [W_str "array expansion: ignored read because of non-constant array index ";
           W_exp i] g in
        Done (forget_scalar lhs s, g)
    end.

(** Forget the scalars of the killed cells from the numerical domain. *)
Fixpoint forget_cells (cells : list cell_t) (inv : NumDomain_t) : outcome NumDomain_t :=
  match cells with
  | [] => Done inv
  | c :: cells' =>
      if cell.has_scalar c then
        scalar ← cell.get_scalar c;
        forget_cells cells' (d_forget scalar inv)
      else Abort "array expansion: cell without scalar variable in array store"
  end.

Definition array_store (a : variable_t) (elem_size i val : linear_expression_t)
    (is_singleton : bool) (s : array_expansion_domain_t) (g : globals_t)
    : outcome (array_expansion_domain_t * globals_t) :=
  if is_bottom s then Done (s, g)
  else
    let ii := to_interval i s in
    match interval.singleton ii with
    | Some n =>
        let offset_map := separate_domain_get a (_array_map s) in
        let o := n in
        let i_elem_size := to_interval elem_size s in
        match interval.singleton i_elem_size with
        | None =>
            Done (s, CRAB_WARN
              "array expansion ignored array store because element size is not constant" g)
        | Some n_bytes =>
            let size := n_bytes in
            (* kill overlapping cells *)
            '(cells, offset_map) ← offset_map.get_overlap_cells o size [] offset_map;
            '(inv, offset_map) ←
              match cells with
              | _ :: _ =>
                  inv ← forget_cells cells (_inv s);
                  Done (inv, offset_map.remove_cells cells offset_map)
              | [] => Done (_inv s, offset_map)
              end;
            (* perform scalar update *)
            '(c, offset_map, g) ← offset_map.mk_cell a o size offset_map g;
            scalar ← cell.get_scalar c;
            Done (ArrayExpansion
                    (separate_domain_set a offset_map (_array_map s))
                    (d_assign scalar val inv), g)
        end
    | None =>
        Done (s, CRAB_WARN
          [W_str "array expansion: ignored write because of non-constant array index ";
           W_exp i] g)
    end.

(** The loop of array_init: for (i = lb, e = ub; i < e; i = i + n), run with
    a budget of iterations. *)
Fixpoint array_init_loop (fuel : nat) (a : variable_t)
    (elem_size : linear_expression_t) (i e n : number_t) (val : linear_expression_t)
    (s : array_expansion_domain_t) (g : globals_t)
    : outcome (array_expansion_domain_t * globals_t) :=
  if i <? e then
    match fuel with
    | O => OutOfFuel
    | S fuel =>
        '(s, g) ← array_store a elem_size (exp_of_number i) val false s g;
        array_init_loop fuel a elem_size (i + n) e n val s g
    end
  else Done (s, g).

Definition max_num_elems : number_t := 512.

(** All the array elements are assumed to be equal to val. The remainder
    [%] of the bignum library traps on a zero divisor. *)
Definition array_init (fuel : nat) (a : variable_t)
    (elem_size lb_idx ub_idx val : linear_expression_t)
    (s : array_expansion_domain_t) (g : globals_t)
    : outcome (array_expansion_domain_t * globals_t) :=
  if is_bottom s || is_top s then Done (s, g)
  else
    match interval.singleton (to_interval lb_idx s) with
    | None =>
        Done (s, CRAB_WARN
          [W_str "array expansion initialization ignored because ";
           W_str "lower bound is not constant"] g)
    | Some lb =>
        match interval.singleton (to_interval ub_idx s) with
        | None =>
            Done (s, CRAB_WARN
              [W_str "array expansion initialization ignored because ";
               W_str "upper bound is not constant"] g)
        | Some ub =>
            match interval.singleton (to_interval elem_size s) with
            | None =>
                Done (s, CRAB_WARN
                  [W_str "array expansion initialization ignored because ";
                   W_str "elem size is not constant"] g)
            | Some n =>
                if n =? 0 then Abort "division by zero"
                else if negb (Z.rem (ub - lb) n =? 0) then
                  Done (s, CRAB_WARN
                    [W_str "array expansion initialization ignored because ";
                     W_str "the number of elements must be divisible by ";
                     W_number n] g)
                else if max_num_elems <? ub - lb then
                  Done (s, CRAB_WARN
                    [W_str "array expansion initialization ignored because ";
                     W_str "the number of elements is larger than default limit of ";
                     W_number max_num_elems] g)
                else array_init_loop fuel a elem_size lb ub n val s g
            end
        end
    end.

End with_domain.
End array_expansion.

(** ** A non-relational numerical domain

    Modelled from the spec: "Simple numerical domains (intervals,
    congruences): assume an existing implementation satisfying the
    numerical-domain contract (§4.1)". The interval domain binds variables
    to intervals; an unbound variable is top. It is the inner domain of the
    concrete runs of the array domains below. *)
Module interval_domain.

Record interval_domain_t : Type :=
  IntervalDomain { is_bot : bool; env : gmap varname_t interval_t }.

#[global] Instance interval_domain_eq_dec : EqDecision interval_domain_t.
Proof. solve_decision. Defined.

Definition top : interval_domain_t := IntervalDomain false ∅.
Definition bottom : interval_domain_t := IntervalDomain true ∅.

Definition is_bottom (s : interval_domain_t) : bool := is_bot s.
Definition is_top (s : interval_domain_t) : bool :=
  negb (is_bot s) && bool_decide (env s = ∅).

Definition get (s : interval_domain_t) (x : variable_t) : interval_t :=
  if is_bot s then interval.bottom else default interval.top (env s !! name x).

Definition set (x : variable_t) (i : interval_t) (s : interval_domain_t)
    : interval_domain_t :=
  if is_bot s then s
  else if interval.is_bottom i then bottom
  else if interval.is_top i then IntervalDomain false (delete (name x) (env s))
  else IntervalDomain false (<[name x := i]> (env s)).

Definition forget (x : variable_t) (s : interval_domain_t) : interval_domain_t :=
  if is_bot s then s else IntervalDomain false (delete (name x) (env s)).

Definition eval (e : linear_expression_t) (s : interval_domain_t) : interval_t :=
  fold_left
    (fun r t => interval.add r (interval.scale (fst t) (get s (snd t))))
    (terms e) (interval.of_number (constant e)).

Definition assign (x : variable_t) (e : linear_expression_t) (s : interval_domain_t)
    : interval_domain_t :=
  set x (eval e s) s.

Definition leq (s1 s2 : interval_domain_t) : bool :=
  if is_bot s1 then true
  else if is_bot s2 then false
  else bool_decide (map_Forall
         (fun k i2 => interval.leq (default interval.top (env s1 !! k)) i2 = true)
         (env s2)).

Definition join (s1 s2 : interval_domain_t) : interval_domain_t :=
  if is_bot s1 then s2
  else if is_bot s2 then s1
  else IntervalDomain false
         (intersection_with
            (fun i1 i2 =>
               let j := interval.join i1 i2 in
               if interval.is_top j then None else Some j)
            (env s1) (env s2)).

(** Constraint of the form  c·x + k  (kind) 0  with c = 1 or c = -1 over the
    integers, as the  interval it leaves for x. *)
Definition solve_unit (c k : number_t) (kd : kind_t) : interval_t :=
  match kd with
  | INEQUALITY =>
      if c =? 1 then Interval minus_infinity (finite (- k))
      else Interval (finite k) plus_infinity
  | STRICT_INEQUALITY =>
      if c =? 1 then Interval minus_infinity (finite (- k - 1))
      else Interval (finite (k + 1)) plus_infinity
  | EQUALITY => interval.of_number (- k * c)
  | DISEQUATION => interval.top
  end.

Definition add_constraint (cst : linear_constraint_t) (s : interval_domain_t)
    : interval_domain_t :=
  if is_bot s then s
  else if is_contradiction cst then bottom
  else
    match terms (expression cst) with
    | [(c, x)] =>
        if (c =? 1) || (c =? -1) then
          set x (interval.meet (get s x)
                   (solve_unit c (constant (expression cst)) (kind cst))) s
        else s
    | _ => s
    end.

#[global] Instance interval_domain_NumDomain : NumDomain interval_domain_t := {|
  d_top := top;
  d_bottom := bottom;
  d_is_bottom := is_bottom;
  d_is_top := is_top;
  d_leq := leq;
  d_join := join;
  d_add := add_constraint;
  d_forget := forget;
  d_assign := assign;
  d_interval := get;
  d_assign_bool_cst := fun lhs _ s => forget lhs s;
  d_assign_bool_var := fun lhs _ _ s => forget lhs s;
  d_pointer_mk_null := fun lhs s => forget lhs s;
  d_pointer_assign := fun lhs _ _ s => forget lhs s
|}.

End interval_domain.

#[global] Instance interval_domain_NumDomainSet
    : NumDomainSet interval_domain.interval_domain_t :=
  {| d_set := interval_domain.set |}.

(** ** Weighted graphs *)

#[global] Instance variable_type_countable : Countable variable_type.
Proof.
  refine (inj_countable'
    (fun t => match t with
              | BOOL_TYPE => 0 | INT_TYPE => 1 | REAL_TYPE => 2 | PTR_TYPE => 3
              | ARR_BOOL_TYPE => 4 | ARR_INT_TYPE => 5 | ARR_REAL_TYPE => 6
              | ARR_PTR_TYPE => 7
              end%nat)
    (fun n => match n with
              | 0 => BOOL_TYPE | 1 => INT_TYPE | 2 => REAL_TYPE | 3 => PTR_TYPE
              | 4 => ARR_BOOL_TYPE | 5 => ARR_INT_TYPE | 6 => ARR_REAL_TYPE
              | _ => ARR_PTR_TYPE
              end%nat) _).
  by intros [].
Defined.

#[global] Instance variable_countable : Countable variable_t.
Proof.
  refine (inj_countable'
    (fun v => (name v, get_type v, get_bitwidth v))
    (fun t => Variable_ t.1.1 t.1.2 t.2) _).
  by intros [].
Defined.

Abbreviation vert_id := nat (only parsing).
Abbreviation edge_vector := (list ((vert_id * vert_id) * Wt)) (only parsing).

(** Modelled from the spec: the weighted graph (crab/domains/graphs/ is not
    part of the sources). "A mapping from vertex identifier to its adjacency
    ... Vertex identifiers are dense non-negative integers; freed ones may be
    reused." "Removal nulls the entry and pushes the id onto a free list."
    The successor and predecessor tables always agree, so one table of
    edges stands for both; the free list is a stack whose top is the head. *)
Record graph_t : Type :=
  Graph { edges : gmap (vert_id * vert_id) Wt; num_slots : nat; free_id : list vert_id }.

(** A weight combiner with its "default is absorbing" flag. *)
Record Wt_op : Type := WtOp { apply : Wt -> Wt -> Wt; default_is_absorbing : bool }.

Definition Wt_max : Wt_op := WtOp Z.max true.
Definition Wt_min : Wt_op := WtOp Z.min false.

Module graph.

Definition empty : graph_t := Graph ∅ 0 [].

Definition new_vertex (g : graph_t) : vert_id * graph_t :=
  match free_id g with
  | v :: rest => (v, Graph (edges g) (num_slots g) rest)
  | [] => (num_slots g, Graph (edges g) (S (num_slots g)) [])
  end.

(** forget(v): remove all incident edges, free the vertex. *)
Definition forget (v : vert_id) (g : graph_t) : graph_t :=
  if bool_decide (v ∈ free_id g) then g
  else Graph (filter (fun e => e.1.1 ≠ v ∧ e.1.2 ≠ v) (edges g))
             (num_slots g) (v :: free_id g).

Definition lookup (s d : vert_id) (g : graph_t) : option Wt := edges g !! (s, d).
Definition elem (s d : vert_id) (g : graph_t) : bool := bool_decide (is_Some (lookup s d g)).
Definition edge_val (s d : vert_id) (g : graph_t) : Wt := default 0 (lookup s d g).

Definition add_edge (s : vert_id) (w : Wt) (d : vert_id) (g : graph_t) : graph_t :=
  Graph (<[(s, d) := w]> (edges g)) (num_slots g) (free_id g).

Definition set_edge (s : vert_id) (w : Wt) (d : vert_id) (g : graph_t) : graph_t :=
  Graph (<[(s, d) := w]> (edges g)) (num_slots g) (free_id g).

(** update_edge(s, w, d, op): write op(existing, w); an absent edge is
    added unless the default is absorbing. *)
Definition update_edge (s : vert_id) (w : Wt) (d : vert_id) (op : Wt_op)
    (g : graph_t) : graph_t :=
  match lookup s d g with
  | Some existing => set_edge s (apply op existing w) d g
  | None => if default_is_absorbing op then g else add_edge s w d g
  end.

Definition verts (g : graph_t) : list vert_id :=
  filter (fun v => v ∉ free_id g) (seq 0 (num_slots g)).

Definition succs (v : vert_id) (g : graph_t) : list vert_id :=
  (fun e => e.1.2) <$> filter (fun e => e.1.1 = v) (map_to_list (edges g)).

Definition preds (v : vert_id) (g : graph_t) : list vert_id :=
  (fun e => e.1.1) <$> filter (fun e => e.1.2 = v) (map_to_list (edges g)).

Definition size (g : graph_t) : nat := num_slots g.
Definition is_empty (g : graph_t) : bool := bool_decide (edges g = ∅).
Definition clear (g : graph_t) : graph_t := empty.

(** GraphPerm(perm, g): vertex i of the view is vertex perm[i] of g; an
    entry -1 (here [None]) is an absent vertex without edges. The view is
    handed on as the graph it shows. *)
Definition GrPerm (perm : list (option vert_id)) (g : graph_t) : graph_t :=
  let n := length perm in
  let entry i j :=
    match perm !! i, perm !! j with
    | Some (Some u), Some (Some v) =>
        match lookup u v g with Some w => [((i, j), w)] | None => [] end
    | _, _ => []
    end in
  Graph (list_to_map (i ← seq 0 n; j ← seq 0 n; entry i j)) n [].

(** SplitGraph(g): the view without the edges between the two vertices of
    one variable. *)
Definition SplitGraph (g : graph_t) : graph_t :=
  Graph (filter (fun e => (e.1.1 / 2 ≠ e.1.2 / 2)%nat) (edges g)) (num_slots g) (free_id g).

End graph.

(** The graph algorithms of GraphOps<graph_t> (graph_ops.hpp is not part of
    the sources) are the fields of this class; the split-octagon code below
    is written against it. *)
Class GraphOps : Type := {
  GrOps_meet : graph_t -> graph_t -> graph_t * bool;
  GrOps_join : graph_t -> graph_t -> graph_t;
  GrOps_widen : graph_t -> graph_t -> graph_t * list vert_id;
  GrOps_select_potentials : graph_t -> list Wt -> bool * list Wt;
  GrOps_repair_potential : graph_t -> list Wt -> vert_id -> vert_id -> bool * list Wt;
  GrOps_close_after_meet : graph_t -> list Wt -> graph_t -> graph_t -> edge_vector;
  GrOps_close_johnson : graph_t -> list Wt -> edge_vector;
  GrOps_close_after_widen : graph_t -> list Wt -> (vert_id -> bool) -> edge_vector;
  GrOps_apply_delta : graph_t -> edge_vector -> graph_t
}.

(** The three policy flags of the Params template argument. *)
Class Params : Type := {
  chrome_dijkstra : bool;
  widen_restabilize : bool;
  special_assign : bool
}.

Definition DefaultParams : Params := Build_Params true true true.
Definition SimpleParams : Params := Build_Params false false false.

(** ** Split octagons (src/unnamed/part_001) *)

Module SplitOCT_.

Abbreviation vert_map_t := (gmap variable_t (vert_id * vert_id)) (only parsing).
Abbreviation rev_map_t := (list (option variable_t)) (only parsing).
Abbreviation vert_set_t := (gset vert_id) (only parsing).

(** The members of the class. flat_map iterates in the order of the
    variables; the embedding iterates in the order of [map_to_list]. *)
Record OCT_t : Type := OCT {
  vert_map : vert_map_t;
  rev_map : rev_map_t;
  graph : graph_t;
  potential : list Wt;
  unstable : vert_set_t;
  _is_bottom : bool
}.

(** flat_map::insert keeps an existing binding. *)
Definition vmap_insert (v : variable_t) (p : vert_id * vert_id) (m : vert_map_t)
    : vert_map_t :=
  match m !! v with
  | Some _ => m
  | None => <[v := p]> m
  end.

(** potential[i] *)
Definition pot_at (pot : list Wt) (i : vert_id) : Wt := default 0 (pot !! i).

(** SplitOCT_(bool is_bottom) *)
Definition create (is_bottom : bool) : OCT_t := OCT ∅ [] graph.empty [] ∅ is_bottom.

Definition top : OCT_t := create false.
Definition bottom : OCT_t := create true.

Definition set_to_bottom (s : OCT_t) : OCT_t := OCT ∅ [] graph.empty [] ∅ true.

Definition is_bottom (s : OCT_t) : bool := _is_bottom s.
Definition is_top (s : OCT_t) : bool :=
  if _is_bottom s then false else graph.is_empty (graph s).

(** get vert_id of both v+ and v- after creating vertices in graph;
    return vert_id of positive node, negative node is positive + 1 *)
Definition get_vert (v : variable_t) (s : OCT_t) : vert_id * OCT_t :=
  match vert_map s !! v with
  | Some p => (p.1, s)
  | None =>
      let '(vert_pos, g) := graph.new_vertex (graph s) in
      let '(vert_neg, g) := graph.new_vertex g in
      let '(vert_pos, vert_neg) :=
        if (vert_neg <? vert_pos)%nat then
          let tmp := vert_pos in
          let vert_pos := vert_neg in
          let vert_neg := vert_pos in
          (vert_pos, vert_neg)
        else (vert_pos, vert_neg) in
      let vm := vmap_insert v (vert_pos, vert_neg) (vert_map s) in
      let '(pot, rm) :=
        if (vert_pos <? length (rev_map s))%nat
        then (<[vert_pos := 0]> (potential s), <[vert_pos := Some v]> (rev_map s))
        else (potential s ++ [0], rev_map s ++ [Some v]) in
      let '(pot, rm) :=
        if (vert_neg <? length rm)%nat
        then (<[vert_neg := 0]> pot, <[vert_neg := Some v]> rm)
        else (pot ++ [0], rm ++ [Some v]) in
      (vert_pos, OCT vm rm g pot (unstable s) (_is_bottom s))
  end.

Section with_graph_ops.
Context `{!GraphOps} `{!Params}.

Definition repair_potential (src dest : vert_id) (s : OCT_t) : bool * OCT_t :=
  let '(ok, pot) := GrOps_repair_potential (graph s) (potential s) src dest in
  (ok, OCT (vert_map s) (rev_map s) (graph s) pot (unstable s) (_is_bottom s)).

Definition with_graph (g : graph_t) (s : OCT_t) : OCT_t :=
  OCT (vert_map s) (rev_map s) g (potential s) (unstable s) (_is_bottom s).

(** The body of the two loops of normalize for the edge v -> w. *)
Definition normalize_edge (v w : vert_id) (s : OCT_t) : OCT_t :=
  if (v / 2 =? w / 2)%nat then s
  else
    let current := graph.edge_val v w (graph s) in
    let mirror_of (mw mv : vert_id) : OCT_t :=
      match graph.lookup mw mv (graph s) with
      | Some mirror =>
          let m := if mirror <? current then mirror else current in
          let g := graph.update_edge mw m mv Wt_min (graph s) in
          let g := graph.update_edge v m w Wt_min g in
          with_graph g s
      | None =>
          let s := with_graph (graph.add_edge mw current mv (graph s)) s in
          let '(ok, s) := repair_potential mw mv s in
          if ok then s else set_to_bottom s
      end in
    if ((v mod 2 =? 0) && (w mod 2 =? 0))%nat then mirror_of (w + 1)%nat (v + 1)%nat
    else if (negb (v mod 2 =? 0) && (w mod 2 =? 0))%nat then mirror_of (w + 1)%nat (v - 1)%nat
    else if ((v mod 2 =? 0) && negb (w mod 2 =? 0))%nat then mirror_of (w - 1)%nat (v + 1)%nat
    else mirror_of (w - 1)%nat (v - 1)%nat.

(** for (vert_id w : graph.succs(v)); once the state was set to bottom its
    graph has no vertex left and the loops are over. *)
Definition normalize_succs (v : vert_id) (s : OCT_t) : OCT_t :=
  fold_left (fun s w => if _is_bottom s then s else normalize_edge v w s)
            (graph.succs v (graph s)) s.

(** for (vert_id v : graph.verts()) *)
Definition normalize_mirror (s : OCT_t) : OCT_t :=
  fold_left (fun s v => if _is_bottom s then s else normalize_succs v s)
            (graph.verts (graph s)) s.

Definition normalize (s : OCT_t) : OCT_t :=
  let s := normalize_mirror s in
  if bool_decide (unstable s = ∅) then s
  else
    let g_excl := graph.SplitGraph (graph s) in
    let delta :=
      if widen_restabilize
      then GrOps_close_after_widen g_excl (potential s)
             (fun v => bool_decide (v ∈ unstable s))
      else GrOps_close_johnson g_excl (potential s) in
    OCT (vert_map s) (rev_map s) (GrOps_apply_delta (graph s) delta)
        (potential s) ∅ (_is_bottom s).

(** FORGET: operator-=(variable_t v) *)
Definition forget (v : variable_t) (s : OCT_t) : OCT_t :=
  if is_bottom s then s
  else
    let s := normalize s in
    match vert_map s !! v with
    | Some p =>
        let g := graph.forget p.1 (graph s) in
        let g := graph.forget p.2 g in
        let rm := <[p.1 := None]> (rev_map s) in
        let rm := <[p.2 := None]> rm in
        OCT (delete v (vert_map s)) rm g (potential s) (unstable s) (_is_bottom s)
    | None => s
    end.

(** A value of the C++ type long: its 64 bits in two's complement. *)
Definition Wt_wrap (z : Z) : Wt := (z + 2 ^ 63) mod 2 ^ 64 - 2 ^ 63.

(** ntov: (Wt) n *)
Definition ntov (n : number_t) : Wt := Wt_wrap n.

(** set a variable to an interval *)
Definition set (x : variable_t) (intv : interval_t) (s : OCT_t) : OCT_t :=
  if is_bottom s then s
  else
    let s := forget x s in
    if interval.is_top intv then s
    else
      let '(v, s) := get_vert x s in
      let s :=
        match ub intv with
        | finite n =>
            let ub := ntov n in
            let pot := <[v := ub]> (potential s) in
            let pot := <[(v + 1)%nat := Wt_wrap (- ub)]> pot in
            OCT (vert_map s) (rev_map s)
                (graph.set_edge (v + 1)%nat (Wt_wrap (2 * ub)) v (graph s))
                pot (unstable s) (_is_bottom s)
        | _ => s
        end in
      match lb intv with
      | finite n =>
          let lb := ntov n in
          let pot := <[v := lb]> (potential s) in
          let pot := <[(v + 1)%nat := Wt_wrap (- lb)]> pot in
          OCT (vert_map s) (rev_map s)
              (graph.set_edge v (Wt_wrap (-2 * lb)) (v + 1)%nat (graph s))
              pot (unstable s) (_is_bottom s)
      | _ => s
      end.

Definition get_interval_in (m : vert_map_t) (r : graph_t) (x : variable_t) : interval_t :=
  match m !! x with
  | None => interval.top
  | Some p =>
      let v := p.1 in
      interval.make
        (if graph.elem v (v + 1)%nat r
         then finite (Z.quot (- graph.edge_val v (v + 1)%nat r) 2)
         else minus_infinity)
        (if graph.elem (v + 1)%nat v r
         then finite (Z.quot (graph.edge_val (v + 1)%nat v r) 2)
         else plus_infinity)
  end.

Definition get_interval (x : variable_t) (s : OCT_t) : interval_t :=
  get_interval_in (vert_map s) (graph s) x.

(** operator[] *)
Definition interval_of (x : variable_t) (s : OCT_t) : interval_t :=
  if is_bottom s then interval.bottom
  else if is_bottom s then interval.bottom
  else get_interval_in (vert_map s) (graph s) x.

(** The common renaming built by the first loop of operator||: one step
    for the binding p of vert_map. *)
Record widen_renaming : Type := WidenRenaming {
  w_perm_x : list (option vert_id);
  w_perm_y : list (option vert_id);
  w_out_vmap : vert_map_t;
  w_out_revmap : rev_map_t;
  w_widen_pot : list Wt
}.

Definition widen_renaming_step (pot : list Wt) (o_vert_map : vert_map_t)
    (r : widen_renaming) (p : variable_t * (vert_id * vert_id)) : widen_renaming :=
  match o_vert_map !! p.1 with
  | Some it =>
      WidenRenaming
        (w_perm_x r ++ [Some p.2.1; Some p.2.2])
        (w_perm_y r ++ [Some it.1; Some it.2])
        (vmap_insert p.1 (length (w_perm_x r), (length (w_perm_x r) + 1)%nat) (w_out_vmap r))
        (w_out_revmap r ++ [Some p.1; Some p.1])
        (w_widen_pot r ++ [pot_at pot p.2.1; pot_at pot p.2.2])
  | None => r
  end.

(** widening: operator||; the right operand is normalized in place, so the
    call returns it next to the result. *)
Definition widening (s o : OCT_t) : OCT_t * OCT_t :=
  if is_bottom s then (o, o)
  else if is_bottom o then (s, o)
  else
    let o := normalize o in
    let r := fold_left (widen_renaming_step (potential s) (vert_map o))
               (map_to_list (vert_map s)) (WidenRenaming [] [] ∅ [] []) in
    let widen_unstable := unstable s in
    (* Build the permuted view of x and y. *)
    let gx := graph.GrPerm (w_perm_x r) (graph s) in
    let gy := graph.GrPerm (w_perm_y r) (graph o) in
    (* Now perform the widening *)
    let '(widen_g, destabilized) := GrOps_widen gx gy in
    let widen_unstable := fold_left (fun u v => {[v]} ∪ u) destabilized widen_unstable in
    (OCT (w_out_vmap r) (w_out_revmap r) widen_g (w_widen_pot r) widen_unstable false, o).

Definition widening_thresholds {Thresholds : Type} (s o : OCT_t) (ts : Thresholds)
    : OCT_t * OCT_t :=
  widening s o.

(** The common vertex space built by the two loops of operator&. *)
Record meet_renaming : Type := MeetRenaming {
  m_meet_verts : vert_map_t;
  m_meet_rev : rev_map_t;
  m_perm_x : list (option vert_id);
  m_perm_y : list (option vert_id);
  m_meet_pi : list Wt
}.

(** for (auto p : vert_map) *)
Definition meet_renaming_left (pot : list Wt) (r : meet_renaming)
    (p : variable_t * (vert_id * vert_id)) : meet_renaming :=
  let vv := length (m_perm_x r) in
  MeetRenaming
    (vmap_insert p.1 (vv, (vv + 1)%nat) (m_meet_verts r))
    (m_meet_rev r ++ [Some p.1; Some p.1])
    (m_perm_x r ++ [Some p.2.1; Some p.2.2])
    (m_perm_y r ++ [None; None])
    (m_meet_pi r ++ [pot_at pot p.2.1; pot_at pot p.2.2]).

(** Add missing mappings from the right operand. *)
Definition meet_renaming_right (o_pot : list Wt) (r : meet_renaming)
    (p : variable_t * (vert_id * vert_id)) : meet_renaming :=
  match m_meet_verts r !! p.1 with
  | None =>
      let vv := length (m_perm_y r) in
      MeetRenaming
        (vmap_insert p.1 (vv, (vv + 1)%nat) (m_meet_verts r))
        (m_meet_rev r ++ [Some p.1; Some p.1])
        (m_perm_x r ++ [None; None])
        (m_perm_y r ++ [Some p.2.1; Some p.2.2])
        (m_meet_pi r ++ [pot_at o_pot p.2.1; pot_at o_pot p.2.2])
  | Some it =>
      MeetRenaming (m_meet_verts r) (m_meet_rev r) (m_perm_x r)
        (<[it.2 := Some p.2.2]> (<[it.1 := Some p.2.1]> (m_perm_y r)))
        (m_meet_pi r)
  end.

Definition meet_renaming_of (s o : OCT_t) : meet_renaming :=
  let r := fold_left (meet_renaming_left (potential s))
             (map_to_list (vert_map s)) (MeetRenaming ∅ [] [] [] []) in
  fold_left (meet_renaming_right (potential o)) (map_to_list (vert_map o)) r.

(** Body of the loop "Recover updated LBs and UBs" (CLOSE_BOUNDS_INLINE). *)
Definition recover_bounds (meet_g : graph_t) (e : (vert_id * vert_id) * Wt) : graph_t :=
  if (e.1.1 mod 2 =? 2)%nat then
    let g :=
      if graph.elem (e.1.1 + 1)%nat e.1.1 meet_g
      then graph.update_edge (e.1.1 + 1)%nat
             (graph.edge_val (e.1.1 + 1)%nat e.1.1 meet_g + 2 * e.2) e.1.2 Wt_min meet_g
      else meet_g in
    if graph.elem e.1.2 (e.1.1 + 1)%nat g
    then graph.update_edge e.1.1
           (graph.edge_val e.1.2 (e.1.1 + 1)%nat g + 2 * e.2) (e.1.1 + 1)%nat Wt_min g
    else g
  else if (e.1.1 mod 2 =? 2)%nat then
    let g :=
      if graph.elem e.1.1 (e.1.1 + 1)%nat meet_g
      then graph.update_edge e.1.1
             (graph.edge_val e.1.1 (e.1.1 + 1)%nat meet_g + 2 * e.2) e.1.2 Wt_min meet_g
      else meet_g in
    if graph.elem e.1.2 (e.1.1 + 1)%nat g
    then graph.update_edge (e.1.1 + 1)%nat
           (graph.edge_val (e.1.2 + 1)%nat e.1.1 g + 2 * e.2) e.1.1 Wt_min g
    else g
  else meet_g.

(** MEET: operator&. Both operands are normalized in place; the call
    returns them after the result. *)
Definition meet (s o : OCT_t) : OCT_t * OCT_t * OCT_t :=
  if is_bottom s || is_bottom o then (bottom, s, o)
  else if is_top s then (o, s, o)
  else if is_top o then (s, s, o)
  else
    let s := normalize s in
    let o := normalize o in
    let r := meet_renaming_of s o in
    (* Build the permuted view of x and y. *)
    let gx := graph.GrPerm (m_perm_x r) (graph s) in
    let gy := graph.GrPerm (m_perm_y r) (graph o) in
    (* Compute the syntactic meet of the permuted graphs. *)
    let '(meet_g, is_closed) := GrOps_meet gx gy in
    (* We've warm-started pi with the operand potentials *)
    let '(selected, meet_pi) := GrOps_select_potentials meet_g (m_meet_pi r) in
    if negb selected then
      (* Potentials cannot be selected -- state is infeasible. *)
      (bottom, s, o)
    else
      let meet_g :=
        if negb is_closed then
          let meet_g_excl := graph.SplitGraph meet_g in
          let delta :=
            if chrome_dijkstra
            then GrOps_close_after_meet meet_g_excl meet_pi gx gy
            else GrOps_close_johnson meet_g_excl meet_pi in
          let meet_g := GrOps_apply_delta meet_g delta in
          fold_left recover_bounds delta meet_g
        else meet_g in
      (OCT (m_meet_verts r) (m_meet_rev r) meet_g meet_pi ∅ false, s, o).

End with_graph_ops.
End SplitOCT_.

(** ** The graph algorithms, from their descriptions

    Modelled from the spec: GraphOps (graph_ops.hpp is not part of the
    sources), §4.3. Shortest paths are computed by rounds of relaxation over
    all edges instead of a heap-driven search; the delta of a closure holds
    the edges that are absent or heavier than the shortest path. *)
Module graph_ops.

Definition edge_list (g : graph_t) : edge_vector := map_to_list (edges g).

(** One round of relaxation of the potentials: pi[d] <= pi[s] + w. *)
Definition relax_potentials (es : edge_vector) (pi : list Wt) : list Wt :=
  fold_left
    (fun pi e =>
       let ps := default 0 (pi !! e.1.1) in
       let pd := default 0 (pi !! e.1.2) in
       if ps + e.2 <? pd then <[e.1.2 := ps + e.2]> pi else pi)
    es pi.

Definition potentials_valid (es : edge_vector) (pi : list Wt) : bool :=
  forallb (fun e => 0 <=? default 0 (pi !! e.1.1) + e.2 - default 0 (pi !! e.1.2)) es.

(** "Select-potentials: recompute potentials via Bellman-Ford; if negative
    cycle detected, the state is infeasible." *)
Definition select_potentials (g : graph_t) (pi : list Wt) : bool * list Wt :=
  let es := edge_list g in
  let pi := pi ++ replicate (num_slots g - length pi) 0 in
  let pi := Nat.iter (S (num_slots g)) (relax_potentials es) pi in
  (potentials_valid es pi, pi).

(** "Repair-potential: after adding edge src→dest with weight w, if
    potential[src] + w < potential[dest], propagate corrections via
    Bellman-Ford-like relaxation. Returns false on negative cycle." *)
Definition repair_potential (g : graph_t) (pi : list Wt) (src dest : vert_id)
    : bool * list Wt :=
  select_potentials g pi.

(** One round of relaxation of the distances from a source. *)
Definition relax_dists (es : edge_vector) (dist : gmap vert_id Wt) : gmap vert_id Wt :=
  fold_left
    (fun dist e =>
       match dist !! e.1.1 with
       | Some ds =>
           match dist !! e.1.2 with
           | Some dd => if ds + e.2 <? dd then <[e.1.2 := ds + e.2]> dist else dist
           | None => <[e.1.2 := ds + e.2]> dist
           end
       | None => dist
       end)
    es dist.

Definition shortest_from (g : graph_t) (src : vert_id) : gmap vert_id Wt :=
  Nat.iter (num_slots g) (relax_dists (edge_list g)) {[src := 0]}.

(** The edges from src that closure has to add or to lower. *)
Definition delta_from (g : graph_t) (src : vert_id) : edge_vector :=
  omap (fun dw : vert_id * Wt =>
          if bool_decide (dw.1 = src) then None
          else match graph.lookup src dw.1 g with
               | Some w => if dw.2 <? w then Some ((src, dw.1), dw.2) else None
               | None => Some ((src, dw.1), dw.2)
               end)
       (map_to_list (shortest_from g src)).

(** "Close-after-meet ... running Dijkstra from each source ... Produce a
    delta of edges to update." *)
Definition close_johnson (g : graph_t) (pi : list Wt) : edge_vector :=
  v ← graph.verts g; delta_from g v.

Definition close_after_meet (g : graph_t) (pi : list Wt) (gx gy : graph_t) : edge_vector :=
  close_johnson g pi.

(** "Close-after-widen: run restricted closure only from unstable
    vertices." *)
Definition close_after_widen (g : graph_t) (pi : list Wt) (is_unstable : vert_id -> bool)
    : edge_vector :=
  v ← filter (fun v => is_unstable v = true) (graph.verts g); delta_from g v.

(** "Apply-delta: apply a batch of edge updates (min-combined if edge
    exists)." *)
Definition apply_delta (g : graph_t) (delta : edge_vector) : graph_t :=
  fold_left (fun g e => graph.update_edge e.1.1 e.2 e.1.2 Wt_min g) delta g.

(** "Meet: vertex-wise union; on common edges take the minimum weight." The
    result is reported closed only when it is one of the operands. *)
Definition meet (gx gy : graph_t) : graph_t * bool :=
  let es := union_with (fun a b => Some (Z.min a b)) (edges gx) (edges gy) in
  (Graph es (Nat.max (num_slots gx) (num_slots gy)) [],
   bool_decide (es = edges gx) || bool_decide (es = edges gy)).

(** "Join: pointwise maximum of edges common to both graphs; edges present
    in only one are dropped." *)
Definition join (gx gy : graph_t) : graph_t :=
  Graph (intersection_with (fun a b => Some (Z.max a b)) (edges gx) (edges gy))
        (Nat.max (num_slots gx) (num_slots gy)) [].

(** "Widening: for each edge in the left operand: if an equal-or-weaker
    edge exists in the right operand, keep it; otherwise drop it. Any vertex
    whose bound changed is marked unstable." *)
Definition widen (gx gy : graph_t) : graph_t * list vert_id :=
  let keep (e : (vert_id * vert_id) * Wt) : bool :=
    match edges gy !! e.1 with
    | Some wy => wy <=? e.2
    | None => false
    end in
  (Graph (list_to_map (filter (fun e => keep e = true) (edge_list gx))) (num_slots gx) [],
   (fun e => e.1.1) <$> filter (fun e => keep e = false) (edge_list gx)).

#[export] Instance spec_graph_ops : GraphOps := {|
  GrOps_meet := meet;
  GrOps_join := join;
  GrOps_widen := widen;
  GrOps_select_potentials := select_potentials;
  GrOps_repair_potential := repair_potential;
  GrOps_close_after_meet := close_after_meet;
  GrOps_close_johnson := close_johnson;
  GrOps_close_after_widen := close_after_widen;
  GrOps_apply_delta := apply_delta
|}.

End graph_ops.

(** * Vocabulary of the statements

    Predicates, decision procedures and concrete states that the properties
    below are stated with. *)

(** The part of the lattice laws ("Testable properties") that the weak
    update relies on: a join is above both of its arguments. *)
Class NumDomainJoin (D : Type) `{!NumDomain D} : Prop := {
  d_leq_join_l : forall x y : D, d_leq x (d_join x y) = true;
  d_leq_join_r : forall x y : D, d_leq y (d_join x y) = true
}.

(** ** Array smashing *)

(** Scenario "Smashing weak update": after init(a, _, _, _, 0) and a
    non-singleton store of 5 the summary variable is in [0, 5]. *)
Definition smashed_array : variable_t := Variable_ (Named 0) ARR_INT_TYPE 32.

Definition smashing_after_init : array_smashing.array_smashing_t :=
  array_smashing.strong_update smashed_array (exp_of_number 0)
    (array_smashing.ArraySmashing interval_domain.top).

(** ** Split octagons *)

Section octagon_vocabulary.
Context `{!GraphOps} `{!Params}.
Import SplitOCT_.




(** The graph and the warm-started potentials on which operator& selects
    potentials: the meet of the permuted views of the normalized operands. *)
Definition meet_graph (s o : OCT_t) : graph_t :=
  let r := meet_renaming_of (normalize s) (normalize o) in
  (GrOps_meet (graph.GrPerm (m_perm_x r) (graph (normalize s)))
              (graph.GrPerm (m_perm_y r) (graph (normalize o)))).1.

Definition meet_warm_potentials (s o : OCT_t) : list Wt :=
  m_meet_pi (meet_renaming_of (normalize s) (normalize o)).

Definition neg (v : vert_id) : vert_id :=
  if (v mod 2 =? 0)%nat then (v + 1)%nat else (v - 1)%nat.

Definition coherent (g : graph_t) : Prop :=
  forall (u v : vert_id) (w : Wt),
    (u / 2 <> v / 2)%nat ->
    graph.lookup u v g = Some w ->
    graph.lookup (neg v) (neg u) g = Some w.




End octagon_vocabulary.

(** Decision procedures for the two graph predicates, for concrete graphs. *)
Definition coherentb (g : graph_t) : bool :=
  forallb
    (fun e : (vert_id * vert_id) * Wt =>
       (e.1.1 / 2 =? e.1.2 / 2)%nat
       || bool_decide (graph.lookup (neg e.1.2) (neg e.1.1) g = Some e.2))
    (map_to_list (edges g)).


Definition oct_x : variable_t := Variable_ (Named 1) INT_TYPE 32.

(** x = 1, then x forgotten: both vertices of x are on the free list. *)
Definition oct_x_is_1 : SplitOCT_.OCT_t :=
  @SplitOCT_.set graph_ops.spec_graph_ops DefaultParams oct_x
    (Interval (finite 1) (finite 1)) SplitOCT_.top.

Definition oct_x_forgotten : SplitOCT_.OCT_t :=
  @SplitOCT_.forget graph_ops.spec_graph_ops DefaultParams oct_x oct_x_is_1.

(** x = 1, then x = [2, 5]: the second set forgets x and asks get_vert for
    its vertices again. *)
Definition oct_x_set_twice : SplitOCT_.OCT_t :=
  @SplitOCT_.set graph_ops.spec_graph_ops DefaultParams oct_x
    (Interval (finite 2) (finite 5)) oct_x_is_1.

(** x <= 0 and x >= 1 *)
Definition oct_x_le_0 : SplitOCT_.OCT_t :=
  @SplitOCT_.set graph_ops.spec_graph_ops DefaultParams oct_x
    (Interval minus_infinity (finite 0)) SplitOCT_.top.

Definition oct_x_ge_1 : SplitOCT_.OCT_t :=
  @SplitOCT_.set graph_ops.spec_graph_ops DefaultParams oct_x
    (Interval (finite 1) plus_infinity) SplitOCT_.top.


(** ** Array expansion *)

Section expansion_vocabulary.
Context {NumDomain_t : Type} `{!NumDomain NumDomain_t}.
Import array_expansion.
Local Abbreviation state_t := (@array_expansion_domain_t NumDomain_t).

(** The stores that array_init is specified to perform: one store of val
    per offset, in order. *)
Fixpoint store_each (a : variable_t) (elem_size val : linear_expression_t)
    (offsets : list number_t) (s : state_t) (g : globals_t)
    : outcome (state_t * globals_t) :=
  match offsets with
  | [] => Done (s, g)
  | i :: offsets =>
      '(s, g) ← array_store a elem_size (exp_of_number i) val false s g;
      store_each a elem_size val offsets s g
  end.

(** The offsets i, i + n, i + 2n, ... (count of them). *)
Fixpoint offsets_from (count : nat) (i n : number_t) : list number_t :=
  match count with
  | O => []
  | S count => i :: offsets_from count (i + n) n
  end.

(** lb, lb + n, ..., ub - n *)
Definition init_offsets (lb ub n : number_t) : list number_t :=
  offsets_from (Z.to_nat ((ub - lb) / n)) lb n.

End expansion_vocabulary.

Definition exp_a : variable_t := Variable_ (Named 0) ARR_INT_TYPE 32.

Definition exp_x : variable_t := Variable_ (Named 1) INT_TYPE 32.

Definition exp_n : variable_t := Variable_ (Named 2) INT_TYPE 32.

Definition no_globals : array_expansion.globals_t := array_expansion.Globals ∅ [].

(** x = 1 and 4 <= n <= 8 *)
Definition exp_x1_n48 : array_expansion.array_expansion_domain_t :=
  array_expansion.ArrayExpansion ∅
    (interval_domain.set exp_n (Interval (finite 4) (finite 8))
       (interval_domain.set exp_x (Interval (finite 1) (finite 1)) interval_domain.top)).

(** ** Shape of an offset map around one offset *)

Section expansion_shapes.
Import array_expansion.

(** The bindings of an offset map below, at and above the offset o. *)
Definition lows (o : Z) (m : list (Z * list cell_t)) : list (Z * list cell_t) :=
  filter (fun kv => kv.1 < o) m.

Definition highs (o : Z) (m : list (Z * list cell_t)) : list (Z * list cell_t) :=
  filter (fun kv => o < kv.1) m.

Definition mid (o : Z) (m : list (Z * list cell_t)) : list (Z * list cell_t) :=
  match patricia_tree.lookup o m with
  | Some b => [(o, b)]
  | None => []
  end.

(** The iteration order of the patricia tree: strictly increasing keys. *)
Definition keys_sorted (m : list (Z * list cell_t)) : Prop :=
  StronglySorted Z.lt (m.*1).

(** A std::set of cells bound to the offset k: not empty, every cell at
    offset k, strictly increasing sizes (the order of operator<). *)
Definition bucket_ok (k : Z) (b : list cell_t) : Prop :=
  b <> [] /\ Forall (fun x => _offset x = k) b /\ StronglySorted Z.lt (_size <$> b).

(** Well-formed offset maps. *)
Definition map_ok (m : list (Z * list cell_t)) : Prop :=
  keys_sorted m /\ Forall (fun kv => bucket_ok kv.1 kv.2) m.

(** Every cell of the map carries its scalar variable. *)
Definition all_scalars (m : list (Z * list cell_t)) : Prop :=
  Forall (fun kv => Forall (fun x => cell.has_scalar x = true) kv.2) m.

(** Apply f to every bucket and drop the buckets that become empty. *)
Definition map_buckets (f : list cell_t -> list cell_t) (m : list (Z * list cell_t))
    : list (Z * list cell_t) :=
  omap (fun kv => match f kv.2 with [] => None | b => Some (kv.1, b) end) m.

(** All keys lie below, respectively above, the offset o. *)
Definition below (o : Z) (m : list (Z * list cell_t)) : Prop :=
  Forall (fun kv => kv.1 < o) m.

Definition above (o : Z) (m : list (Z * list cell_t)) : Prop :=
  Forall (fun kv => o < kv.1) m.

(** x is equal (operator==) to a cell of K. *)
Definition key_in (x : cell_t) (K : list cell_t) : bool := existsb (cell.eqb x) K.

(** The guarded push_back of get_overlap_cells, for a list of cells. *)
Definition push_all (l out : list cell_t) : list cell_t :=
  fold_left (fun out x => offset_map.push_back_unique x out) l out.

(** The cells of a bucket that operator-= (K) leaves in place. *)
Definition keep_out (K : list cell_t) (b : list cell_t) : list cell_t :=
  filter (fun x => key_in x K = false) b.

(** map_buckets on the list of buckets alone. *)
Definition nonempty_buckets (f : list cell_t -> list cell_t) (bs : list (list cell_t))
    : list (list cell_t) :=
  omap (fun b => match f b with [] => None | b' => Some b' end) bs.

(** The first bucket, if any, has no cell overlapping (o, size): a loop of
    get_overlap_cells over these buckets stops at once. *)
Definition quiet (o size : Z) (bs : list (list cell_t)) : Prop :=
  match bs with
  | [] => True
  | b :: _ => forall x, x ∈ b -> cell.overlap x o size = false
  end.

(** The common form of the three loop bodies of get_overlap_cells: the
    cells selected from the bucket are pushed, and the flag tells whether
    the outer loop goes on. *)
Definition scan_with (sel : list cell_t -> list cell_t) (cont : list cell_t -> bool)
    (b out : list cell_t) : list cell_t * bool :=
  (push_all (sel b) out, cont b).

(** Every cell sits in the bucket of its offset. *)
Definition keyed (m : list (Z * list cell_t)) : Prop :=
  Forall (fun kv => Forall (fun x => _offset x = kv.1) kv.2) m.

(** The cells collected by the three loops of get_overlap_cells over the
    bindings L ++ (o, bt) :: H, with c the cell of (o, size) in bt. *)
Definition sel_lb (c : cell_t) (o size : Z) (b : list cell_t) : list cell_t :=
  filter (fun x => cell.overlap x o size && negb (cell.eqb x c) = true) b.

Definition sel_ub (o size : Z) (b : list cell_t) : list cell_t :=
  filter (fun x => cell.overlap x o size = true) b.

Definition cont_ub (o size : Z) (b : list cell_t) : bool :=
  existsb (fun x => cell.overlap x o size) b.

Definition cont_eq (c : cell_t) (o size : Z) (b : list cell_t) : bool :=
  existsb (fun x => cell.overlap x o size && negb (cell.eqb x c)) b.

Definition walk_lb (c : cell_t) (o size : Z) (L : list (Z * list cell_t))
    (bt : list cell_t) : list cell_t :=
  fst (offset_map.walk (scan_with (sel_lb c o size) (cont_ub o size))
         (bt :: rev L.*2) []).

Definition walk_ub (c : cell_t) (o size : Z) (L : list (Z * list cell_t))
    (bt : list cell_t) (H : list (Z * list cell_t)) : list cell_t * nat :=
  offset_map.walk (scan_with (sel_ub o size) (cont_ub o size)) H.*2 (walk_lb c o size L bt).

Definition walks_out (c : cell_t) (o size : Z) (L : list (Z * list cell_t))
    (bt : list cell_t) (H : list (Z * list cell_t)) : list cell_t :=
  fst (offset_map.walk (scan_with (sel_lb c o size) (cont_eq c o size))
         (take (snd (walk_ub c o size L bt H)) H).*2 (fst (walk_ub c o size L bt H))).

(** The bucket bound to o, empty when o is unbound. *)
Definition bucket_at (o : Z) (m : list (Z * list cell_t)) : list cell_t :=
  default [] (patricia_tree.lookup o m).

(** The binding of o for the bucket b; none for the empty bucket. *)
Definition mid_of (o : Z) (b : list cell_t) : list (Z * list cell_t) :=
  match b with [] => [] | _ => [(o, b)] end.

(** A map in which the cell of (o, size) is present as [c] and a query for
    (o, size) finds nothing to kill. *)
Definition settled (o size : Z) (c : cell_t) (m : list (Z * list cell_t)) : Prop :=
  exists L b H,
    m = L ++ (o, b) :: H /\ below o L /\ above o H /\ keyed L /\ keyed H
    /\ cell_set.find (cell.of_size o size) b = Some c
    /\ (forall x, x ∈ b -> cell.overlap x o size = true -> cell.eqb x c = true)
    /\ quiet o size (rev L.*2) /\ quiet o size H.*2.

(** The cells that the first query of a store at (o, size) kills. *)
Definition killed (o size : Z) (L : list (Z * list cell_t)) (b : list cell_t)
    (H : list (Z * list cell_t)) : list cell_t :=
  match cell_set.find (cell.of_size o size) b with
  | Some c => walks_out c o size L b H
  | None =>
      walks_out (cell.of_size o size) o size L
        (cell_set.insert (cell.of_size o size) b).1 H
  end.

(** Every offset map of the state is well formed and all its cells carry
    their scalar variable. *)
Definition wf_maps (M : gmap varname_t (list (Z * list cell_t))) : Prop :=
  forall n m, M !! n = Some m -> map_ok m /\ all_scalars m.

(** The state after  a[0] := 5  with 4-byte elements in the top state. *)
Definition exp_cell04 : cell_t := Cell 0 4 (Some (Variable_ (Shadow 0) INT_TYPE 4)).

Definition exp_a0_is_5 : array_expansion_domain_t :=
  ArrayExpansion {[ Named 0 := [(0, [exp_cell04])] ]}
    (interval_domain.IntervalDomain false
       {[ Shadow 0 := Interval (finite 5) (finite 5) ]}).

Definition exp_globals04 : globals_t := Globals {[ (Named 0, (0, 4)) := 0%nat ]} [].

(** The state after the further store  a[2] := 7, which kills the cell at
    offset 0, and after the load  x := a[2]. *)
Definition exp_cell24 : cell_t := Cell 2 4 (Some (Variable_ (Shadow 1) INT_TYPE 4)).

Definition exp_a2_is_7 : array_expansion_domain_t :=
  ArrayExpansion {[ Named 0 := [(2, [exp_cell24])] ]}
    (interval_domain.IntervalDomain false
       {[ Shadow 1 := Interval (finite 7) (finite 7) ]}).

Definition exp_globals24 : globals_t :=
  Globals {[ (Named 0, (0, 4)) := 0%nat; (Named 0, (2, 4)) := 1%nat ]} [].

Definition exp_x_is_a2 : array_expansion_domain_t :=
  ArrayExpansion {[ Named 0 := [(2, [exp_cell24])] ]}
    (interval_domain.IntervalDomain false
       {[ Shadow 1 := Interval (finite 7) (finite 7);
          Named 1 := Interval (finite 7) (finite 7) ]}).

End expansion_shapes.

(** ** Vocabulary of the further properties *)

(** What the traits and the smashing load need of the domain they run on:
    how operator[] reads after top, operator-=, set and the assignment of a
    variable, and which of them keep a value bottom. *)
Class NumDomainReads (D : Type) `{!NumDomain D} `{!NumDomainSet D} : Prop := {
  d_top_not_bottom : d_is_bottom (d_top : D) = false;
  d_read_top : forall y, d_interval (d_top : D) y = interval.top;
  d_read_bottom : forall (s : D) y,
    d_is_bottom s = true -> d_interval s y = interval.bottom;
  d_read_name : forall (s : D) x y,
    name x = name y -> d_interval s x = d_interval s y;
  d_forget_is_bottom : forall v (s : D),
    d_is_bottom (d_forget v s) = d_is_bottom s;
  d_read_forget : forall v (s : D) y,
    d_is_bottom s = false ->
    d_interval (d_forget v s) y
      = if decide (name y = name v) then interval.top else d_interval s y;
  d_set_is_bottom : forall x i (s : D),
    d_is_bottom (d_set x i s) = d_is_bottom s || interval.is_bottom i;
  d_read_set : forall x i (s : D) y,
    d_is_bottom s = false -> interval.is_bottom i = false ->
    d_interval (d_set x i s) y
      = if decide (name y = name x) then i else d_interval s y;
  d_assign_is_bottom : forall x v (s : D),
    (d_is_bottom s = false -> interval.is_bottom (d_interval s v) = false) ->
    d_is_bottom (d_assign x (exp_of_variable v) s) = d_is_bottom s;
  d_read_assign : forall x v (s : D) y,
    d_is_bottom s = false -> interval.is_bottom (d_interval s v) = false ->
    d_interval (d_assign x (exp_of_variable v) s) y
      = if decide (name y = name x) then d_interval s v else d_interval s y
}.

(** A value that is not bottom reads no empty interval. *)
Definition reads_nonempty {D : Type} `{!NumDomain D} (inv : D) : Prop :=
  d_is_bottom inv = false ->
  forall v, interval.is_bottom (d_interval inv v) = false.

(** The stored intervals of an interval environment are not empty. *)
Definition interval_domain_wf (s : interval_domain.interval_domain_t) : Prop :=
  map_Forall (fun _ i => interval.is_bottom i = false) (interval_domain.env s).

Section further_vocabulary.
Import array_expansion.

(** The table [_index_map] hands out the indices 0, 1, 2, ... in turn: every
    stored index is below the size of the table and no index is stored
    twice. *)
Definition index_ok (g : globals_t) : Prop :=
  (forall k i, _index_map g !! k = Some i -> (i < base.size (_index_map g))%nat)
  /\ (forall k1 k2 i,
        _index_map g !! k1 = Some i -> _index_map g !! k2 = Some i -> k1 = k2).

(** The vectors indexed by vertex have one entry per vertex slot of the
    graph, and the free list holds slots of the graph. *)
Definition oct_sized (s : SplitOCT_.OCT_t) : Prop :=
  length (SplitOCT_.rev_map s) = num_slots (SplitOCT_.graph s)
  /\ length (SplitOCT_.potential s) = num_slots (SplitOCT_.graph s)
  /\ Forall (fun v => (v < num_slots (SplitOCT_.graph s))%nat)
       (free_id (SplitOCT_.graph s)).

(** The offset map with the single cell of the state after a[0] := 5. *)
Definition exp_map04 : list (Z * list cell_t) := [(0, [exp_cell04])].

(** x in [1, 1] as an interval environment, and the summary variable of an
    integer array in [0, 5]. *)
Definition itv_x_is_1 : interval_domain.interval_domain_t :=
  interval_domain.IntervalDomain false {[ Named 1 := Interval (finite 1) (finite 1) ]}.
Definition smashed_0_to_5 : array_smashing.array_smashing_t :=
  array_smashing.ArraySmashing
    (interval_domain.IntervalDomain false {[ Named 0 := Interval (finite 0) (finite 5) ]}).

(** All the cells of an offset map. *)
Definition cells (m : list (Z * list cell_t)) : list cell_t := mjoin m.*2.

(** Every cell has a positive size. *)
Definition sized (m : list (Z * list cell_t)) : Prop :=
  forall x, x ∈ cells m -> 0 < _size x.

(** The range in which an offset and a size are what the source computes
    with: the index is not negative, so that offset_t o((long) n) keeps it
    and the unsigned order of the keys is the order of the numbers; the
    size is positive and fits the type unsigned, so that
    unsigned size = (long) n_bytes keeps it; and the last byte
    o + size - 1 is below 2^63. *)
Definition cell_in_range (o size : Z) : Prop :=
  0 <= o /\ 0 < size < 2 ^ 32 /\ o + size <= 2 ^ 63.

(** Every cell of the map lies in that range. *)
Definition map_in_range (m : list (Z * list cell_t)) : Prop :=
  forall x, x ∈ cells m -> cell_in_range (_offset x) (_size x).

(** No two cells of the map overlap. *)
Definition cells_apart (m : list (Z * list cell_t)) : Prop :=
  forall x y, x ∈ cells m -> y ∈ cells m -> cell.eqb x y = false ->
    cell.overlap x (_offset y) (_size y) = false.

(** The cells of every offset map of the state lie in the range of
    [cell_in_range] and do not overlap each other. *)
Definition apart_maps (M : gmap varname_t (list (Z * list cell_t))) : Prop :=
  forall n m, M !! n = Some m -> map_in_range m /\ cells_apart m.

(** An offset map with a 100-byte cell at offset 0 and a 1-byte cell at
    offset 10 inside it. *)
Definition exp_map_gap : list (Z * list cell_t) :=
  [(0, [Cell 0 100 (Some (Variable_ (Shadow 0) INT_TYPE 100))]);
   (10, [Cell 10 1 (Some (Variable_ (Shadow 1) INT_TYPE 1))])].

End further_vocabulary.

(** * Properties *)

(** ** Entailment through the checker traits *)

Section entail_properties.
Context {Domain : Type} `{!NumDomain Domain}.
Import checker_domain_traits constraint_simp_domain_traits.

Lemma lower_equality_of_equality (e : linear_expression_t) :
  lower_equality (LinCst e EQUALITY) [] =
    [LinCst e INEQUALITY; LinCst (exp_scale e (-1)) INEQUALITY].
Proof. reflexivity. Qed.

Lemma lower_equality_other (cst : linear_constraint_t) :
  is_equality cst = false -> lower_equality cst [] = [cst].
Proof. intros Hne. unfold lower_equality. by rewrite Hne. Qed.

Lemma negate_inequality_kind (e : linear_expression_t) :
  kind (negate (LinCst e INEQUALITY)) = STRICT_INEQUALITY.
Proof. reflexivity. Qed.

(** C2. entail(D, cst) is true at once when D is bottom or cst is a
    tautology and false when cst is a contradiction; otherwise it is the
    bottom test of the copy of D with the negation of cst adjoined, except
    that an equality e = 0 is first lowered to e <= 0 and -e <= 0, both of
    which are checked that way; the two lowered constraints are
    inequalities and their negations are never disequalities. *)
Theorem entail_by_negation (inv : Domain) (cst : linear_constraint_t) :
  entail inv cst =
    (if d_is_bottom inv then true
     else if is_tautology cst then true
     else if is_contradiction cst then false
     else if is_equality cst then
       d_is_bottom (d_add (negate (LinCst (expression cst) INEQUALITY)) inv)
       && d_is_bottom
            (d_add (negate (LinCst (exp_scale (expression cst) (-1)) INEQUALITY)) inv)
     else d_is_bottom (d_add (negate cst) inv))
  /\ forallb (fun c => is_inequality c && negb (is_disequation (negate c)))
       (lower_equality (LinCst (expression cst) EQUALITY) []) = true.
Proof.
  split; [|reflexivity].
  unfold entail.
  destruct (d_is_bottom inv); [reflexivity|].
  destruct (is_tautology cst); [reflexivity|].
  destruct (is_contradiction cst); [reflexivity|].
  destruct (is_equality cst) eqn:Heq; [|reflexivity].
  destruct cst as [e k]. unfold is_equality in Heq. simpl in Heq.
  apply bool_decide_eq_true in Heq. subst k.
  rewrite lower_equality_of_equality. unfold entail_all_of, entailment. simpl.
  by rewrite andb_true_r.
Qed.

End entail_properties.

(** ** Array smashing *)

Section bound_order.

Lemma bound_leb_refl (a : bound_t) : bound_leb a a = true.
Proof. destruct a; simpl; auto. apply Z.leb_refl. Qed.

Lemma bound_leb_min_l (a b : bound_t) : bound_leb (bound_min a b) a = true.
Proof.
  unfold bound_min. destruct (bound_leb a b) eqn:Hab; [apply bound_leb_refl|].
  destruct a, b; simpl in *; try done. apply Z.leb_le. apply Z.leb_gt in Hab. lia.
Qed.

Lemma bound_leb_min_r (a b : bound_t) : bound_leb (bound_min a b) b = true.
Proof.
  unfold bound_min. destruct (bound_leb a b) eqn:Hab; [done|apply bound_leb_refl].
Qed.

Lemma bound_leb_max_l (a b : bound_t) : bound_leb a (bound_max a b) = true.
Proof.
  unfold bound_max. destruct (bound_leb a b) eqn:Hab; [done|apply bound_leb_refl].
Qed.

Lemma bound_leb_max_r (a b : bound_t) : bound_leb b (bound_max a b) = true.
Proof.
  unfold bound_max. destruct (bound_leb a b) eqn:Hab; [apply bound_leb_refl|].
  destruct a, b; simpl in *; try done. apply Z.leb_le. apply Z.leb_gt in Hab. lia.
Qed.

Lemma bound_leb_trans (a b c : bound_t) :
  bound_leb a b = true -> bound_leb b c = true -> bound_leb a c = true.
Proof.
  destruct a, b, c; simpl; try done. rewrite !Z.leb_le. lia.
Qed.

End bound_order.

Module interval_facts.

Lemma leq_refl (x : interval_t) : interval.leq x x = true.
Proof.
  unfold interval.leq. destruct (interval.is_bottom x); [done|].
  by rewrite !bound_leb_refl.
Qed.

Lemma leq_top (x : interval_t) : interval.leq x interval.top = true.
Proof.
  unfold interval.leq. destruct (interval.is_bottom x); [done|].
  simpl. by destruct (lb x), (ub x).
Qed.

Lemma is_top_eq (x : interval_t) : interval.is_top x = true -> x = interval.top.
Proof.
  destruct x as [l u]. unfold interval.is_top. simpl.
  rewrite andb_true_iff, !bool_decide_eq_true. by intros [-> ->].
Qed.

Lemma join_not_bottom (x y : interval_t) :
  interval.is_bottom x = false -> interval.is_bottom y = false ->
  interval.is_bottom (interval.join x y) = false.
Proof.
  intros Hx Hy. unfold interval.join. rewrite Hx, Hy.
  unfold interval.is_bottom, bound_ltb in *. simpl.
  apply negb_false_iff. apply negb_false_iff in Hx.
  eapply bound_leb_trans; [apply bound_leb_min_l|].
  eapply bound_leb_trans; [exact Hx|]. apply bound_leb_max_l.
Qed.

Lemma leq_join_l (x y : interval_t) : interval.leq x (interval.join x y) = true.
Proof.
  unfold interval.leq. destruct (interval.is_bottom x) eqn:Hx; [done|].
  destruct (interval.is_bottom y) eqn:Hy.
  - unfold interval.join. rewrite Hx, Hy, Hx. by rewrite !bound_leb_refl.
  - rewrite join_not_bottom by done. unfold interval.join. rewrite Hx, Hy. simpl.
    by rewrite bound_leb_min_l, bound_leb_max_l.
Qed.

Lemma leq_join_r (x y : interval_t) : interval.leq y (interval.join x y) = true.
Proof.
  unfold interval.leq. destruct (interval.is_bottom y) eqn:Hy; [done|].
  destruct (interval.is_bottom x) eqn:Hx.
  - unfold interval.join. rewrite Hx, Hy. by rewrite !bound_leb_refl.
  - rewrite join_not_bottom by done. unfold interval.join. rewrite Hx, Hy. simpl.
    by rewrite bound_leb_min_r, bound_leb_max_r.
Qed.

End interval_facts.

#[global] Instance interval_domain_join : NumDomainJoin interval_domain.interval_domain_t.
Proof.
  split; intros [bx ex] [by_ ey]; simpl;
    unfold interval_domain.leq, interval_domain.join; simpl.
  - destruct bx; [done|]. destruct by_; simpl.
    + apply bool_decide_eq_true. intros k i Hk. simpl. rewrite Hk. simpl.
      apply interval_facts.leq_refl.
    + apply bool_decide_eq_true. intros k i Hk. simpl.
      apply lookup_intersection_with_Some in Hk as (i1 & i2 & H1 & H2 & Hj).
      rewrite H1. simpl. destruct (interval.is_top _); [done|].
      injection Hj as <-. apply interval_facts.leq_join_l.
  - destruct by_.
    + by destruct bx.
    + destruct bx; simpl.
      * apply bool_decide_eq_true. intros k i Hk. simpl. rewrite Hk. simpl.
        apply interval_facts.leq_refl.
      * apply bool_decide_eq_true. intros k i Hk. simpl.
        apply lookup_intersection_with_Some in Hk as (i1 & i2 & H1 & H2 & Hj).
        rewrite H2. simpl. destruct (interval.is_top _); [done|].
        injection Hj as <-. apply interval_facts.leq_join_r.
Qed.

Section smashing_properties.
Context {NumDomain_t : Type} `{!NumDomain NumDomain_t}.
Import array_smashing.

(** The weak update is the join of the state with its strong update. *)
Lemma weak_update_join (a : variable_t) (rhs : linear_expression_t)
    (s : array_smashing_t) :
  weak_update a rhs s = ArraySmashing (d_join (_inv s) (_inv (strong_update a rhs s))).
Proof.
  unfold weak_update, strong_update. f_equal. f_equal.
  repeat (case_decide || case_match); reflexivity.
Qed.

(** C8. array_store with is_singleton is the strong update (the per-type
    assignment of val to a); otherwise it is the weak update, the join of
    the state with the assignment made on a copy, which is above both the
    old state and the strongly updated one. *)
Theorem array_store_strong_or_weak `{!NumDomainJoin NumDomain_t}
    (a : variable_t) (elem_size i val : linear_expression_t) (s : array_smashing_t) :
  array_store a elem_size i val true s = strong_update a val s
  /\ array_store a elem_size i val false s =
       ArraySmashing (d_join (_inv s) (_inv (strong_update a val s)))
  /\ d_leq (_inv s) (_inv (array_store a elem_size i val false s)) = true
  /\ d_leq (_inv (strong_update a val s))
           (_inv (array_store a elem_size i val false s)) = true.
Proof.
  unfold array_store. rewrite weak_update_join. simpl.
  split; [reflexivity|]. split; [reflexivity|].
  split; [apply d_leq_join_l | apply d_leq_join_r].
Qed.

End smashing_properties.

Example smashing_weak_update_scenario :
  d_interval
    (array_smashing._inv
       (array_smashing.array_store smashed_array (exp_of_number 4) (exp_of_number 0)
          (exp_of_number 5) false smashing_after_init))
    smashed_array
  = Interval (finite 0) (finite 5).
Proof. vm_compute. reflexivity. Qed.

Lemma array_store_strong_or_weak_witness :
  let s := smashing_after_init in
  let a := smashed_array in
  let val := exp_of_number 5 in
  array_smashing.array_store a (exp_of_number 4) (exp_of_number 0) val true s
    = array_smashing.strong_update a val s
  /\ array_smashing.array_store a (exp_of_number 4) (exp_of_number 0) val false s =
       array_smashing.ArraySmashing
         (d_join (array_smashing._inv s)
                 (array_smashing._inv (array_smashing.strong_update a val s)))
  /\ d_leq (array_smashing._inv s)
       (array_smashing._inv
          (array_smashing.array_store a (exp_of_number 4) (exp_of_number 0) val false s))
     = true
  /\ d_leq (array_smashing._inv (array_smashing.strong_update a val s))
       (array_smashing._inv
          (array_smashing.array_store a (exp_of_number 4) (exp_of_number 0) val false s))
     = true.
Proof.
  exact (array_store_strong_or_weak smashed_array (exp_of_number 4) (exp_of_number 0)
           (exp_of_number 5) smashing_after_init).
Defined.

(** ** Split octagons *)

Section octagon_properties.
Context `{!GraphOps} `{!Params}.
Import SplitOCT_.

(** C10. widening_thresholds ignores its thresholds: for every threshold
    set it is the plain widening of the same operands. *)
Theorem widening_thresholds_is_widening {Thresholds : Type}
    (s o : OCT_t) (ts : Thresholds) :
  widening_thresholds s o ts = widening s o
  /\ forall (Thresholds' : Type) (ts' : Thresholds'),
       widening_thresholds s o ts' = widening_thresholds s o ts.
Proof. split; reflexivity. Qed.

Lemma vmap_insert_fresh (v : variable_t) (p : vert_id * vert_id) (m : vert_map_t) :
  m !! v = None -> vmap_insert v p m !! v = Some p.
Proof. intros Hv. unfold vmap_insert. rewrite Hv. apply lookup_insert_eq. Qed.

(** C9. When the variable is unmapped and the two vertices handed out by
    the graph satisfy vert_pos > vert_neg, the swap block of get_vert
    leaves both names equal to the smaller identifier: that identifier is
    returned and the variable is bound to a pair of two equal components,
    which is not of the form (v, v + 1). *)
Theorem get_vert_swap_defect (v : variable_t) (s : OCT_t)
    (vert_pos vert_neg : vert_id) (g1 g2 : graph_t) :
  vert_map s !! v = None ->
  graph.new_vertex (graph s) = (vert_pos, g1) ->
  graph.new_vertex g1 = (vert_neg, g2) ->
  (vert_neg < vert_pos)%nat ->
  (get_vert v s).1 = vert_neg
  /\ vert_map (get_vert v s).2 !! v = Some (vert_neg, vert_neg)
  /\ (vert_neg, vert_neg).2 <> ((vert_neg, vert_neg).1 + 1)%nat.
Proof.
  intros Hv Hp Hn Hlt. unfold get_vert. rewrite Hv, Hp, Hn.
  apply Nat.ltb_lt in Hlt. rewrite Hlt.
  repeat case_match; simplify_eq; simpl.
  all: split; [reflexivity|]; split; [by apply vmap_insert_fresh | lia].
Qed.


(** When the selection succeeds the result carries the selected potentials. *)
Lemma meet_feasible (s o : OCT_t) :
  is_bottom s = false -> is_bottom o = false ->
  is_top s = false -> is_top o = false ->
  (GrOps_select_potentials (meet_graph s o) (meet_warm_potentials s o)).1 = true ->
  potential (meet s o).1.1
    = (GrOps_select_potentials (meet_graph s o) (meet_warm_potentials s o)).2
  /\ is_bottom (meet s o).1.1 = false.
Proof.
  unfold meet_graph, meet_warm_potentials, meet.
  intros Hs Ho Hts Hto. rewrite Hs, Ho, Hts, Hto. simpl.
  destruct (GrOps_meet _ _) as [mg closed]. simpl.
  destruct (GrOps_select_potentials mg _) as [sel pi]. simpl.
  intros ->. simpl. split; reflexivity.
Qed.

(** C3. A meet with a bottom operand is bottom. For two operands that are
    neither bottom nor top the potentials are selected on the meet of the
    permuted graphs of the normalized operands, warm-started with the
    operands' potentials, and when that selection fails (a negative cycle)
    the meet is bottom. *)
Theorem meet_bottom_or_infeasible (s o : OCT_t) :
  is_bottom s = true \/ is_bottom o = true
  \/ (is_top s = false /\ is_top o = false
      /\ (GrOps_select_potentials (meet_graph s o) (meet_warm_potentials s o)).1 = false) ->
  (meet s o).1.1 = bottom.
Proof.
  unfold meet_graph, meet_warm_potentials, meet.
  destruct (GrOps_meet _ _) as [mg closed]. simpl.
  destruct (GrOps_select_potentials mg _) as [sel pi]. simpl.
  intros [Hs|[Ho|(Hts & Hto & Hsel)]].
  - by rewrite Hs.
  - rewrite Ho. by rewrite orb_true_r.
  - destruct (is_bottom s || is_bottom o); [reflexivity|].
    rewrite Hts, Hto. subst sel. reflexivity.
Qed.

















End octagon_properties.

Lemma coherentb_spec (g : graph_t) : coherentb g = true <-> coherent g.
Proof.
  unfold coherentb, coherent, graph.lookup. rewrite forallb_forall. split.
  - intros Hall u v w Huv Hl.
    specialize (Hall ((u, v), w)). cbn [fst snd] in Hall.
    rewrite <- list_elem_of_In, elem_of_map_to_list in Hall. specialize (Hall Hl).
    apply orb_true_iff in Hall as [Heq|Hm].
    + by apply Nat.eqb_eq in Heq.
    + by apply bool_decide_eq_true in Hm.
  - intros Hc [[u v] w] Hin. cbn [fst snd].
    apply list_elem_of_In, elem_of_map_to_list in Hin.
    destruct (u / 2 =? v / 2)%nat eqn:Huv; [reflexivity|]. cbn [orb].
    apply bool_decide_eq_true. apply Hc; [|done]. by apply Nat.eqb_neq.
Qed.


(** ** Concrete runs of the split octagon

    The runs use the graph algorithms modelled from their descriptions and
    the default parameters. *)

(** Setting a variable twice runs into the swap of get_vert: the second
    set binds x to the pair (0, 0). *)
Example set_twice_binds_equal_pair :
  SplitOCT_.vert_map
    (@SplitOCT_.set graph_ops.spec_graph_ops DefaultParams oct_x
       (Interval (finite 2) (finite 5)) oct_x_is_1) !! oct_x
  = Some (0%nat, 0%nat).
Proof. vm_compute. reflexivity. Qed.

Lemma get_vert_swap_defect_witness :
  SplitOCT_.vert_map oct_x_forgotten !! oct_x = None
  /\ (graph.new_vertex (SplitOCT_.graph oct_x_forgotten)).1 = 1%nat
  /\ (graph.new_vertex (graph.new_vertex (SplitOCT_.graph oct_x_forgotten)).2).1 = 0%nat
  /\ (SplitOCT_.get_vert oct_x oct_x_forgotten).1 = 0%nat
  /\ SplitOCT_.vert_map (SplitOCT_.get_vert oct_x oct_x_forgotten).2 !! oct_x
     = Some (0%nat, 0%nat).
Proof.
  split; [vm_compute; reflexivity|].
  split; [vm_compute; reflexivity|].
  split; [vm_compute; reflexivity|].
  pose proof (get_vert_swap_defect oct_x oct_x_forgotten 1 0
    (graph.new_vertex (SplitOCT_.graph oct_x_forgotten)).2
    (graph.new_vertex (graph.new_vertex (SplitOCT_.graph oct_x_forgotten)).2).2) as Hd.
  destruct Hd as (H1 & H2 & _).
  - vm_compute. reflexivity.
  - vm_compute. reflexivity.
  - vm_compute. reflexivity.
  - lia.
  - split; assumption.
Defined.


(** The run x = 1, x = [2, 5] does not depend on the graph algorithms or on
    the parameters: no vertex is unstable on the way. *)
Lemma oct_x_set_twice_any_graph_ops (G : GraphOps) (P : Params) :
  @SplitOCT_.set G P oct_x (Interval (finite 2) (finite 5))
    (@SplitOCT_.set G P oct_x (Interval (finite 1) (finite 1)) SplitOCT_.top)
  = oct_x_set_twice.
Proof. vm_compute. reflexivity. Qed.


Lemma meet_bottom_or_infeasible_witness :
  (SplitOCT_.is_top oct_x_le_0 = false /\ SplitOCT_.is_top oct_x_ge_1 = false
   /\ (@GrOps_select_potentials graph_ops.spec_graph_ops
         (@meet_graph graph_ops.spec_graph_ops DefaultParams oct_x_le_0 oct_x_ge_1)
         (@meet_warm_potentials graph_ops.spec_graph_ops DefaultParams oct_x_le_0 oct_x_ge_1)).1
      = false)
  /\ (@SplitOCT_.meet graph_ops.spec_graph_ops DefaultParams oct_x_le_0 oct_x_ge_1).1.1
     = SplitOCT_.bottom
  /\ (@SplitOCT_.meet graph_ops.spec_graph_ops DefaultParams SplitOCT_.bottom oct_x_ge_1).1.1
     = SplitOCT_.bottom.
Proof.
  assert (Hh : SplitOCT_.is_top oct_x_le_0 = false /\ SplitOCT_.is_top oct_x_ge_1 = false
   /\ (@GrOps_select_potentials graph_ops.spec_graph_ops
         (@meet_graph graph_ops.spec_graph_ops DefaultParams oct_x_le_0 oct_x_ge_1)
         (@meet_warm_potentials graph_ops.spec_graph_ops DefaultParams oct_x_le_0 oct_x_ge_1)).1
      = false).
  { repeat split; vm_compute; reflexivity. }
  split; [exact Hh|]. split.
  - apply (@meet_bottom_or_infeasible graph_ops.spec_graph_ops DefaultParams).
    right. right. exact Hh.
  - apply (@meet_bottom_or_infeasible graph_ops.spec_graph_ops DefaultParams).
    left. reflexivity.
Defined.


Section expansion_properties.
Context {NumDomain_t : Type} `{!NumDomain NumDomain_t}.
Import array_expansion.
Local Abbreviation state_t := (@array_expansion_domain_t NumDomain_t).

Lemma array_init_loop_stores (a : variable_t) (elem_size val : linear_expression_t)
    (e n : number_t) (count : nat) :
  0 < n ->
  forall (fuel : nat) (i : number_t) (s : state_t) (g : globals_t),
    e - i = Z.of_nat count * n ->
    (count <= fuel)%nat ->
    array_init_loop fuel a elem_size i e n val s g
      = store_each a elem_size val (offsets_from count i n) s g.
Proof.
  intros Hn. induction count as [|count IH]; intros fuel i s g He Hfuel.
  - assert (i = e) by lia. subst i. destruct fuel; simpl; rewrite Z.ltb_irrefl; reflexivity.
  - destruct fuel as [|fuel]; [lia|]. simpl.
    assert (Hlt : (i <? e) = true) by (apply Z.ltb_lt; nia). rewrite Hlt.
    destruct (array_store a elem_size (exp_of_number i) val false s g) as [[s' g']| |];
      simpl; [|reflexivity|reflexivity].
    apply IH; lia.
Qed.

Lemma array_init_loop_empty (fuel : nat) (a : variable_t)
    (elem_size val : linear_expression_t) (i e n : number_t)
    (s : state_t) (g : globals_t) :
  e <= i -> array_init_loop fuel a elem_size i e n val s g = Done (s, g).
Proof.
  intros Hle. assert (Hlt : (i <? e) = false) by (apply Z.ltb_ge; lia).
  destruct fuel; simpl; rewrite Hlt; reflexivity.
Qed.

Lemma array_init_loop_never_returns (a : variable_t)
    (elem_size val : linear_expression_t) (e n : number_t) :
  n < 0 ->
  forall (fuel : nat) (i : number_t) (s : state_t) (g : globals_t),
    i < e ->
    forall r, array_init_loop fuel a elem_size i e n val s g <> Done r.
Proof.
  intros Hn. induction fuel as [|fuel IH]; intros i s g Hlt r; simpl;
    (assert (Hb : (i <? e) = true) by (apply Z.ltb_lt; lia)); rewrite Hb; [done|].
  destruct (array_store a elem_size (exp_of_number i) val false s g) as [[s' g']| |];
    simpl; [|done|done].
  apply IH. lia.
Qed.

(** C7 (as the code has it). array_init returns at once, without a
    warning, on a bottom or top state. Otherwise lb, ub and elem_size must
    be singleton constants, elem_size must not be zero (the remainder traps),
    (ub - lb) must be divisible by elem_size and at most 512: when a
    condition fails the init warns and leaves the state unchanged. When all
    hold and elem_size is positive, init is the sequence of stores of val
    at lb, lb + elem_size, ..., ub - elem_size. With a negative elem_size
    the loop does nothing when ub <= lb and never returns when lb < ub. *)
Theorem array_init_guarded_stores (fuel : nat) (a : variable_t)
    (elem_size lb_idx ub_idx val : linear_expression_t)
    (s : state_t) (g : globals_t) :
  (512 <= fuel)%nat ->
  if is_bottom s || is_top s then
    (array_init fuel a elem_size lb_idx ub_idx val s g = Done (s, g))
  else
    match interval.singleton (to_interval lb_idx s),
          interval.singleton (to_interval ub_idx s),
          interval.singleton (to_interval elem_size s) with
    | Some lb, Some ub, Some n =>
        if n =? 0 then
          (array_init fuel a elem_size lb_idx ub_idx val s g = Abort "division by zero")
        else if negb (Z.rem (ub - lb) n =? 0) || (512 <? ub - lb) then
          exists msg, array_init fuel a elem_size lb_idx ub_idx val s g
                        = Done (s, CRAB_WARN msg g)
        else if 0 <? n then
          (array_init fuel a elem_size lb_idx ub_idx val s g
             = store_each a elem_size val (init_offsets lb ub n) s g)
        else if lb <? ub then
          forall r, array_init fuel a elem_size lb_idx ub_idx val s g <> Done r
        else (array_init fuel a elem_size lb_idx ub_idx val s g = Done (s, g))
    | _, _, _ =>
        exists msg, array_init fuel a elem_size lb_idx ub_idx val s g
                      = Done (s, CRAB_WARN msg g)
    end.
Proof.
  intros Hfuel. unfold array_init.
  destruct (is_bottom s || is_top s); [reflexivity|].
  destruct (interval.singleton (to_interval lb_idx s)) as [lb|]; [|by eexists].
  destruct (interval.singleton (to_interval ub_idx s)) as [ub|]; [|by eexists].
  destruct (interval.singleton (to_interval elem_size s)) as [n|]; [|by eexists].
  destruct (n =? 0) eqn:Hn0; [reflexivity|].
  destruct (negb (Z.rem (ub - lb) n =? 0)) eqn:Hrem; simpl; [by eexists|].
  unfold max_num_elems.
  destruct (512 <? ub - lb) eqn:Hmax; [by eexists|].
  destruct (0 <? n) eqn:Hpos.
  2:{ apply Z.ltb_ge in Hpos. apply Z.eqb_neq in Hn0.
      destruct (lb <? ub) eqn:Hlt.
      - apply Z.ltb_lt in Hlt. apply array_init_loop_never_returns; lia.
      - apply Z.ltb_ge in Hlt. by apply array_init_loop_empty. }
  apply Z.ltb_lt in Hpos. apply Z.ltb_ge in Hmax.
  apply negb_false_iff, Z.eqb_eq in Hrem.
  unfold init_offsets.
  destruct (Z_le_gt_dec ub lb) as [Hle|Hgt].
  - rewrite array_init_loop_empty by done.
    replace (Z.to_nat ((ub - lb) / n)) with 0%nat; [reflexivity|].
    assert ((ub - lb) / n <= 0) by (apply Z.div_le_upper_bound; lia). lia.
  - apply array_init_loop_stores; [done| |].
    + apply Z.rem_divide in Hrem; [|lia]. destruct Hrem as [q Hq].
      rewrite Hq. rewrite Z.div_mul by lia. 
      assert (0 <= q) by nia. lia.
    + assert ((ub - lb) / n <= 512).
      { apply Z.div_le_upper_bound; [lia|]. nia. }
      lia.
Qed.

(** The three ways in which array_load gives up. *)
Lemma array_load_nonconstant_index (lhs a : variable_t)
    (elem_size i : linear_expression_t) (s : state_t) (g : globals_t) :
  is_bottom s = false -> is_top s = false ->
  interval.singleton (to_interval i s) = None ->
  array_load lhs a elem_size i s g
    = Done (forget_scalar lhs s,
            CRAB_WARN
              [W_str "array expansion: ignored read because of non-constant array index ";
               W_exp i] g).
Proof.
  intros Hb Ht Hi. unfold array_load. by rewrite Hb, Ht, Hi.
Qed.

Lemma array_load_overlap (lhs a : variable_t)
    (elem_size i : linear_expression_t) (s : state_t) (g : globals_t)
    (n n_bytes : number_t) (c : cell_t) (cells : list cell_t) (m : offset_map_t) :
  is_bottom s = false -> is_top s = false ->
  interval.singleton (to_interval i s) = Some n ->
  interval.singleton (to_interval elem_size s) = Some n_bytes ->
  offset_map.get_overlap_cells n n_bytes [] (separate_domain_get a (_array_map s))
    = Done (c :: cells, m) ->
  array_load lhs a elem_size i s g
    = Done (forget_scalar lhs s,
            CRAB_WARN
              [W_str "array expansion ignored read from cell [";
               W_index n; W_str "..."; W_index (n + n_bytes - 1); W_str "]";
               W_str " because it overlaps with other cells."] g).
Proof.
  intros Hb Ht Hi He Hov. unfold array_load. rewrite Hb, Ht, Hi, He. simpl.
  by rewrite Hov.
Qed.

(** With a constant index and a non-constant element size the load
    returns after the warning: the state, lhs included, is unchanged. *)
Lemma array_load_nonconstant_size (lhs a : variable_t)
    (elem_size i : linear_expression_t) (s : state_t) (g : globals_t) (n : number_t) :
  is_bottom s = false -> is_top s = false ->
  interval.singleton (to_interval i s) = Some n ->
  interval.singleton (to_interval elem_size s) = None ->
  array_load lhs a elem_size i s g
    = Done (s, CRAB_WARN
                 "array expansion ignored array load because element size is not constant" g).
Proof.
  intros Hb Ht Hi He. unfold array_load. by rewrite Hb, Ht, Hi, He.
Qed.

End expansion_properties.

(** ** Concrete runs of the array expansion domain over intervals *)

(** C6 (the code departs from it). The state binds x to [1, 1] and the
    element size n to [4, 8]; it is neither bottom nor top. The load
    x := a[0] with element size n logs the warning and returns the state
    unchanged: x still has the interval [1, 1], where forgetting x would
    leave top. *)
Theorem array_load_nonconstant_size_keeps_lhs :
  array_expansion.is_bottom exp_x1_n48 = false
  /\ array_expansion.is_top exp_x1_n48 = false
  /\ interval.singleton
       (array_expansion.to_interval (exp_of_number 0) exp_x1_n48) = Some 0
  /\ interval.singleton
       (array_expansion.to_interval (exp_of_variable exp_n) exp_x1_n48) = None
  /\ array_expansion.array_load exp_x exp_a (exp_of_variable exp_n) (exp_of_number 0)
       exp_x1_n48 no_globals
     = Done (exp_x1_n48,
             array_expansion.CRAB_WARN
               "array expansion ignored array load because element size is not constant"
               no_globals)
  /\ d_interval (array_expansion._inv exp_x1_n48) exp_x = Interval (finite 1) (finite 1)
  /\ d_interval
       (array_expansion._inv (array_expansion.forget_scalar exp_x exp_x1_n48)) exp_x
     = interval.top.
Proof. repeat split; vm_compute; reflexivity. Qed.

(** On the top state array_init(a, 4, 0, 16, 0) passes every stated check
    and still stores nothing and warns nothing: the state stays top,
    whereas the four stores bind the cell at offset 8 to [0, 0]. *)
Lemma array_init_skips_top_state :
  array_expansion.is_top (NumDomain_t := interval_domain.interval_domain_t)
    array_expansion.top = true
  /\ array_expansion.array_init 512 exp_a (exp_of_number 4) (exp_of_number 0)
       (exp_of_number 16) (exp_of_number 0) array_expansion.top no_globals
     = Done (array_expansion.top, no_globals)
  /\ (exists s' g',
        store_each exp_a (exp_of_number 4) (exp_of_number 0) (init_offsets 0 16 4)
          array_expansion.top no_globals = Done (s', g')
        /\ d_interval (array_expansion._inv s') (Variable_ (Shadow 2) INT_TYPE 4)
           = Interval (finite 0) (finite 0))
  /\ d_interval
       (array_expansion._inv
          (array_expansion.top (NumDomain_t := interval_domain.interval_domain_t)))
       (Variable_ (Shadow 2) INT_TYPE 4)
     = interval.top.
Proof.
  split; [vm_compute; reflexivity|].
  split; [vm_compute; reflexivity|].
  split; [|vm_compute; reflexivity].
  eexists _, _. split; vm_compute; reflexivity.
Qed.

Lemma array_init_guarded_stores_witness :
  (512 <= 512)%nat
  /\ array_expansion.array_init 512 exp_a (exp_of_number 4) (exp_of_number 0)
       (exp_of_number 16) (exp_of_number 0) exp_x1_n48 no_globals
     = store_each exp_a (exp_of_number 4) (exp_of_number 0) [0; 4; 8; 12]
         exp_x1_n48 no_globals.
Proof.
  split; [lia|].
  pose proof (array_init_guarded_stores 512 exp_a (exp_of_number 4) (exp_of_number 0)
                (exp_of_number 16) (exp_of_number 0) exp_x1_n48 no_globals
                (le_n 512)) as Hspec.
  vm_compute in Hspec. vm_compute. exact Hspec.
Defined.

(** ** Store followed by load in the array expansion domain *)

Section expansion_store_load.
Import array_expansion.

Section patricia_facts.
Implicit Types (m : list (Z * list cell_t)) (o k : Z) (b v : list cell_t).

Lemma filter_all {A} (P : A -> Prop) `{!forall x, Decision (P x)} (l : list A) :
  Forall P l -> filter P l = l.
Proof.
  induction 1 as [|x l Hx Hl IH]; [done|].
  rewrite filter_cons_True by done. by rewrite IH.
Qed.

Lemma filter_none {A} (P : A -> Prop) `{!forall x, Decision (P x)} (l : list A) :
  Forall (fun x => ~ P x) l -> filter P l = [].
Proof.
  induction 1 as [|x l Hx Hl IH]; [done|].
  by rewrite filter_cons_False by done.
Qed.

Lemma keys_sorted_cons k b m :
  keys_sorted ((k, b) :: m) -> keys_sorted m /\ Forall (fun kv => k < kv.1) m.
Proof.
  unfold keys_sorted. rewrite fmap_cons. intros Hs.
  apply StronglySorted_inv in Hs as [Hs Hall].
  split; [done|]. rewrite Forall_fmap in Hall.
  eapply Forall_impl; [exact Hall|]. by intros [].
Qed.

Lemma lookup_above o m :
  Forall (fun kv => o < kv.1) m -> patricia_tree.lookup o m = None.
Proof.
  induction 1 as [|[k b] m Hk Hm IH]; [done|]. simpl in *.
  destruct (k =? o) eqn:E; [apply Z.eqb_eq in E; lia|done].
Qed.

Lemma split3 o m :
  keys_sorted m -> m = lows o m ++ mid o m ++ highs o m.
Proof.
  unfold lows, highs, mid. induction m as [|[k b] m IH]; intros Hs; [done|].
  apply keys_sorted_cons in Hs as [Hs Hall]. specialize (IH Hs). simpl.
  destruct (Z.lt_trichotomy k o) as [Hlt|[->|Hgt]].
  - rewrite filter_cons_True by done. rewrite (filter_cons_False _ _ m) by (simpl; lia).
    destruct (k =? o) eqn:E; [apply Z.eqb_eq in E; lia|]. simpl. by f_equal.
  - rewrite Z.eqb_refl. rewrite !filter_cons_False by (simpl; lia).
    rewrite (filter_none (fun kv => kv.1 < o)).
    2:{ eapply Forall_impl; [exact Hall|]. simpl. intros; lia. }
    rewrite (filter_all (fun kv => o < kv.1)) by done. done.
  - rewrite filter_cons_False by (simpl; lia). rewrite filter_cons_True by done.
    destruct (k =? o) eqn:E; [apply Z.eqb_eq in E; lia|].
    rewrite (filter_none (fun kv => kv.1 < o)).
    2:{ eapply Forall_impl; [exact Hall|]. simpl. intros; lia. }
    rewrite lookup_above.
    2:{ eapply Forall_impl; [exact Hall|]. simpl. intros; lia. }
    rewrite (filter_all (fun kv => o < kv.1)).
    2:{ eapply Forall_impl; [exact Hall|]. simpl. intros; lia. }
    done.
Qed.

Lemma lower_bound_lows o m :
  keys_sorted m -> offset_map.lower_bound o m = length (lows o m).
Proof.
  unfold lows. induction m as [|[k b] m IH]; intros Hs; [done|].
  apply keys_sorted_cons in Hs as [Hs Hall]. simpl.
  destruct (k <? o) eqn:E.
  - apply Z.ltb_lt in E. rewrite filter_cons_True by done. simpl. by rewrite IH.
  - apply Z.ltb_ge in E. rewrite filter_cons_False by (simpl; lia).
    rewrite filter_none; [done|].
    eapply Forall_impl; [exact Hall|]. simpl. intros; lia.
Qed.

Lemma upper_bound_lows o m :
  keys_sorted m -> offset_map.upper_bound o m = length (lows o m ++ mid o m).
Proof.
  unfold lows, mid. induction m as [|[k b] m IH]; intros Hs; [done|].
  apply keys_sorted_cons in Hs as [Hs Hall]. simpl.
  destruct (k <=? o) eqn:E.
  - apply Z.leb_le in E. rewrite IH by done.
    destruct (k =? o) eqn:E2.
    + apply Z.eqb_eq in E2. subst k. rewrite filter_cons_False by (simpl; lia).
      rewrite filter_none.
      2:{ eapply Forall_impl; [exact Hall|]. simpl. intros; lia. }
      rewrite lookup_above by done. done.
    + apply Z.eqb_neq in E2. rewrite filter_cons_True by (simpl; lia). done.
  - apply Z.leb_gt in E. rewrite filter_cons_False by (simpl; lia).
    destruct (k =? o) eqn:E2; [apply Z.eqb_eq in E2; lia|].
    rewrite filter_none.
    2:{ eapply Forall_impl; [exact Hall|]. simpl. intros; lia. }
    rewrite lookup_above; [done|].
    eapply Forall_impl; [exact Hall|]. simpl. intros; lia.
Qed.

Lemma insert_normal_form o v m :
  keys_sorted m -> patricia_tree.insert o v m = lows o m ++ (o, v) :: highs o m.
Proof.
  unfold lows, highs. induction m as [|[k b] m IH]; intros Hs; [done|].
  apply keys_sorted_cons in Hs as [Hs Hall]. simpl.
  destruct (o =? k) eqn:E.
  - apply Z.eqb_eq in E. subst k. rewrite !filter_cons_False by (simpl; lia).
    rewrite filter_none.
    2:{ eapply Forall_impl; [exact Hall|]. simpl. intros; lia. }
    by rewrite filter_all.
  - apply Z.eqb_neq in E. destruct (o <? k) eqn:E2.
    + apply Z.ltb_lt in E2. rewrite filter_cons_False by (simpl; lia).
      rewrite filter_cons_True by done.
      rewrite filter_none.
      2:{ eapply Forall_impl; [exact Hall|]. simpl. intros; lia. }
      rewrite filter_all; [done|].
      eapply Forall_impl; [exact Hall|]. simpl. intros; lia.
    + apply Z.ltb_ge in E2. rewrite filter_cons_True by (simpl; lia).
      rewrite filter_cons_False by (simpl; lia). simpl. by rewrite IH.
Qed.

Lemma remove_normal_form o m :
  keys_sorted m -> patricia_tree.remove o m = lows o m ++ highs o m.
Proof.
  unfold lows, highs. induction m as [|[k b] m IH]; intros Hs; [done|].
  apply keys_sorted_cons in Hs as [Hs Hall]. simpl.
  destruct (k =? o) eqn:E.
  - apply Z.eqb_eq in E. subst k. rewrite !filter_cons_False by (simpl; lia).
    rewrite filter_none.
    2:{ eapply Forall_impl; [exact Hall|]. simpl. intros; lia. }
    by rewrite filter_all.
  - apply Z.eqb_neq in E. destruct (Z.lt_trichotomy k o) as [Hlt|[->|Hgt]]; [|done|].
    + rewrite filter_cons_True by done. rewrite filter_cons_False by (simpl; lia).
      simpl. by rewrite IH.
    + rewrite filter_cons_False by (simpl; lia). rewrite filter_cons_True by done.
      rewrite IH by done.
      rewrite filter_none; [done|].
      eapply Forall_impl; [exact Hall|]. simpl. intros; lia.
Qed.

End patricia_facts.

(** Cells and buckets *)

Section cell_facts.
Implicit Types (x y c : cell_t) (b : list cell_t) (o k size : Z).

Lemma cell_eqb_spec x y :
  cell.eqb x y = true <-> _offset x = _offset y /\ _size x = _size y.
Proof.
  unfold cell.eqb, cell.get_offset, cell.get_size.
  rewrite andb_true_iff, !Z.eqb_eq. done.
Qed.

Lemma cell_eqb_sym x y : cell.eqb x y = cell.eqb y x.
Proof.
  unfold cell.eqb, cell.get_offset, cell.get_size.
  by rewrite (Z.eqb_sym (_offset x)), (Z.eqb_sym (_size x)).
Qed.

Lemma cell_eqb_key x c c' :
  _offset c = _offset c' -> _size c = _size c' -> cell.eqb x c = cell.eqb x c'.
Proof.
  intros Ho Hs. unfold cell.eqb, cell.get_offset, cell.get_size. by rewrite Ho, Hs.
Qed.

Lemma cell_overlap_key x y o size :
  cell.eqb x y = true -> cell.overlap x o size = cell.overlap y o size.
Proof.
  intros [Ho Hs]%cell_eqb_spec.
  unfold cell.overlap, cell.get_offset, cell.get_size. by rewrite Ho, Hs.
Qed.

Ltac leb_cases :=
  repeat match goal with
         | |- context [?a <=? ?b] =>
             let E := fresh "E" in
             destruct (a <=? b) eqn:E;
             [apply Z.leb_le in E | apply Z.leb_gt in E]; simpl
         end.

Lemma cell_overlap_self c o size :
  0 < size -> _offset c = o -> _size c = size -> cell.overlap c o size = true.
Proof.
  intros Hs Ho Hsz. unfold cell.overlap, cell.get_offset, cell.get_size.
  rewrite Ho, Hsz.
  unfold cell.to_interval, interval.meet, interval.is_bottom, interval.make,
    bound_ltb, bound_max, bound_min, bound_leb; simpl.
  leb_cases; try done; lia.
Qed.

Lemma find_Some c b x :
  cell_set.find c b = Some x -> x ∈ b /\ cell.eqb x c = true.
Proof.
  induction b as [|y b IH]; simpl; [done|].
  destruct (cell.eqb y c) eqn:E.
  - intros [= <-]. split; [left|done].
  - intros H. destruct (IH H). split; [by right|done].
Qed.

Lemma find_None c b :
  cell_set.find c b = None <-> forall x, x ∈ b -> cell.eqb x c = false.
Proof.
  induction b as [|y b IH]; simpl.
  - split; [|done]. intros _ x Hx. by apply elem_of_nil in Hx.
  - destruct (cell.eqb y c) eqn:E.
    + split; [done|]. intros H. specialize (H y (list_elem_of_here _ _)). congruence.
    + rewrite IH. split.
      * intros H x [->|Hx]%elem_of_cons; auto.
      * intros H x Hx. apply H. by right.
Qed.

End cell_facts.

Section bucket_facts.
Implicit Types (x y c : cell_t) (b : list cell_t) (o k size : Z).

Lemma bucket_sorted_cons k y b :
  Forall (fun x => _offset x = k) (y :: b) ->
  StronglySorted Z.lt (_size <$> (y :: b)) ->
  _offset y = k /\ Forall (fun x => _offset x = k) b
  /\ StronglySorted Z.lt (_size <$> b)
  /\ Forall (fun x => _size y < _size x) b.
Proof.
  intros Ho Hs. apply Forall_cons in Ho as [Hy Ho].
  rewrite fmap_cons in Hs. apply StronglySorted_inv in Hs as [Hs Hall].
  rewrite Forall_fmap in Hall. done.
Qed.

Lemma erase_filter k c b :
  Forall (fun x => _offset x = k) b ->
  StronglySorted Z.lt (_size <$> b) ->
  cell_set.erase c b
    = (filter (fun x => cell.eqb x c = false) b, existsb (fun x => cell.eqb x c) b).
Proof.
  induction b as [|y b IH]; intros Ho Hs; [done|].
  destruct (bucket_sorted_cons k y b Ho Hs) as (Hy & Ho' & Hs' & Hlt).
  simpl. destruct (cell.eqb y c) eqn:E.
  - rewrite filter_cons_False by congruence. simpl.
    rewrite filter_all; [done|].
    apply cell_eqb_spec in E as [_ E].
    eapply Forall_impl; [exact Hlt|]. intros x Hx. simpl in Hx.
    destruct (cell.eqb x c) eqn:E2; [|done].
    apply cell_eqb_spec in E2 as [_ E2]. lia.
  - rewrite filter_cons_True by done. rewrite IH by done. done.
Qed.

Lemma insert_present k c b x :
  Forall (fun x => _offset x = k) b ->
  StronglySorted Z.lt (_size <$> b) ->
  x ∈ b -> cell.eqb x c = true -> cell_set.insert c b = (b, false).
Proof.
  induction b as [|y b IH]; intros Ho Hs Hin He.
  - by apply elem_of_nil in Hin.
  - destruct (bucket_sorted_cons k y b Ho Hs) as (Hy & Ho' & Hs' & Hlt).
    simpl. destruct (cell.eqb y c) eqn:E; [done|].
    apply elem_of_cons in Hin as [->|Hin]; [congruence|].
    destruct (cell.ltb c y) eqn:Hc.
    + exfalso. unfold cell.ltb, cell.get_offset, cell.get_size in Hc.
      apply cell_eqb_spec in He as [He1 He2].
      rewrite Forall_forall in Ho', Hlt.
      specialize (Ho' x Hin). specialize (Hlt x Hin).
      assert (_offset c = _offset y) by congruence.
      destruct (_offset c <? _offset y) eqn:E1; [apply Z.ltb_lt in E1; lia|].
      destruct (_offset c =? _offset y); [|done].
      apply Z.ltb_lt in Hc. lia.
    + by rewrite IH.
Qed.

Lemma insert_fresh k c b :
  Forall (fun x => _offset x = k) b ->
  StronglySorted Z.lt (_size <$> b) ->
  _offset c = k ->
  (forall x, x ∈ b -> cell.eqb x c = false) ->
  exists b', cell_set.insert c b = (b', true)
    /\ b' ≡ₚ c :: b
    /\ StronglySorted Z.lt (_size <$> b').
Proof.
  induction b as [|y b IH]; intros Ho Hs Hc Hf.
  - exists [c]. repeat split; try done. simpl. repeat constructor.
  - destruct (bucket_sorted_cons k y b Ho Hs) as (Hy & Ho' & Hs' & Hlt).
    simpl. rewrite (Hf y) by left.
    assert (Hne : _size c <> _size y).
    { intros Heq. specialize (Hf y (list_elem_of_here _ _)).
      assert (cell.eqb y c = true); [|congruence].
      apply cell_eqb_spec. split; congruence. }
    unfold cell.ltb, cell.get_offset, cell.get_size.
    rewrite Hc, Hy, Z.ltb_irrefl, Z.eqb_refl.
    destruct (_size c <? _size y) eqn:E.
    + apply Z.ltb_lt in E. exists (c :: y :: b). repeat split; try done.
      rewrite fmap_cons. constructor; [done|].
      rewrite fmap_cons. constructor; [done|].
      rewrite Forall_fmap. eapply Forall_impl; [exact Hlt|]. simpl. intros; lia.
    + apply Z.ltb_ge in E.
      destruct (IH Ho' Hs' Hc) as (b' & -> & Hp & Hs'').
      { intros x Hx. apply Hf. by right. }
      exists (y :: b'). repeat split; [by rewrite Hp; apply Permutation_swap|].
      rewrite fmap_cons. constructor; [done|].
      rewrite Forall_fmap. apply Forall_forall. intros x Hx.
      rewrite Hp in Hx. apply elem_of_cons in Hx as [->|Hx]; simpl; [lia|].
      rewrite Forall_forall in Hlt. by apply Hlt.
Qed.

End bucket_facts.

Section normal_forms.
Implicit Types (m L H : list (Z * list cell_t)) (o k : Z) (b v : list cell_t).

Lemma lows_below o m : below o (lows o m).
Proof.
  apply Forall_forall. intros kv Hin. by apply list_elem_of_filter in Hin as [? _].
Qed.

Lemma highs_above o m : above o (highs o m).
Proof.
  apply Forall_forall. intros kv Hin. by apply list_elem_of_filter in Hin as [? _].
Qed.

Lemma lookup_below_app o L m :
  below o L -> patricia_tree.lookup o (L ++ m) = patricia_tree.lookup o m.
Proof.
  induction 1 as [|[k b] L Hk HL IH]; [done|]. simpl in *.
  destruct (k =? o) eqn:E; [apply Z.eqb_eq in E; lia|done].
Qed.

Lemma lows_with_mid o L H v :
  below o L -> above o H -> lows o (L ++ (o, v) :: H) = L.
Proof.
  intros HL HH. unfold lows. rewrite filter_app, filter_cons_False by (simpl; lia).
  rewrite filter_all by done. rewrite filter_none; [by rewrite app_nil_r|].
  eapply Forall_impl; [exact HH|]. simpl. intros; lia.
Qed.

Lemma highs_with_mid o L H v :
  below o L -> above o H -> highs o (L ++ (o, v) :: H) = H.
Proof.
  intros HL HH. unfold highs. rewrite filter_app, filter_cons_False by (simpl; lia).
  rewrite (filter_all _ H) by done. rewrite filter_none; [done|].
  eapply Forall_impl; [exact HL|]. simpl. intros; lia.
Qed.

Lemma lookup_with_mid o L H v :
  below o L -> patricia_tree.lookup o (L ++ (o, v) :: H) = Some v.
Proof. intros HL. rewrite lookup_below_app by done. simpl. by rewrite Z.eqb_refl. Qed.

Lemma lows_without_mid o L H : below o L -> above o H -> lows o (L ++ H) = L.
Proof.
  intros HL HH. unfold lows. rewrite filter_app, filter_all by done.
  rewrite filter_none; [by rewrite app_nil_r|].
  eapply Forall_impl; [exact HH|]. simpl. intros; lia.
Qed.

Lemma highs_without_mid o L H : below o L -> above o H -> highs o (L ++ H) = H.
Proof.
  intros HL HH. unfold highs. rewrite filter_app, (filter_all _ H) by done.
  rewrite filter_none; [done|].
  eapply Forall_impl; [exact HL|]. simpl. intros; lia.
Qed.

Lemma lookup_without_mid o L H :
  below o L -> above o H -> patricia_tree.lookup o (L ++ H) = None.
Proof. intros HL HH. rewrite lookup_below_app by done. by apply lookup_above. Qed.

Lemma split_with_mid o m b :
  keys_sorted m -> patricia_tree.lookup o m = Some b ->
  m = lows o m ++ (o, b) :: highs o m.
Proof. intros Hs Hl. rewrite (split3 o m Hs) at 1. unfold mid. by rewrite Hl. Qed.

Lemma split_without_mid o m :
  keys_sorted m -> patricia_tree.lookup o m = None -> m = lows o m ++ highs o m.
Proof. intros Hs Hl. rewrite (split3 o m Hs) at 1. unfold mid. by rewrite Hl. Qed.

Lemma keys_sorted_with_mid o L H v :
  keys_sorted L -> keys_sorted H -> below o L -> above o H ->
  keys_sorted (L ++ (o, v) :: H).
Proof.
  unfold keys_sorted, below, above. intros HsL HsH HL HH.
  rewrite fmap_app, fmap_cons. apply StronglySorted_app. split; [|split; [done|]].
  - intros x1 x2 Hx1 Hx2. apply list_elem_of_fmap in Hx1 as (kv1 & -> & Hin1).
    rewrite Forall_forall in HL. specialize (HL kv1 Hin1).
    apply elem_of_cons in Hx2 as [->|Hx2]; [done|].
    apply list_elem_of_fmap in Hx2 as (kv2 & -> & Hin2).
    rewrite Forall_forall in HH. specialize (HH kv2 Hin2). simpl in *. lia.
  - constructor; [done|]. by rewrite Forall_fmap.
Qed.

Lemma keys_sorted_lows o m : keys_sorted m -> keys_sorted (lows o m).
Proof.
  intros Hs. pose proof Hs as Hs'. rewrite (split3 o m Hs) in Hs'.
  unfold keys_sorted in Hs'. rewrite fmap_app in Hs'.
  by apply StronglySorted_app_1_l in Hs'.
Qed.

Lemma keys_sorted_highs o m : keys_sorted m -> keys_sorted (highs o m).
Proof.
  intros Hs. pose proof Hs as Hs'. rewrite (split3 o m Hs) in Hs'.
  unfold keys_sorted in Hs'. rewrite app_assoc, fmap_app in Hs'.
  by apply StronglySorted_app in Hs' as (_ & _ & ?).
Qed.

End normal_forms.

Section map_buckets_facts.
Implicit Types (m L H : list (Z * list cell_t)) (o k : Z) (b v : list cell_t)
  (f g : list cell_t -> list cell_t).

Lemma map_buckets_app f L H :
  map_buckets f (L ++ H) = map_buckets f L ++ map_buckets f H.
Proof. apply omap_app. Qed.

Lemma map_buckets_cons f k b m :
  map_buckets f ((k, b) :: m)
    = match f b with [] => map_buckets f m | b' => (k, b') :: map_buckets f m end.
Proof. unfold map_buckets. simpl. by destruct (f b). Qed.

Lemma map_buckets_rev f m : map_buckets f (rev m) = rev (map_buckets f m).
Proof.
  induction m as [|[k b] m IH]; [done|]. simpl.
  rewrite map_buckets_app, IH, !map_buckets_cons.
  destruct (f b); simpl; [by rewrite app_nil_r|done].
Qed.

Lemma map_buckets_keys f m kv :
  kv ∈ map_buckets f m -> exists b, (kv.1, b) ∈ m /\ kv.2 = f b /\ f b <> [].
Proof.
  unfold map_buckets. rewrite list_elem_of_omap. intros ([k b] & Hin & Hf). simpl in Hf.
  destruct (f b) eqn:E; [done|]. injection Hf as <-. simpl. exists b.
  rewrite E. done.
Qed.

Lemma map_buckets_below f o m : below o m -> below o (map_buckets f m).
Proof.
  unfold below. rewrite !Forall_forall. intros Hb kv Hin.
  apply map_buckets_keys in Hin as (b & Hin & _). by apply (Hb _ Hin).
Qed.

Lemma map_buckets_above f o m : above o m -> above o (map_buckets f m).
Proof.
  unfold above. rewrite !Forall_forall. intros Hb kv Hin.
  apply map_buckets_keys in Hin as (b & Hin & _). by apply (Hb _ Hin).
Qed.

Lemma map_buckets_sorted f m : keys_sorted m -> keys_sorted (map_buckets f m).
Proof.
  induction m as [|[k b] m IH]; intros Hs; [constructor|].
  apply keys_sorted_cons in Hs as [Hs Hall]. rewrite map_buckets_cons.
  destruct (f b) as [|x b'] eqn:E; [by apply IH|].
  unfold keys_sorted. rewrite fmap_cons. constructor; [by apply IH|].
  rewrite Forall_fmap. pose proof (map_buckets_above f k m Hall) as Ha.
  eapply Forall_impl; [exact Ha|]. by intros.
Qed.

Lemma map_buckets_id f m :
  Forall (fun kv => f kv.2 = kv.2 /\ kv.2 <> []) m -> map_buckets f m = m.
Proof.
  induction 1 as [|[k b] m [Hf Hne] Hm IH]; [done|]. simpl in Hf, Hne.
  rewrite map_buckets_cons, Hf, IH. by destruct b.
Qed.

Lemma map_buckets_ext f g m :
  Forall (fun kv => f kv.2 = g kv.2) m -> map_buckets f m = map_buckets g m.
Proof.
  induction 1 as [|[k b] m Hf Hm IH]; [done|]. simpl in Hf.
  by rewrite !map_buckets_cons, Hf, IH.
Qed.

Lemma map_buckets_compose f g m :
  f [] = [] -> map_buckets f (map_buckets g m) = map_buckets (fun b => f (g b)) m.
Proof.
  intros Hf. induction m as [|[k b] m IH]; [done|].
  rewrite !map_buckets_cons. destruct (g b) as [|x b'] eqn:E.
  - by rewrite Hf.
  - rewrite map_buckets_cons, IH. done.
Qed.

Lemma map_buckets_ok (P : cell_t -> Prop) `{!forall x, Decision (P x)} m :
  map_ok m -> map_ok (map_buckets (filter P) m).
Proof.
  intros [Hs Hb]. split; [by apply map_buckets_sorted|].
  apply Forall_forall. intros kv Hin.
  apply map_buckets_keys in Hin as (b & Hin & Hkv & Hne).
  rewrite Forall_forall in Hb. destruct (Hb _ Hin) as (_ & Ho & Hss). simpl in *.
  rewrite Hkv. split; [done|]. split.
  - apply Forall_forall. intros x Hx. apply list_elem_of_filter in Hx as [_ Hx].
    rewrite Forall_forall in Ho. by apply Ho.
  - clear -Hss. induction b as [|y b IH]; [constructor|].
    rewrite fmap_cons in Hss. apply StronglySorted_inv in Hss as [Hss Hall].
    destruct (decide (P y)).
    + rewrite filter_cons_True by done. rewrite fmap_cons. constructor; [by apply IH|].
      rewrite Forall_fmap in Hall. rewrite Forall_fmap.
      apply Forall_forall. intros x Hx. apply list_elem_of_filter in Hx as [_ Hx].
      rewrite Forall_forall in Hall. by apply Hall.
    + rewrite filter_cons_False by done. by apply IH.
Qed.

Lemma lows_map_buckets f o m : lows o (map_buckets f m) = map_buckets f (lows o m).
Proof.
  unfold lows. induction m as [|[k b] m IH]; [done|].
  rewrite map_buckets_cons. destruct (decide (k < o)).
  - rewrite (filter_cons_True _ (k, b)) by done. rewrite map_buckets_cons.
    destruct (f b); [done|]. rewrite filter_cons_True by done. by rewrite IH.
  - rewrite (filter_cons_False _ (k, b)) by done.
    destruct (f b); [done|]. by rewrite filter_cons_False by done.
Qed.

Lemma highs_map_buckets f o m : highs o (map_buckets f m) = map_buckets f (highs o m).
Proof.
  unfold highs. induction m as [|[k b] m IH]; [done|].
  rewrite map_buckets_cons. destruct (decide (o < k)).
  - rewrite (filter_cons_True _ (k, b)) by done. rewrite map_buckets_cons.
    destruct (f b); [done|]. rewrite filter_cons_True by done. by rewrite IH.
  - rewrite (filter_cons_False _ (k, b)) by done.
    destruct (f b); [done|]. by rewrite filter_cons_False by done.
Qed.

End map_buckets_facts.

Section scan_facts.
Implicit Types (x y c : cell_t) (b out K : list cell_t) (o size : Z).

Lemma key_in_spec x K :
  key_in x K = true <-> exists k, k ∈ K /\ cell.eqb x k = true.
Proof.
  unfold key_in. rewrite existsb_exists. setoid_rewrite <- list_elem_of_In. done.
Qed.

Lemma key_in_false x K :
  key_in x K = false <-> forall k, k ∈ K -> cell.eqb x k = false.
Proof.
  rewrite <- not_true_iff_false, key_in_spec. split.
  - intros Hn k Hk. destruct (cell.eqb x k) eqn:E; [|done]. destruct Hn. eauto.
  - intros Hall (k & Hk & E). rewrite (Hall k Hk) in E. done.
Qed.

Lemma push_back_unique_spec x out y :
  y ∈ offset_map.push_back_unique x out <->
  y ∈ out \/ (y = x /\ key_in x out = false).
Proof.
  unfold offset_map.push_back_unique.
  assert (existsb (fun y0 => cell.eqb y0 x) out = key_in x out) as ->.
  { unfold key_in. induction out as [|z out IH]; [done|]. simpl.
    by rewrite IH, (cell_eqb_sym z x). }
  destruct (key_in x out) eqn:E.
  - split; [by left|]. intros [?|[_ ?]]; done.
  - rewrite elem_of_app, list_elem_of_singleton.
    split; [intros [?|?]; [by left|by right]|intros [?|[? _]]; [by left|by right]].
Qed.

Lemma push_back_unique_key x out : key_in x (offset_map.push_back_unique x out) = true.
Proof.
  destruct (key_in x out) eqn:E.
  - apply key_in_spec in E as (k & Hk & E). apply key_in_spec. exists k.
    split; [|done]. apply push_back_unique_spec. by left.
  - apply key_in_spec. exists x. split.
    + apply push_back_unique_spec. by right.
    + apply cell_eqb_spec. done.
Qed.

Lemma push_all_mono l out y : y ∈ out -> y ∈ push_all l out.
Proof.
  unfold push_all. revert out. induction l as [|x l IH]; intros out Hy; [done|].
  simpl. apply IH. apply push_back_unique_spec. by left.
Qed.

Lemma push_all_mem l out y : y ∈ push_all l out -> y ∈ out \/ y ∈ l.
Proof.
  unfold push_all. revert out. induction l as [|x l IH]; intros out Hy; [by left|].
  simpl in Hy. apply IH in Hy as [Hy|Hy].
  - apply push_back_unique_spec in Hy as [?|[-> _]]; [by left|right; left].
  - right. by right.
Qed.

Lemma key_in_mono x K K' :
  (forall k, k ∈ K -> k ∈ K') -> key_in x K = true -> key_in x K' = true.
Proof.
  rewrite !key_in_spec. intros Hsub (k & Hk & E). exists k. split; [by apply Hsub|done].
Qed.

Lemma push_all_key l out x : x ∈ l -> key_in x (push_all l out) = true.
Proof.
  unfold push_all. revert out. induction l as [|z l IH]; intros out Hx.
  - by apply elem_of_nil in Hx.
  - simpl. apply elem_of_cons in Hx as [->|Hx]; [|by apply IH].
    eapply key_in_mono; [|apply (push_back_unique_key z out)].
    intros k Hk. by apply push_all_mono.
Qed.

Lemma push_all_nil out : push_all [] out = out.
Proof. done. Qed.

Lemma scan_bucket_ub_spec o size b out :
  offset_map.scan_bucket_ub o size b out
    = scan_with (filter (fun x => cell.overlap x o size = true))
                (existsb (fun x => cell.overlap x o size)) b out.
Proof.
  unfold offset_map.scan_bucket_ub, scan_with.
  enough (forall flag,
    fold_left (fun '(out, continue_outer_loop) x =>
                 if cell.overlap x o size
                 then (offset_map.push_back_unique x out, true)
                 else (out, continue_outer_loop)) b (out, flag)
    = (push_all (filter (fun x => cell.overlap x o size = true) b) out,
       flag || existsb (fun x => cell.overlap x o size) b)) as H by apply (H false).
  revert out. induction b as [|x b IH]; intros out flag.
  - simpl. by rewrite orb_false_r.
  - simpl. destruct (cell.overlap x o size) eqn:E.
    + rewrite filter_cons_True by done. rewrite IH. simpl. by rewrite orb_true_r.
    + rewrite filter_cons_False by (by rewrite E). by rewrite IH.
Qed.

Lemma scan_bucket_lb_spec c o size b out :
  offset_map.scan_bucket_lb c o size b out
    = scan_with
        (filter (fun x => cell.overlap x o size && negb (cell.eqb x c) = true))
        (existsb (fun x => cell.overlap x o size)) b out.
Proof.
  unfold offset_map.scan_bucket_lb, scan_with.
  enough (forall flag,
    fold_left (fun '(out, continue_outer_loop) x =>
                 if cell.overlap x o size
                 then ((if negb (cell.eqb x c)
                        then offset_map.push_back_unique x out else out), true)
                 else (out, continue_outer_loop)) b (out, flag)
    = (push_all
         (filter (fun x => cell.overlap x o size && negb (cell.eqb x c) = true) b) out,
       flag || existsb (fun x => cell.overlap x o size) b)) as H by apply (H false).
  revert out. induction b as [|x b IH]; intros out flag.
  - simpl. by rewrite orb_false_r.
  - simpl. destruct (cell.overlap x o size) eqn:E; simpl.
    + destruct (cell.eqb x c) eqn:E2; simpl.
      * rewrite filter_cons_False by (by rewrite E, E2). rewrite IH.
        by rewrite orb_true_r.
      * rewrite filter_cons_True by (by rewrite E, E2). rewrite IH. simpl.
        by rewrite orb_true_r.
    + rewrite filter_cons_False by (by rewrite E). by rewrite IH.
Qed.

Lemma scan_bucket_eq_spec c o size b out :
  offset_map.scan_bucket_eq c o size b out
    = scan_with
        (filter (fun x => cell.overlap x o size && negb (cell.eqb x c) = true))
        (existsb (fun x => cell.overlap x o size && negb (cell.eqb x c))) b out.
Proof.
  unfold offset_map.scan_bucket_eq, scan_with.
  enough (forall flag,
    fold_left (fun '(out, continue_outer_loop) x =>
                 if cell.eqb x c then (out, continue_outer_loop)
                 else if cell.overlap x o size
                 then ((if negb (cell.eqb x c)
                        then offset_map.push_back_unique x out else out), true)
                 else (out, continue_outer_loop)) b (out, flag)
    = (push_all
         (filter (fun x => cell.overlap x o size && negb (cell.eqb x c) = true) b) out,
       flag || existsb (fun x => cell.overlap x o size && negb (cell.eqb x c)) b))
    as H by apply (H false).
  revert out. induction b as [|x b IH]; intros out flag.
  - simpl. by rewrite orb_false_r.
  - simpl. destruct (cell.eqb x c) eqn:E2; simpl.
    + rewrite filter_cons_False by (rewrite E2, andb_false_r; done).
      rewrite IH. by rewrite andb_false_r.
    + destruct (cell.overlap x o size) eqn:E; simpl.
      * rewrite filter_cons_True by (by rewrite E, E2). rewrite IH. simpl.
        by rewrite orb_true_r.
      * rewrite filter_cons_False by (by rewrite E). by rewrite IH.
Qed.

End scan_facts.

Section walk_facts.
Variables (sel : list cell_t -> list cell_t) (cont : list cell_t -> bool).
Implicit Types (x y c : cell_t) (b out K : list cell_t) (bs : list (list cell_t)).

Lemma walk_nil scan out : offset_map.walk scan [] out = (out, 0%nat).
Proof. done. Qed.

Lemma walk_cons bs b out :
  offset_map.walk (scan_with sel cont) (b :: bs) out
    = if cont b
      then (fst (offset_map.walk (scan_with sel cont) bs (push_all (sel b) out)),
            S (snd (offset_map.walk (scan_with sel cont) bs (push_all (sel b) out))))
      else (push_all (sel b) out, 0%nat).
Proof.
  simpl. unfold scan_with at 1. destruct (cont b); [|done].
  by destruct (offset_map.walk _ bs _).
Qed.

Lemma walk_mono bs out y :
  y ∈ out -> y ∈ fst (offset_map.walk (scan_with sel cont) bs out).
Proof.
  revert out. induction bs as [|b bs IH]; intros out Hy; [done|].
  rewrite walk_cons. destruct (cont b); simpl.
  - apply IH. by apply push_all_mono.
  - by apply push_all_mono.
Qed.

Lemma walk_mem bs out y :
  y ∈ fst (offset_map.walk (scan_with sel cont) bs out) ->
  y ∈ out \/ exists b, b ∈ bs /\ y ∈ sel b.
Proof.
  revert out. induction bs as [|b bs IH]; intros out Hy; [by left|].
  rewrite walk_cons in Hy.
  assert (y ∈ push_all (sel b) out -> y ∈ out \/ exists b0, b0 ∈ b :: bs /\ y ∈ sel b0)
    as Hpush.
  { intros H. apply push_all_mem in H as [?|?]; [by left|right].
    exists b. split; [left|done]. }
  destruct (cont b); simpl in Hy; [|by apply Hpush].
  apply IH in Hy as [Hy|(b0 & Hb0 & Hy)]; [by apply Hpush|].
  right. exists b0. split; [by right|done].
Qed.

End walk_facts.

Section quiet_facts.
Implicit Types (x y c : cell_t) (b out K : list cell_t) (bs : list (list cell_t))
  (o size : Z).

Lemma existsb_false {A} (f : A -> bool) (l : list A) :
  existsb f l = false <-> forall a, a ∈ l -> f a = false.
Proof.
  induction l as [|a0 l IH]; simpl.
  - split; [|done]. intros _ a Ha. by apply elem_of_nil in Ha.
  - rewrite orb_false_iff, IH. split.
    + intros [Ha Hl] a Hin. apply elem_of_cons in Hin as [->|Hin]; [done|by apply Hl].
    + intros Hall. split; [apply Hall; left|]. intros a Hin. apply Hall. by right.
Qed.

Lemma nonempty_buckets_cons f b bs :
  nonempty_buckets f (b :: bs)
    = match f b with [] => nonempty_buckets f bs | b' => b' :: nonempty_buckets f bs end.
Proof. unfold nonempty_buckets. simpl. by destruct (f b). Qed.

Lemma nonempty_buckets_app f bs bs' :
  nonempty_buckets f (bs ++ bs') = nonempty_buckets f bs ++ nonempty_buckets f bs'.
Proof. apply omap_app. Qed.

Lemma nonempty_buckets_rev f bs :
  nonempty_buckets f (rev bs) = rev (nonempty_buckets f bs).
Proof.
  induction bs as [|b bs IH]; [done|]. simpl.
  rewrite nonempty_buckets_app, IH, !nonempty_buckets_cons.
  destruct (f b); simpl; [by rewrite app_nil_r|done].
Qed.

Lemma map_buckets_snd f (m : list (Z * list cell_t)) :
  (map_buckets f m).*2 = nonempty_buckets f (m.*2).
Proof.
  induction m as [|[k b] m IH]; [done|].
  rewrite map_buckets_cons, fmap_cons, nonempty_buckets_cons. simpl.
  destruct (f b); [done|]. by rewrite fmap_cons, IH.
Qed.

Lemma keep_out_unseen K b :
  (forall x k, x ∈ b -> k ∈ K -> cell.eqb x k = false) -> keep_out K b = b.
Proof.
  intros Hun. apply filter_all. apply Forall_forall. intros x Hx.
  apply key_in_false. intros k Hk. by apply Hun.
Qed.

Lemma walk_quiet sel cont o size bs out K :
  Forall (fun b => b <> []
                   /\ sel b = filter (fun x => cell.overlap x o size = true) b
                   /\ cont b = existsb (fun x => cell.overlap x o size) b) bs ->
  (forall x, x ∈ fst (offset_map.walk (scan_with sel cont) bs out) -> x ∈ K) ->
  (forall k, k ∈ K -> cell.overlap k o size = true) ->
  quiet o size (nonempty_buckets (keep_out K) bs).
Proof.
  intros Hbs Hsub HK. revert out Hsub.
  induction Hbs as [|b bs (Hne & Hsel & Hcont) Hbs IH]; intros out Hsub; [done|].
  rewrite walk_cons in Hsub. rewrite nonempty_buckets_cons.
  destruct (cont b) eqn:Ec; simpl in Hsub.
  - destruct (keep_out K b) as [|z b'] eqn:Ek; [by apply (IH _ Hsub)|].
    simpl. rewrite <- Ek. intros y Hy.
    apply list_elem_of_filter in Hy as [Hy Hyb].
    destruct (cell.overlap y o size) eqn:Eo; [|done].
    assert (key_in y K = true) as Hin; [|by rewrite Hin in Hy].
    eapply key_in_mono; [exact Hsub|].
    eapply key_in_mono; [intros k; apply walk_mono|].
    apply push_all_key. rewrite Hsel. by apply list_elem_of_filter.
  - symmetry in Hcont. pose proof (proj1 (existsb_false _ _) Hcont) as Hno.
    rewrite keep_out_unseen.
    + destruct b as [|z b']; [done|]. simpl. exact Hno.
    + intros x k Hx Hk. destruct (cell.eqb x k) eqn:E; [|done].
      specialize (Hno x Hx). cbv beta in Hno. rewrite (cell_overlap_key x k o size E) in Hno.
      by rewrite (HK k Hk) in Hno.
Qed.

Lemma walk_quiet_nil sel cont o size bs :
  (forall b, b ∈ bs ->
     sel b = filter (fun x => cell.overlap x o size = true) b
     /\ cont b = existsb (fun x => cell.overlap x o size) b) ->
  quiet o size bs ->
  offset_map.walk (scan_with sel cont) bs [] = ([], 0%nat).
Proof.
  intros Hbs Hq. destruct bs as [|b bs]; [done|]. simpl in Hq.
  rewrite walk_cons. destruct (Hbs b) as [Hsel Hcont]; [left|].
  assert (existsb (fun x => cell.overlap x o size) b = false) as Hex
    by (by apply existsb_false).
  rewrite Hcont, Hex, Hsel. rewrite filter_none; [done|].
  apply Forall_forall. intros x Hx. rewrite (Hq x Hx). done.
Qed.

End quiet_facts.

Section settled_query.
Implicit Types (x y c : cell_t) (b out K : list cell_t) (bs : list (list cell_t))
  (o size : Z) (L H m : list (Z * list cell_t)).

Lemma walk_ext scan scan' bs out :
  (forall b out, scan b out = scan' b out) ->
  offset_map.walk scan bs out = offset_map.walk scan' bs out.
Proof.
  intros Hext. revert out. induction bs as [|b bs IH]; intros out; [done|].
  simpl. rewrite Hext. destruct (scan' b out) as [out' [|]]; [|done]. by rewrite IH.
Qed.

Lemma lower_bound_mid o L b H :
  below o L -> offset_map.lower_bound o (L ++ (o, b) :: H) = length L.
Proof.
  induction 1 as [|[k v] L Hk HL IH]; simpl.
  - by rewrite Z.ltb_irrefl.
  - simpl in Hk. apply Z.ltb_lt in Hk. by rewrite Hk, IH.
Qed.

Lemma upper_bound_mid o L b H :
  below o L -> above o H ->
  offset_map.upper_bound o (L ++ (o, b) :: H) = S (length L).
Proof.
  intros HL HH. induction HL as [|[k v] L Hk HL IH]; simpl.
  - rewrite Z.leb_refl. f_equal. destruct HH as [|[k v] H Hk HH]; [done|].
    simpl in *. apply Z.leb_gt in Hk. by rewrite Hk.
  - simpl in Hk. assert ((k <=? o) = true) as -> by (apply Z.leb_le; lia). by rewrite IH.
Qed.

Lemma take_mid {A} (L H : list A) (a : A) : take (S (length L)) (L ++ a :: H) = L ++ [a].
Proof. induction L as [|z L IH]; simpl; [by rewrite take_0|by rewrite IH]. Qed.

Lemma drop_mid {A} (L H : list A) (a : A) : drop (length L) (L ++ a :: H) = a :: H.
Proof. induction L as [|z L IH]; simpl; done. Qed.

Lemma drop_past_mid {A} (L H : list A) (a : A) : drop (S (length L)) (L ++ a :: H) = H.
Proof. induction L as [|z L IH]; simpl; [by rewrite drop_0|done]. Qed.

Lemma filter_overlap_off c o size b :
  (forall x, x ∈ b -> cell.eqb x c = false) ->
  filter (fun x => cell.overlap x o size && negb (cell.eqb x c) = true) b
    = filter (fun x => cell.overlap x o size = true) b.
Proof.
  induction b as [|z b IH]; intros Hoff; [done|].
  assert (cell.eqb z c = false) as Ez by (apply Hoff; left).
  specialize (IH (fun x Hx => Hoff x (list_elem_of_further _ _ _ Hx))).
  destruct (cell.overlap z o size) eqn:E.
  - rewrite !filter_cons_True by (by rewrite ?E, ?Ez). by rewrite IH.
  - rewrite !filter_cons_False by (by rewrite ?E). done.
Qed.

Lemma keyed_off_below o c L b x :
  keyed L -> below o L -> _offset c = o -> b ∈ L.*2 -> x ∈ b -> cell.eqb x c = false.
Proof.
  intros Hk HL Hc Hb Hx. apply list_elem_of_fmap in Hb as ([k b'] & -> & Hin).
  unfold keyed, below in *. rewrite Forall_forall in Hk, HL.
  specialize (Hk _ Hin). specialize (HL _ Hin). simpl in *.
  rewrite Forall_forall in Hk. specialize (Hk _ Hx).
  destruct (cell.eqb x c) eqn:E; [|done]. apply cell_eqb_spec in E as [E _]. lia.
Qed.

Lemma keyed_off_above o c H b x :
  keyed H -> above o H -> _offset c = o -> b ∈ H.*2 -> x ∈ b -> cell.eqb x c = false.
Proof.
  intros Hk HL Hc Hb Hx. apply list_elem_of_fmap in Hb as ([k b'] & -> & Hin).
  unfold keyed, above in *. rewrite Forall_forall in Hk, HL.
  specialize (Hk _ Hin). specialize (HL _ Hin). simpl in *.
  rewrite Forall_forall in Hk. specialize (Hk _ Hx).
  destruct (cell.eqb x c) eqn:E; [|done]. apply cell_eqb_spec in E as [E _]. lia.
Qed.

Lemma get_cell_mid o size L b H :
  below o L ->
  offset_map.get_cell o size (L ++ (o, b) :: H)
    = default cell.null (cell_set.find (cell.of_size o size) b).
Proof.
  intros HL. unfold offset_map.get_cell. rewrite lookup_with_mid by done.
  by destruct (cell_set.find _ b).
Qed.

Lemma found_not_null o size b c :
  0 < size -> cell_set.find (cell.of_size o size) b = Some c ->
  c ∈ b /\ _offset c = o /\ _size c = size /\ cell.is_null c = false.
Proof.
  intros Hs Hf. apply find_Some in Hf as [Hin E]. apply cell_eqb_spec in E as [E1 E2].
  simpl in E1, E2. repeat split; try done. unfold cell.is_null. rewrite E2.
  assert ((size =? 0) = false) as -> by (apply Z.eqb_neq; lia). by rewrite andb_false_r.
Qed.

Lemma get_overlap_cells_settled o size L b H c :
  0 < size -> below o L -> above o H -> keyed L -> keyed H ->
  cell_set.find (cell.of_size o size) b = Some c ->
  (forall x, x ∈ b -> cell.overlap x o size = true -> cell.eqb x c = true) ->
  quiet o size (rev L.*2) -> quiet o size H.*2 ->
  offset_map.get_overlap_cells o size [] (L ++ (o, b) :: H)
    = Done ([], L ++ (o, b) :: H).
Proof.
  intros Hs HL HH HkL HkH Hf Hb HqL HqH.
  destruct (found_not_null o size b c Hs Hf) as (Hin & Hco & Hcs & Hnn).
  unfold offset_map.get_overlap_cells.
  rewrite get_cell_mid by done. rewrite Hf. simpl default. rewrite Hnn.
  cbn [mbind outcome_bind].
  rewrite lower_bound_mid, upper_bound_mid by done.
  rewrite drop_mid, take_mid, drop_past_mid.
  change (map snd ?l) with (l.*2). rewrite fmap_app, rev_app_distr. simpl rev.
  rewrite (walk_ext _ _ _ _ (scan_bucket_lb_spec c o size)).
  rewrite (walk_ext _ _ _ _ (scan_bucket_ub_spec o size)).
  change ([b] ++ rev L.*2) with (b :: rev L.*2). rewrite walk_cons.
  assert (existsb (fun x => cell.overlap x o size) b = true) as ->.
  { apply existsb_exists. exists c. split; [by apply list_elem_of_In|].
    by apply cell_overlap_self. }
  rewrite (filter_none _ b).
  2:{ apply Forall_forall. intros x Hx.
      destruct (cell.overlap x o size) eqn:E; [|done].
      rewrite (Hb x Hx E). done. }
  rewrite push_all_nil.
  rewrite (walk_quiet_nil _ _ o size (rev L.*2)); [|
    intros b' Hb'; split; [|done]; apply filter_overlap_off; intros x Hx;
    apply (keyed_off_below o c L b' x); try done;
    by apply list_elem_of_In, in_rev, list_elem_of_In in Hb' | done].
  cbn [fst].
  rewrite (walk_quiet_nil _ _ o size H.*2); [|done|done].
  replace (S (length L) + 0 - S (length L))%nat with 0%nat by lia.
  rewrite take_0. done.
Qed.

End settled_query.

Section first_query.
Implicit Types (x y c : cell_t) (b out K : list cell_t) (bs : list (list cell_t))
  (o size : Z) (L H m : list (Z * list cell_t)).

(** The part of get_overlap_cells after the temporary cell is in place. *)
Lemma get_overlap_cells_mid o size L bt H c (added : bool) :
  below o L -> above o H ->
  (let lb_it := offset_map.lower_bound o (L ++ (o, bt) :: H) in
   let out :=
     match drop lb_it (L ++ (o, bt) :: H) with
     | [] => []
     | _ =>
         let upto_lb := map snd (take (S lb_it) (L ++ (o, bt) :: H)) in
         fst (offset_map.walk (offset_map.scan_bucket_lb c o size) (rev upto_lb) [])
     end in
   let ub_it := offset_map.upper_bound o (L ++ (o, bt) :: H) in
   let '(out, passed) :=
     offset_map.walk (offset_map.scan_bucket_ub o size)
       (map snd (drop ub_it (L ++ (o, bt) :: H))) out in
   let ub_it := (ub_it + passed)%nat in
   let range := take (ub_it - S lb_it)%nat (drop (S lb_it) (L ++ (o, bt) :: H)) in
   let out := fst (offset_map.walk (offset_map.scan_bucket_eq c o size) (map snd range) out) in
   let _map := if added then offset_map.remove_cell c (L ++ (o, bt) :: H)
               else L ++ (o, bt) :: H in
   Done (out, _map))
  = Done (walks_out c o size L bt H,
          if added then offset_map.remove_cell c (L ++ (o, bt) :: H)
          else L ++ (o, bt) :: H).
Proof.
  intros HL HH. cbv zeta.
  rewrite lower_bound_mid, upper_bound_mid by done.
  rewrite drop_mid, take_mid, drop_past_mid.
  change (map snd ?l) with (l.*2). rewrite fmap_app, rev_app_distr. simpl rev.
  change ([bt] ++ rev L.*2) with (bt :: rev L.*2).
  rewrite (walk_ext _ _ _ _ (scan_bucket_lb_spec c o size)).
  rewrite (walk_ext _ _ _ _ (scan_bucket_ub_spec o size)).
  unfold walks_out, walk_ub, walk_lb, sel_lb, sel_ub, cont_ub, cont_eq.
  destruct (offset_map.walk _ H.*2 _) as [out2 passed] eqn:E. cbn [fst snd].
  replace (S (length L) + passed - S (length L))%nat with passed by lia.
  rewrite (walk_ext _ _ _ _ (scan_bucket_eq_spec c o size)). done.
Qed.

Section walks.
Variables (o size : Z) (c : cell_t) (L H : list (Z * list cell_t)) (bt : list cell_t).
Hypotheses (HL : below o L) (HH : above o H) (HkL : keyed L) (HkH : keyed H).
Hypotheses (HneL : Forall (fun kv => kv.2 <> []) L) (HneH : Forall (fun kv => kv.2 <> []) H).
Hypotheses (Hc : c ∈ bt) (Hco : _offset c = o) (Hcs : _size c = size) (Hs : 0 < size).

Lemma walk_lb_unfold :
  walk_lb c o size L bt
    = fst (offset_map.walk (scan_with (sel_lb c o size) (cont_ub o size))
             (rev L.*2) (push_all (sel_lb c o size bt) [])).
Proof.
  unfold walk_lb. rewrite walk_cons.
  assert (cont_ub o size bt = true) as ->; [|done].
  apply existsb_exists. exists c. split; [by apply list_elem_of_In|].
  by apply cell_overlap_self.
Qed.

Lemma walk_lb_mem k :
  k ∈ walk_lb c o size L bt ->
  cell.overlap k o size = true /\ cell.eqb k c = false
  /\ exists b, b ∈ bt :: L.*2 /\ k ∈ b.
Proof.
  unfold walk_lb. intros Hk. apply walk_mem in Hk as [Hk|(b & Hb & Hk)].
  - by apply elem_of_nil in Hk.
  - apply list_elem_of_filter in Hk as [Hk Hkb].
    apply andb_true_iff in Hk as [Hov Hne]. apply negb_true_iff in Hne.
    repeat split; try done. exists b. split; [|done].
    apply elem_of_cons in Hb as [->|Hb]; [left|right].
    by apply list_elem_of_In, in_rev, list_elem_of_In in Hb.
Qed.

Lemma walk_ub_mem k :
  k ∈ fst (walk_ub c o size L bt H) ->
  cell.overlap k o size = true /\ cell.eqb k c = false
  /\ exists b, b ∈ bt :: L.*2 ++ H.*2 /\ k ∈ b.
Proof.
  unfold walk_ub. intros Hk. apply walk_mem in Hk as [Hk|(b & Hb & Hk)].
  - apply walk_lb_mem in Hk as (? & ? & b & Hb & ?). repeat split; try done.
    exists b. split; [|done]. apply elem_of_cons in Hb as [->|Hb]; [left|right].
    apply elem_of_app. by left.
  - apply list_elem_of_filter in Hk as [Hov Hkb]. repeat split; [done| |].
    + by apply (keyed_off_above o c H b k).
    + exists b. split; [|done]. right. apply elem_of_app. by right.
Qed.

Lemma walks_out_mem k :
  k ∈ walks_out c o size L bt H ->
  cell.overlap k o size = true /\ cell.eqb k c = false
  /\ exists b, b ∈ bt :: L.*2 ++ H.*2 /\ k ∈ b.
Proof.
  unfold walks_out. intros Hk. apply walk_mem in Hk as [Hk|(b & Hb & Hk)].
  - by apply walk_ub_mem.
  - apply list_elem_of_filter in Hk as [Hk Hkb].
    apply andb_true_iff in Hk as [Hov Hne]. apply negb_true_iff in Hne.
    repeat split; try done. exists b. split; [|done]. right. apply elem_of_app. right.
    apply list_elem_of_fmap in Hb as (kv & -> & Hkv). apply list_elem_of_fmap.
    exists kv. split; [done|]. by apply (subseteq_take _ _ _ Hkv).
Qed.

Lemma walk_lb_sub k : k ∈ walk_lb c o size L bt -> k ∈ walks_out c o size L bt H.
Proof.
  intros Hk. unfold walks_out. apply walk_mono. unfold walk_ub. by apply walk_mono.
Qed.

Lemma walks_out_covers x :
  x ∈ bt -> cell.overlap x o size = true -> cell.eqb x c = false ->
  key_in x (walks_out c o size L bt H) = true.
Proof.
  intros Hx Hov Hne. eapply key_in_mono; [exact walk_lb_sub|].
  rewrite walk_lb_unfold. eapply key_in_mono; [intros k; apply walk_mono|].
  apply push_all_key. apply list_elem_of_filter. split; [|done]. by rewrite Hov, Hne.
Qed.

Lemma walks_out_quiet_low :
  quiet o size (nonempty_buckets (keep_out (walks_out c o size L bt H)) (rev L.*2)).
Proof.
  apply (walk_quiet (sel_lb c o size) (cont_ub o size) o size (rev L.*2)
           (push_all (sel_lb c o size bt) [])).
  - apply Forall_forall. intros b Hb.
    apply list_elem_of_In, in_rev, list_elem_of_In in Hb. split; [|split; [|done]].
    + apply list_elem_of_fmap in Hb as (kv & -> & Hkv).
      rewrite Forall_forall in HneL. by apply HneL.
    + apply filter_overlap_off. intros x Hx. by apply (keyed_off_below o c L b x).
  - intros x Hx. apply walk_lb_sub. by rewrite walk_lb_unfold.
  - intros k Hk. by apply walks_out_mem in Hk as (? & _).
Qed.

Lemma walks_out_quiet_high :
  quiet o size (nonempty_buckets (keep_out (walks_out c o size L bt H)) H.*2).
Proof.
  apply (walk_quiet (sel_ub o size) (cont_ub o size) o size H.*2 (walk_lb c o size L bt)).
  - apply Forall_forall. intros b Hb. split; [|done].
    apply list_elem_of_fmap in Hb as (kv & -> & Hkv).
    rewrite Forall_forall in HneH. by apply HneH.
  - intros x Hx. unfold walks_out. by apply walk_mono.
  - intros k Hk. by apply walks_out_mem in Hk as (? & _).
Qed.

End walks.
End first_query.

Section insert_facts.
Implicit Types (x y c t : cell_t) (b out K : list cell_t) (o size : Z)
  (L H m : list (Z * list cell_t)).

Lemma cell_eqb_refl c : cell.eqb c c = true.
Proof. by apply cell_eqb_spec. Qed.

Lemma cell_eqb_trans x y z :
  cell.eqb x y = true -> cell.eqb y z = true -> cell.eqb x z = true.
Proof. rewrite !cell_eqb_spec. intros [-> ->] [-> ->]. done. Qed.

Lemma insert_fresh_flag c b :
  (forall x, x ∈ b -> cell.eqb x c = false) -> (cell_set.insert c b).2 = true.
Proof.
  induction b as [|z b IH]; intros Hf; [done|]. simpl.
  rewrite (Hf z) by left. destruct (cell.ltb c z); [done|].
  specialize (IH (fun x Hx => Hf x (list_elem_of_further _ _ _ Hx))).
  by destruct (cell_set.insert c b).
Qed.

Lemma insert_fresh_mem c b x :
  (forall x, x ∈ b -> cell.eqb x c = false) ->
  x ∈ (cell_set.insert c b).1 <-> x = c \/ x ∈ b.
Proof.
  induction b as [|z b IH]; intros Hf; simpl.
  - rewrite list_elem_of_singleton, elem_of_nil. tauto.
  - rewrite (Hf z) by left. destruct (cell.ltb c z); simpl.
    + by rewrite elem_of_cons.
    + specialize (IH (fun x Hx => Hf x (list_elem_of_further _ _ _ Hx))).
      destruct (cell_set.insert c b) as [r fl]. simpl in *.
      rewrite !elem_of_cons, IH. tauto.
Qed.

Lemma erase_insert_fresh c b :
  (forall x, x ∈ b -> cell.eqb x c = false) ->
  cell_set.erase c (cell_set.insert c b).1 = (b, true).
Proof.
  induction b as [|z b IH]; intros Hf; simpl.
  - by rewrite cell_eqb_refl.
  - rewrite (Hf z) by left. destruct (cell.ltb c z); simpl.
    + by rewrite cell_eqb_refl.
    + specialize (IH (fun x Hx => Hf x (list_elem_of_further _ _ _ Hx))).
      destruct (cell_set.insert c b) as [r fl]. simpl in *.
      rewrite (Hf z) by left. by rewrite IH.
Qed.

Lemma find_insert_fresh c t b :
  cell.eqb c t = true -> (forall x, x ∈ b -> cell.eqb x c = false) ->
  cell_set.find t (cell_set.insert c b).1 = Some c.
Proof.
  intros Hct. induction b as [|z b IH]; intros Hf; simpl.
  - by rewrite Hct.
  - rewrite (Hf z) by left. destruct (cell.ltb c z); simpl.
    + by rewrite Hct.
    + specialize (IH (fun x Hx => Hf x (list_elem_of_further _ _ _ Hx))).
      destruct (cell_set.insert c b) as [r fl]. simpl in *.
      assert (cell.eqb z t = false) as ->; [|done].
      destruct (cell.eqb z t) eqn:E; [|done].
      rewrite <- (Hf z) by left. rewrite (cell_eqb_sym c t) in Hct.
      symmetry. by apply (cell_eqb_trans z t c).
Qed.

Lemma insert_cell_fresh c (chk : bool) m :
  keys_sorted m -> chk && negb (cell.has_scalar c) = false ->
  (forall x, x ∈ bucket_at (_offset c) m -> cell.eqb x c = false) ->
  offset_map.insert_cell c chk m
    = Done (lows (_offset c) m
              ++ (_offset c, (cell_set.insert c (bucket_at (_offset c) m)).1)
              :: highs (_offset c) m).
Proof.
  intros Hs Hchk Hf. unfold offset_map.insert_cell, bucket_at in *. rewrite Hchk.
  unfold cell.get_offset.
  destruct (patricia_tree.lookup (_offset c) m) as [b|] eqn:El; simpl in *.
  - pose proof (insert_fresh_flag c b Hf) as Hfl.
    destruct (cell_set.insert c b) as [r fl]. simpl in *. subst fl.
    rewrite remove_normal_form by done.
    assert (keys_sorted (lows (_offset c) m ++ highs (_offset c) m)) as Hs'.
    { rewrite <- remove_normal_form by done. clear -Hs.
      induction m as [|[k v] m IH]; [done|]. simpl.
      apply keys_sorted_cons in Hs as Hs2. destruct Hs2 as [Hs2 Hall].
      destruct (k =? _offset c); [done|].
      unfold keys_sorted. rewrite fmap_cons. constructor; [by apply IH|].
      rewrite Forall_fmap. apply Forall_forall. intros [k' v'] Hin. simpl.
      rewrite Forall_forall in Hall. apply (Hall (k', v')).
      clear -Hin. induction m as [|[k2 v2] m IH]; [done|]. simpl in Hin.
      destruct (k2 =? _offset c); [by right|].
      apply elem_of_cons in Hin as [->|Hin]; [left|right; by apply IH]. }
    rewrite insert_normal_form by done.
    rewrite lows_without_mid, highs_without_mid
      by (apply lows_below || apply highs_above). done.
  - by rewrite insert_normal_form.
Qed.

End insert_facts.

Section remove_facts.
Implicit Types (x y c t : cell_t) (b out K : list cell_t) (o size : Z)
  (L H m : list (Z * list cell_t)) (f : list cell_t -> list cell_t).

Lemma keys_sorted_remove o m : keys_sorted m -> keys_sorted (lows o m ++ highs o m).
Proof.
  intros Hs. unfold keys_sorted. rewrite fmap_app. apply StronglySorted_app.
  split; [|split].
  - intros k1 k2 H1 H2.
    apply list_elem_of_fmap in H1 as (kv1 & -> & H1).
    apply list_elem_of_fmap in H2 as (kv2 & -> & H2).
    apply list_elem_of_filter in H1 as [H1 _]. apply list_elem_of_filter in H2 as [H2 _].
    lia.
  - by apply keys_sorted_lows.
  - by apply keys_sorted_highs.
Qed.

Lemma map_ok_bucket m k b : map_ok m -> (k, b) ∈ m -> bucket_ok k b.
Proof. intros [_ Hb] Hin. rewrite Forall_forall in Hb. by apply (Hb (k, b)). Qed.

Lemma lookup_Some_elem o m b :
  keys_sorted m -> patricia_tree.lookup o m = Some b -> (o, b) ∈ m.
Proof.
  intros Hs Hl. rewrite (split_with_mid o m b Hs Hl).
  apply elem_of_app. right. left.
Qed.

Lemma map_buckets_split f o m :
  map_ok m -> f [] = [] ->
  (forall k b, (k, b) ∈ m -> k <> o -> f b = b) ->
  map_buckets f m
    = lows o m ++ match f (bucket_at o m) with [] => [] | b' => [(o, b')] end
        ++ highs o m.
Proof.
  intros Hok Hnil Hoff.
  transitivity (map_buckets f (lows o m ++ mid o m ++ highs o m)).
  { f_equal. apply split3, Hok. }
  rewrite !map_buckets_app. f_equal; [|f_equal].
  - apply map_buckets_id. apply Forall_forall. intros [k b] Hin.
    apply list_elem_of_filter in Hin as [Hk Hin]. simpl in *.
    split; [apply (Hoff k b Hin); lia|]. apply (map_ok_bucket m k b Hok Hin).
  - unfold mid, bucket_at. destruct (patricia_tree.lookup o m) as [b|]; cbn [default from_option id].
    + rewrite map_buckets_cons. destruct (f b); reflexivity.
    + rewrite Hnil. reflexivity.
  - apply map_buckets_id. apply Forall_forall. intros [k b] Hin.
    apply list_elem_of_filter in Hin as [Hk Hin]. simpl in *.
    split; [apply (Hoff k b Hin); lia|]. apply (map_ok_bucket m k b Hok Hin).
Qed.

Lemma filter_off_key c k b :
  Forall (fun x => _offset x = k) b -> k <> _offset c ->
  filter (fun x => cell.eqb x c = false) b = b.
Proof.
  intros Hk Hne. apply filter_all. eapply Forall_impl; [exact Hk|].
  intros x Hx. simpl in Hx. destruct (cell.eqb x c) eqn:E; [|done].
  apply cell_eqb_spec in E as [E _]. lia.
Qed.

Lemma remove_cell_nf c m :
  map_ok m ->
  offset_map.remove_cell c m = map_buckets (filter (fun x => cell.eqb x c = false)) m.
Proof.
  intros Hok. pose proof Hok as [Hs _].
  rewrite (map_buckets_split _ (_offset c) m Hok); [|done|].
  2:{ intros k b Hin Hne. apply (filter_off_key c k); [|done].
      apply (map_ok_bucket m k b Hok Hin). }
  unfold offset_map.remove_cell, bucket_at, cell.get_offset.
  destruct (patricia_tree.lookup (_offset c) m) as [cells|] eqn:El; simpl default.
  - pose proof (map_ok_bucket m _ cells Hok (lookup_Some_elem _ _ _ Hs El))
      as (Hne & Hk & Hss).
    rewrite (erase_filter (_offset c) c cells) by done.
    destruct (existsb (fun x => cell.eqb x c) cells) eqn:Ex.
    + rewrite remove_normal_form by done.
      destruct (filter (fun x => cell.eqb x c = false) cells) as [|z r]; [done|].
      rewrite insert_normal_form by (by apply keys_sorted_remove).
      rewrite lows_without_mid, highs_without_mid
        by (apply lows_below || apply highs_above). done.
    + rewrite filter_all.
      2:{ apply Forall_forall. intros x Hx.
          by apply (proj1 (existsb_false _ _) Ex). }
      destruct cells as [|z r]; [done|]. by apply split_with_mid.
  - by apply split_without_mid.
Qed.

Lemma keep_out_cons k K b :
  keep_out (k :: K) b = keep_out K (filter (fun x => cell.eqb x k = false) b).
Proof.
  unfold keep_out. induction b as [|z b IH]; [done|].
  destruct (cell.eqb z k) eqn:E.
  - rewrite (filter_cons_False _ z b) by (simpl; by rewrite E).
    rewrite (filter_cons_False _ z b) by (by rewrite E). done.
  - rewrite (filter_cons_True (fun x => cell.eqb x k = false) z b) by done.
    destruct (key_in z K) eqn:E2.
    + rewrite !filter_cons_False by (simpl; by rewrite ?E, ?E2). done.
    + rewrite !filter_cons_True by (simpl; by rewrite ?E, ?E2). by rewrite IH.
Qed.

Lemma keep_out_nil b : keep_out [] b = b.
Proof. by apply filter_all, Forall_forall. Qed.

Lemma remove_cells_nf K m :
  map_ok m -> offset_map.remove_cells K m = map_buckets (keep_out K) m.
Proof.
  revert m. induction K as [|k K IH]; intros m Hok.
  - simpl. symmetry. apply map_buckets_id. apply Forall_forall. intros [k b] Hin.
    split; [apply keep_out_nil|]. apply (map_ok_bucket m k b Hok Hin).
  - unfold offset_map.remove_cells in *. simpl. rewrite remove_cell_nf by done.
    rewrite IH by (by apply map_buckets_ok). rewrite map_buckets_compose by done.
    apply map_buckets_ext. apply Forall_forall. intros kv _. by rewrite keep_out_cons.
Qed.

End remove_facts.

Section first_query_cases.
Implicit Types (x y c t : cell_t) (b out K : list cell_t) (o size : Z)
  (L H m : list (Z * list cell_t)) (f : list cell_t -> list cell_t).

Lemma lookup_mid_of o L b H :
  below o L -> above o H ->
  patricia_tree.lookup o (L ++ mid_of o b ++ H)
    = match b with [] => None | _ => Some b end.
Proof.
  intros HL HH. destruct b as [|z r]; simpl.
  - by apply lookup_without_mid.
  - by apply lookup_with_mid.
Qed.

Lemma bucket_at_mid_of o L b H :
  below o L -> above o H -> bucket_at o (L ++ mid_of o b ++ H) = b.
Proof. intros HL HH. unfold bucket_at. rewrite lookup_mid_of by done. by destruct b. Qed.

Lemma lows_mid_of o L b H :
  below o L -> above o H -> lows o (L ++ mid_of o b ++ H) = L.
Proof.
  intros HL HH. destruct b as [|z r]; simpl.
  - by apply lows_without_mid.
  - by apply lows_with_mid.
Qed.

Lemma highs_mid_of o L b H :
  below o L -> above o H -> highs o (L ++ mid_of o b ++ H) = H.
Proof.
  intros HL HH. destruct b as [|z r]; simpl.
  - by apply highs_without_mid.
  - by apply highs_with_mid.
Qed.

Lemma keys_sorted_mid_of o L b H :
  keys_sorted L -> keys_sorted H -> below o L -> above o H ->
  keys_sorted (L ++ mid_of o b ++ H).
Proof.
  intros HsL HsH HL HH. destruct b as [|z r]; simpl.
  - pose proof (keys_sorted_with_mid o L H [] HsL HsH HL HH) as Hs.
    rewrite <- (lows_with_mid o L H [] HL HH) at 1.
    rewrite <- (highs_with_mid o L H [] HL HH) at 2.
    by apply keys_sorted_remove.
  - by apply keys_sorted_with_mid.
Qed.

Lemma get_cell_null o size L b H :
  below o L -> above o H -> cell_set.find (cell.of_size o size) b = None ->
  offset_map.get_cell o size (L ++ mid_of o b ++ H) = cell.null.
Proof.
  intros HL HH Hf. unfold offset_map.get_cell. rewrite lookup_mid_of by done.
  destruct b as [|z r]; [done|]. by rewrite Hf.
Qed.

Lemma first_query_found o size L b H c :
  0 < size -> below o L -> above o H ->
  cell_set.find (cell.of_size o size) b = Some c ->
  offset_map.get_overlap_cells o size [] (L ++ (o, b) :: H)
    = Done (walks_out c o size L b H, L ++ (o, b) :: H).
Proof.
  intros Hs HL HH Hf.
  destruct (found_not_null o size b c Hs Hf) as (Hin & Hco & Hcs & Hnn).
  unfold offset_map.get_overlap_cells.
  rewrite get_cell_mid by done. rewrite Hf. simpl default. rewrite Hnn.
  cbn [mbind outcome_bind].
  exact (get_overlap_cells_mid o size L b H c false HL HH).
Qed.

Lemma remove_cell_temp o L b H c :
  keys_sorted L -> keys_sorted H -> below o L -> above o H -> _offset c = o ->
  (forall x, x ∈ b -> cell.eqb x c = false) ->
  offset_map.remove_cell c (L ++ (o, (cell_set.insert c b).1) :: H)
    = L ++ mid_of o b ++ H.
Proof.
  intros HsL HsH HL HH Hco Hfresh. unfold offset_map.remove_cell, cell.get_offset.
  rewrite Hco, lookup_with_mid by done. rewrite erase_insert_fresh by done.
  rewrite remove_normal_form by (by apply keys_sorted_with_mid).
  rewrite lows_with_mid, highs_with_mid by done.
  destruct b as [|z r]; [done|].
  rewrite insert_normal_form.
  - by rewrite lows_without_mid, highs_without_mid.
  - apply (keys_sorted_mid_of o L [] H); done.
Qed.

Lemma first_query_fresh o size L b H :
  0 < size -> keys_sorted L -> keys_sorted H -> below o L -> above o H ->
  cell_set.find (cell.of_size o size) b = None ->
  offset_map.get_overlap_cells o size [] (L ++ mid_of o b ++ H)
    = Done (walks_out (cell.of_size o size) o size L
              (cell_set.insert (cell.of_size o size) b).1 H,
            L ++ mid_of o b ++ H).
Proof.
  intros Hs HsL HsH HL HH Hf.
  unfold offset_map.get_overlap_cells.
  rewrite get_cell_null by done.
  change (cell.is_null cell.null) with true. cbv iota.
  rewrite insert_cell_fresh.
  - cbn [_offset cell.of_size]. rewrite bucket_at_mid_of, lows_mid_of, highs_mid_of by done.
    cbn [mbind outcome_bind].
    etrans; [exact (get_overlap_cells_mid o size L _ H _ true HL HH)|].
    cbv iota. f_equal. f_equal. apply remove_cell_temp; try done.
    by apply find_None.
  - by apply keys_sorted_mid_of.
  - done.
  - cbn [_offset cell.of_size]. rewrite bucket_at_mid_of by done. by apply find_None.
Qed.

End first_query_cases.

Section settled_facts.
Implicit Types (x y c t : cell_t) (b out K : list cell_t) (o size : Z)
  (L H m : list (Z * list cell_t)) (f : list cell_t -> list cell_t).

Lemma settled_query o size c m :
  0 < size -> settled o size c m ->
  offset_map.get_overlap_cells o size [] m = Done ([], m)
  /\ offset_map.get_cell o size m = c /\ cell.is_null c = false.
Proof.
  intros Hs (L & b & H & -> & HL & HH & HkL & HkH & Hf & Hb & HqL & HqH).
  split; [by apply (get_overlap_cells_settled o size L b H c)|].
  rewrite get_cell_mid by done. rewrite Hf. split; [done|].
  by destruct (found_not_null o size b c Hs Hf) as (_ & _ & _ & ?).
Qed.

Lemma mk_cell_settled a o size c m g :
  0 < size -> settled o size c m -> cell.has_scalar c = true ->
  offset_map.mk_cell a o size m g = Done (c, m, g).
Proof.
  intros Hs Hset Hsc. destruct (settled_query o size c m Hs Hset) as (_ & Hg & Hnn).
  unfold offset_map.mk_cell. rewrite Hg, Hnn. cbn [mbind outcome_bind].
  by rewrite Hsc.
Qed.

Lemma keyed_map_buckets K m : keyed m -> keyed (map_buckets (keep_out K) m).
Proof.
  unfold keyed. rewrite !Forall_forall. intros Hk kv Hin.
  apply map_buckets_keys in Hin as (b & Hin & -> & _).
  specialize (Hk _ Hin). simpl in Hk. rewrite Forall_forall in Hk.
  apply Forall_forall. intros x Hx. apply list_elem_of_filter in Hx as [_ Hx].
  by apply Hk.
Qed.

Lemma map_buckets_rev_snd f L :
  rev (map_buckets f L).*2 = nonempty_buckets f (rev L.*2).
Proof. by rewrite map_buckets_snd, nonempty_buckets_rev. Qed.

Lemma map_buckets_mid_of f o b :
  map_buckets f (mid_of o b) = mid_of o (match b with [] => [] | _ => f b end).
Proof.
  destruct b as [|z r]; [done|]. unfold mid_of at 1. rewrite map_buckets_cons.
  by destruct (f (z :: r)).
Qed.

End settled_facts.

Section store_pipeline.
Variables (o size : Z) (L H : list (Z * list cell_t)) (b0 : list cell_t).
Hypotheses (Hs : 0 < size) (HL : below o L) (HH : above o H).
Hypotheses (HsL : keys_sorted L) (HsH : keys_sorted H) (HkL : keyed L) (HkH : keyed H).
Hypotheses (HneL : Forall (fun kv => kv.2 <> []) L) (HneH : Forall (fun kv => kv.2 <> []) H).
Implicit Types (x y c t k : cell_t) (b out : list cell_t).

Local Abbreviation T := (cell.of_size o size).
Local Abbreviation K := (killed o size L b0 H).

Lemma target_key c : cell.eqb c T = true -> _offset c = o /\ _size c = size.
Proof. intros E. by apply cell_eqb_spec in E. Qed.

Lemma killed_query :
  offset_map.get_overlap_cells o size [] (L ++ mid_of o b0 ++ H)
    = Done (K, L ++ mid_of o b0 ++ H).
Proof.
  unfold killed. destruct (cell_set.find T b0) as [c|] eqn:Hf.
  - destruct b0 as [|z r]; [done|]. by apply first_query_found.
  - by apply first_query_fresh.
Qed.

Lemma killed_mem k :
  k ∈ K ->
  cell.overlap k o size = true /\ cell.eqb k T = false
  /\ exists b, b ∈ b0 :: L.*2 ++ H.*2 /\ k ∈ b.
Proof.
  unfold killed. destruct (cell_set.find T b0) as [c|] eqn:Hf; intros Hk.
  - destruct (found_not_null o size b0 c Hs Hf) as (Hin & Hco & Hcs & _).
    apply walks_out_mem in Hk as (Hov & Hne & Hb); [|done..].
    repeat split; try done. destruct (cell.eqb k T) eqn:E; [|done].
    rewrite <- Hne. symmetry. apply cell_eqb_spec.
    apply target_key in E as [-> ->]. done.
  - apply walks_out_mem in Hk as (Hov & Hne & b & Hb & Hkb); [|done..].
    repeat split; try done. apply elem_of_cons in Hb as [->|Hb].
    + apply insert_fresh_mem in Hkb; [|by apply find_None].
      destruct Hkb as [->|Hkb].
      * by rewrite cell_eqb_refl in Hne.
      * exists b0. split; [left|done].
    + exists b. split; [by right|done].
Qed.

Lemma killed_covers x :
  x ∈ b0 -> cell.overlap x o size = true -> cell.eqb x T = false ->
  key_in x K = true.
Proof.
  unfold killed. destruct (cell_set.find T b0) as [c|] eqn:Hf; intros Hx Hov Hne.
  - destruct (found_not_null o size b0 c Hs Hf) as (Hin & Hco & Hcs & _).
    apply walks_out_covers; try done.
    rewrite <- Hne. apply cell_eqb_key; done.
  - apply walks_out_covers; try done.
    + apply insert_fresh_mem; [by apply find_None|by left].
    + apply insert_fresh_mem; [by apply find_None|by right].
Qed.

Lemma killed_quiet_low : quiet o size (nonempty_buckets (keep_out K) (rev L.*2)).
Proof.
  unfold killed. destruct (cell_set.find T b0) as [c|] eqn:Hf.
  - destruct (found_not_null o size b0 c Hs Hf) as (Hin & Hco & Hcs & _).
    by apply walks_out_quiet_low.
  - apply walks_out_quiet_low; try done.
    apply insert_fresh_mem; [by apply find_None|by left].
Qed.

Lemma killed_quiet_high : quiet o size (nonempty_buckets (keep_out K) H.*2).
Proof.
  unfold killed. destruct (cell_set.find T b0) as [c|] eqn:Hf.
  - destruct (found_not_null o size b0 c Hs Hf) as (Hin & Hco & Hcs & _).
    by apply walks_out_quiet_high.
  - by apply walks_out_quiet_high.
Qed.

Lemma keep_out_target x :
  x ∈ b0 -> cell.eqb x T = true -> x ∈ keep_out K b0.
Proof.
  intros Hx E. apply list_elem_of_filter. split; [|done].
  apply key_in_false. intros k Hk. apply killed_mem in Hk as (_ & Hne & _).
  destruct (cell.eqb x k) eqn:E2; [|done]. rewrite <- Hne. symmetry.
  rewrite cell_eqb_sym in E2. by apply (cell_eqb_trans k x T).
Qed.

Lemma keep_out_survivor x :
  x ∈ keep_out K b0 -> cell.overlap x o size = true -> cell.eqb x T = true.
Proof.
  intros Hx Hov. apply list_elem_of_filter in Hx as [Hout Hx].
  destruct (cell.eqb x T) eqn:E; [done|].
  by rewrite (killed_covers x Hx Hov E) in Hout.
Qed.

Lemma store_mk_cell a g :
  (forall x, x ∈ b0 -> cell.has_scalar x = true) ->
  exists c m3 g',
    offset_map.mk_cell a o size (map_buckets (keep_out K) (L ++ mid_of o b0 ++ H)) g
      = Done (c, m3, g')
    /\ cell.has_scalar c = true /\ settled o size c m3.
Proof.
  intros Hsc. rewrite !map_buckets_app, map_buckets_mid_of.
  assert (match b0 with [] => [] | _ :: _ => keep_out K b0 end = keep_out K b0) as ->
    by (by destruct b0).
  pose proof (map_buckets_below (keep_out K) o L HL) as HL'.
  pose proof (map_buckets_above (keep_out K) o H HH) as HH'.
  pose proof (keyed_map_buckets K L HkL) as HkL'.
  pose proof (keyed_map_buckets K H HkH) as HkH'.
  pose proof (map_buckets_sorted (keep_out K) L HsL) as HsL'.
  pose proof (map_buckets_sorted (keep_out K) H HsH) as HsH'.
  pose proof killed_quiet_low as HqL. rewrite <- map_buckets_rev_snd in HqL.
  pose proof killed_quiet_high as HqH. rewrite <- map_buckets_snd in HqH.
  destruct (cell_set.find T b0) as [c0|] eqn:Hf.
  - destruct (found_not_null o size b0 c0 Hs Hf) as (Hin0 & _ & _ & _).
    apply find_Some in Hf as [_ E0].
    pose proof (keep_out_target c0 Hin0 E0) as Hkeep.
    destruct (cell_set.find T (keep_out K b0)) as [c|] eqn:Hf'.
    2:{ rewrite find_None in Hf'. by rewrite (Hf' c0 Hkeep) in E0. }
    destruct (found_not_null o size _ c Hs Hf') as (Hin & Hco & Hcs & Hnn).
    assert (cell.has_scalar c = true) as Hc.
    { apply Hsc. by apply list_elem_of_filter in Hin as [_ ?]. }
    assert (settled o size c
              (map_buckets (keep_out K) L ++ (o, keep_out K b0)
                 :: map_buckets (keep_out K) H)) as Hset.
    { exists (map_buckets (keep_out K) L), (keep_out K b0), (map_buckets (keep_out K) H).
      repeat split; try done. intros x Hx Hov.
      pose proof (keep_out_survivor x Hx Hov) as E.
      apply cell_eqb_spec. apply target_key in E as [-> ->]. done. }
    exists c, (map_buckets (keep_out K) L ++ (o, keep_out K b0)
                 :: map_buckets (keep_out K) H), g.
    split; [|done]. destruct (keep_out K b0) as [|z r] eqn:Ek.
    { by apply elem_of_nil in Hin. }
    by apply mk_cell_settled.
  - assert (forall x, x ∈ keep_out K b0 -> cell.eqb x T = false) as Hfresh.
    { intros x Hx. apply list_elem_of_filter in Hx as [_ Hx].
      by apply (proj1 (find_None T b0) Hf). }
    unfold offset_map.mk_cell.
    rewrite get_cell_null by (done || by apply find_None).
    change (cell.is_null cell.null) with true. cbv iota.
    destruct (offset_map.get_index a o size g) as [vindex g1].
    set (c := cell.of_scalar o
                (Variable_ (Shadow vindex)
                   (offset_map.get_array_element_type (get_type a)) size)).
    assert (forall x, x ∈ keep_out K b0 -> cell.eqb x c = false) as Hfresh'.
    { intros x Hx. rewrite <- (Hfresh x Hx). by apply cell_eqb_key. }
    rewrite insert_cell_fresh.
    + change (_offset c) with o.
      rewrite bucket_at_mid_of, lows_mid_of, highs_mid_of by done.
      cbn [mbind outcome_bind]. change (cell.has_scalar c) with true. cbv iota.
      eexists _, _, _. split; [done|]. split; [done|].
      exists (map_buckets (keep_out K) L), (cell_set.insert c (keep_out K b0)).1,
        (map_buckets (keep_out K) H).
      repeat split; try done.
      * apply find_insert_fresh; [by apply cell_eqb_spec|done].
      * intros x Hx Hov. apply insert_fresh_mem in Hx; [|done].
        destruct Hx as [->|Hx]; [apply cell_eqb_refl|].
        pose proof (keep_out_survivor x Hx Hov) as E. by rewrite (Hfresh x Hx) in E.
    + by apply keys_sorted_mid_of.
    + done.
    + change (_offset c) with o. by rewrite bucket_at_mid_of.
Qed.

End store_pipeline.

Section store_map.
Implicit Types (x y c t k : cell_t) (b out K : list cell_t) (o size : Z)
  (L H m : list (Z * list cell_t)).

Lemma mid_bucket_at o m : map_ok m -> mid o m = mid_of o (bucket_at o m).
Proof.
  intros Hok. pose proof Hok as [Hs _]. unfold mid, bucket_at.
  destruct (patricia_tree.lookup o m) as [b|] eqn:El; [|done].
  destruct (map_ok_bucket m o b Hok (lookup_Some_elem o m b Hs El)) as (Hne & _).
  by destruct b.
Qed.

Lemma map_ok_keyed m : map_ok m -> keyed m.
Proof.
  intros [_ Hb]. unfold keyed. eapply Forall_impl; [exact Hb|].
  by intros kv (_ & ? & _).
Qed.

Lemma map_ok_nonempty m : map_ok m -> Forall (fun kv => kv.2 <> []) m.
Proof. intros [_ Hb]. eapply Forall_impl; [exact Hb|]. by intros kv (? & _). Qed.

Lemma Forall_lows {P : Z * list cell_t -> Prop} o m : Forall P m -> Forall P (lows o m).
Proof.
  rewrite !Forall_forall. intros HP kv Hin. apply HP.
  by apply list_elem_of_filter in Hin as [_ ?].
Qed.

Lemma Forall_highs {P : Z * list cell_t -> Prop} o m : Forall P m -> Forall P (highs o m).
Proof.
  rewrite !Forall_forall. intros HP kv Hin. apply HP.
  by apply list_elem_of_filter in Hin as [_ ?].
Qed.

Lemma store_map_settles a o size m g :
  0 < size -> map_ok m -> all_scalars m ->
  exists K c m3 g',
    offset_map.get_overlap_cells o size [] m = Done (K, m)
    /\ Forall (fun k => cell.has_scalar k = true) K
    /\ offset_map.mk_cell a o size (offset_map.remove_cells K m) g = Done (c, m3, g')
    /\ cell.has_scalar c = true /\ settled o size c m3.
Proof.
  intros Hs Hok Hsc. pose proof Hok as [Hsorted _].
  pose proof (split3 o m Hsorted) as Hm. rewrite (mid_bucket_at o m Hok) in Hm.
  pose proof (lows_below o m) as HL. pose proof (highs_above o m) as HH.
  pose proof (keys_sorted_lows o m Hsorted) as HsL.
  pose proof (keys_sorted_highs o m Hsorted) as HsH.
  pose proof (Forall_lows o m (map_ok_keyed m Hok)) as HkL.
  pose proof (Forall_highs o m (map_ok_keyed m Hok)) as HkH.
  pose proof (Forall_lows o m (map_ok_nonempty m Hok)) as HneL.
  pose proof (Forall_highs o m (map_ok_nonempty m Hok)) as HneH.
  assert (forall b x, b ∈ bucket_at o m :: (lows o m).*2 ++ (highs o m).*2 ->
                      x ∈ b -> cell.has_scalar x = true) as Hcells.
  { intros b x Hb Hx. unfold all_scalars in Hsc. rewrite Forall_forall in Hsc.
    assert (b = [] \/ exists j : Z, (j, b) ∈ m) as [->|[j Hin]].
    { apply elem_of_cons in Hb as [->|Hb].
      - unfold bucket_at. destruct (patricia_tree.lookup o m) as [b'|] eqn:El; [|by left].
        right. exists o. by apply lookup_Some_elem.
      - right. apply elem_of_app in Hb as [Hb|Hb];
          apply list_elem_of_fmap in Hb as ([j b'] & -> & Hin);
          apply list_elem_of_filter in Hin as [_ Hin]; by exists j. }
    - by apply elem_of_nil in Hx.
    - specialize (Hsc _ Hin). simpl in Hsc. rewrite Forall_forall in Hsc. by apply Hsc. }
  revert Hm HL HH HsL HsH HkL HkH HneL HneH Hcells.
  generalize (lows o m) (highs o m) (bucket_at o m). intros L H b0 -> **.
  destruct (store_mk_cell o size L H b0 Hs HL HH HsL HsH HkL HkH HneL HneH a g)
    as (c & m3 & g' & Hmk & Hc & Hset).
  { intros x Hx. apply (Hcells b0); [left|done]. }
  exists (killed o size L b0 H), c, m3, g'. split; [by apply killed_query|].
  rewrite remove_cells_nf by done. split; [|done]. apply Forall_forall. intros k Hk.
  apply killed_mem in Hk as (_ & _ & b & Hb & Hkb); try done. by apply (Hcells b).
Qed.

End store_map.

Section store_then_load.
Context {NumDomain_t : Type} `{!NumDomain NumDomain_t}.
Local Abbreviation state_t := (@array_expansion_domain_t NumDomain_t).

Lemma forget_cells_scalars (K : list cell_t) (inv : NumDomain_t) :
  Forall (fun k => cell.has_scalar k = true) K ->
  exists inv', forget_cells K inv = Done inv'.
Proof.
  intros HK. revert inv. induction HK as [|k K Hk HK IH]; intros inv; [by eexists|].
  simpl. rewrite Hk. unfold cell.get_scalar, cell.has_scalar in *.
  destruct (_scalar k) as [v|]; [|done]. cbn [mbind outcome_bind]. apply IH.
Qed.

Lemma separate_domain_get_set (a : variable_t) (m : list (Z * list cell_t))
    (M : gmap varname_t (list (Z * list cell_t))) :
  separate_domain_get a (separate_domain_set a m M) = m.
Proof.
  unfold separate_domain_get, separate_domain_set. destruct m as [|kv m].
  - by rewrite lookup_delete_eq.
  - by rewrite lookup_insert_eq.
Qed.

Lemma separate_domain_set_twice (a : variable_t) (m : list (Z * list cell_t))
    (M : gmap varname_t (list (Z * list cell_t))) :
  separate_domain_set a m (separate_domain_set a m M) = separate_domain_set a m M.
Proof.
  unfold separate_domain_set. destruct m as [|kv m].
  - by rewrite delete_delete_eq.
  - by rewrite insert_insert_eq.
Qed.

(** C1. Storing v at a constant index with a constant, positive element size
    into a non-bottom state whose offset map for the array is well formed
    returns a state in which the scalar of the target cell has been assigned
    v; a load from the same index and element size on that state, when it is
    neither bottom nor top and the index and element size still evaluate to
    the same constants, finds no overlapping cell and assigns that same
    scalar to lhs. *)
Theorem store_then_load_reads_stored_cell (a lhs : variable_t)
    (elem_size i v : linear_expression_t) (is_singleton : bool)
    (s : state_t) (g : globals_t) (o size : Z) :
  is_bottom s = false ->
  interval.singleton (to_interval i s) = Some o ->
  interval.singleton (to_interval elem_size s) = Some size ->
  0 < size ->
  map_ok (separate_domain_get a (_array_map s)) ->
  all_scalars (separate_domain_get a (_array_map s)) ->
  exists (s' : state_t) g' scalar inv,
    array_store a elem_size i v is_singleton s g = Done (s', g')
    /\ _inv s' = d_assign scalar v inv
    /\ (is_bottom s' || is_top s' = false ->
        interval.singleton (to_interval i s') = Some o ->
        interval.singleton (to_interval elem_size s') = Some size ->
        exists g'',
          array_load lhs a elem_size i s' g'
            = Done (ArrayExpansion (_array_map s')
                      (d_assign lhs (exp_of_variable scalar) (_inv s')), g'')).
Proof.
  intros Hnb Hi Hes Hs Hok Hsc.
  destruct (store_map_settles a o size _ g Hs Hok Hsc)
    as (K & c & m3 & g' & Hq & HK & Hmk & Hc & Hset).
  destruct (forget_cells_scalars K (_inv s) HK) as [inv' Hfg].
  unfold cell.has_scalar in Hc. destruct (_scalar c) as [scalar|] eqn:Esc; [|done].
  exists (ArrayExpansion (separate_domain_set a m3 (_array_map s))
            (d_assign scalar v inv')), g', scalar, inv'.
  split; [|split; [done|]].
  - unfold array_store. rewrite Hnb, Hi, Hes, Hq. cbn [mbind outcome_bind].
    assert (match K with
            | [] => Done (_inv s, separate_domain_get a (_array_map s))
            | _ :: _ =>
                inv ← forget_cells K (_inv s);
                Done (inv, offset_map.remove_cells K
                             (separate_domain_get a (_array_map s)))
            end
            = Done (inv', offset_map.remove_cells K
                            (separate_domain_get a (_array_map s)))) as ->.
    { destruct K as [|k K]; [by injection Hfg as ->|]. by rewrite Hfg. }
    cbn [mbind outcome_bind]. rewrite Hmk. cbn [mbind outcome_bind].
    unfold cell.get_scalar. rewrite Esc. done.
  - intros Hguard Hi' Hes'. unfold array_load. rewrite Hguard, Hi', Hes'.
    cbn [_array_map _inv]. rewrite separate_domain_get_set.
    destruct (settled_query o size c m3 Hs Hset) as (Hq2 & _). rewrite Hq2.
    cbn [mbind outcome_bind].
    rewrite (mk_cell_settled a o size c m3 g' Hs Hset)
      by (unfold cell.has_scalar; by rewrite Esc).
    cbn [mbind outcome_bind]. unfold cell.get_scalar. rewrite Esc.
    cbn [mbind outcome_bind]. rewrite separate_domain_set_twice. by eexists.
Qed.

End store_then_load.

(** *** The offset maps stay well formed *)

Section wf_preserved.
Implicit Types (x y c t k : cell_t) (b out K : list cell_t) (o size : Z)
  (L H m : list (Z * list cell_t)).

Lemma map_ok_nil : map_ok [] /\ all_scalars [].
Proof. repeat split; constructor. Qed.

Lemma bucket_at_ok o m :
  map_ok m ->
  Forall (fun x => _offset x = o) (bucket_at o m)
  /\ StronglySorted Z.lt (_size <$> bucket_at o m).
Proof.
  intros Hok. pose proof Hok as [Hs _]. unfold bucket_at.
  destruct (patricia_tree.lookup o m) as [b|] eqn:El; simpl.
  - by destruct (map_ok_bucket m o b Hok (lookup_Some_elem o m b Hs El)) as (_ & ? & ?).
  - split; constructor.
Qed.

Lemma bucket_at_scalars o m x :
  keys_sorted m -> all_scalars m -> x ∈ bucket_at o m -> cell.has_scalar x = true.
Proof.
  intros Hs Hsc Hx. unfold bucket_at in Hx.
  destruct (patricia_tree.lookup o m) as [b|] eqn:El; simpl in Hx.
  - unfold all_scalars in Hsc. rewrite Forall_forall in Hsc.
    specialize (Hsc _ (lookup_Some_elem o m b Hs El)). simpl in Hsc.
    rewrite Forall_forall in Hsc. by apply Hsc.
  - by apply elem_of_nil in Hx.
Qed.

Lemma map_buckets_scalars K m : all_scalars m -> all_scalars (map_buckets (keep_out K) m).
Proof.
  unfold all_scalars. rewrite !Forall_forall. intros Hsc kv Hin.
  apply map_buckets_keys in Hin as (b & Hin & -> & _).
  specialize (Hsc _ Hin). simpl in Hsc. rewrite Forall_forall in Hsc.
  apply Forall_forall. intros x Hx. apply list_elem_of_filter in Hx as [_ Hx].
  by apply Hsc.
Qed.

Lemma remove_cells_wf K m :
  map_ok m -> all_scalars m ->
  map_ok (offset_map.remove_cells K m) /\ all_scalars (offset_map.remove_cells K m).
Proof.
  intros Hok Hsc. rewrite remove_cells_nf by done. split.
  - by apply map_buckets_ok.
  - by apply map_buckets_scalars.
Qed.

Lemma get_cell_null_fresh o size m :
  0 < size -> cell.is_null (offset_map.get_cell o size m) = true ->
  forall x, x ∈ bucket_at o m -> cell.eqb x (cell.of_size o size) = false.
Proof.
  intros Hs Hnull. unfold offset_map.get_cell, bucket_at in *.
  destruct (patricia_tree.lookup o m) as [b|]; simpl.
  - destruct (cell_set.find (cell.of_size o size) b) as [c|] eqn:Hf.
    + destruct (found_not_null o size b c Hs Hf) as (_ & _ & _ & Hnn).
      by rewrite Hnn in Hnull.
    + by apply find_None.
  - intros x Hx. by apply elem_of_nil in Hx.
Qed.

Lemma mk_cell_wf a o size m g c m' g' :
  0 < size -> map_ok m -> all_scalars m ->
  offset_map.mk_cell a o size m g = Done (c, m', g') ->
  map_ok m' /\ all_scalars m'.
Proof.
  intros Hs Hok Hsc. pose proof Hok as [Hsorted Hbs]. unfold offset_map.mk_cell.
  destruct (cell.is_null (offset_map.get_cell o size m)) eqn:Hnull.
  2:{ cbn [mbind outcome_bind]. destruct (negb _); [done|]. by intros [= _ <- _]. }
  destruct (offset_map.get_index a o size g) as [vindex g1].
  set (c1 := cell.of_scalar o
               (Variable_ (Shadow vindex)
                  (offset_map.get_array_element_type (get_type a)) size)).
  assert (forall x, x ∈ bucket_at o m -> cell.eqb x c1 = false) as Hfresh.
  { intros x Hx. rewrite <- (get_cell_null_fresh o size m Hs Hnull x Hx).
    by apply cell_eqb_key. }
  rewrite insert_cell_fresh; [|done|done|done].
  change (_offset c1) with o. cbn [mbind outcome_bind].
  change (cell.has_scalar c1) with true. cbv iota. intros [= _ <- _].
  destruct (bucket_at_ok o m Hok) as [Hk0 Hs0].
  destruct (insert_fresh o c1 (bucket_at o m) Hk0 Hs0 eq_refl Hfresh)
    as (b' & Hins & Hperm & Hsb').
  rewrite Hins. cbn [fst]. split; [split|].
  - apply keys_sorted_with_mid;
      [by apply keys_sorted_lows|by apply keys_sorted_highs
      |apply lows_below|apply highs_above].
  - apply Forall_app. split; [by apply Forall_lows|].
    constructor; [|by apply Forall_highs]. cbn [fst snd]. split; [|split; [|done]].
    + intros ->. by apply Permutation_nil_cons in Hperm.
    + rewrite Hperm. by constructor.
  - unfold all_scalars. apply Forall_app. split; [by apply Forall_lows|].
    constructor; [|by apply Forall_highs]. cbn [snd]. rewrite Hperm.
    constructor; [done|]. apply Forall_forall. intros x Hx.
    by apply (bucket_at_scalars o m x).
Qed.

End wf_preserved.

Section wf_states.
Context {NumDomain_t : Type} `{!NumDomain NumDomain_t}.
Local Abbreviation state_t := (@array_expansion_domain_t NumDomain_t).

Lemma wf_maps_get (a : variable_t) (M : gmap varname_t (list (Z * list cell_t))) :
  wf_maps M ->
  map_ok (separate_domain_get a M) /\ all_scalars (separate_domain_get a M).
Proof.
  intros Hwf. unfold separate_domain_get.
  destruct (M !! name a) as [m|] eqn:E; simpl; [by apply (Hwf (name a))|].
  apply map_ok_nil.
Qed.

Lemma wf_maps_set (a : variable_t) (m : list (Z * list cell_t))
    (M : gmap varname_t (list (Z * list cell_t))) :
  wf_maps M -> map_ok m -> all_scalars m -> wf_maps (separate_domain_set a m M).
Proof.
  intros Hwf Hok Hsc n m' Hn. unfold separate_domain_set in Hn.
  destruct m as [|kv m].
  - apply lookup_delete_Some in Hn as [_ Hn]. by apply (Hwf n).
  - apply lookup_insert_Some in Hn as [[_ <-]|[_ Hn]]; [done|by apply (Hwf n)].
Qed.

Lemma wf_maps_top : wf_maps (_array_map (top (NumDomain_t := NumDomain_t))).
Proof. intros n m Hn. cbn [top _array_map] in Hn. by rewrite lookup_empty in Hn. Qed.

(** A store with a positive element size keeps the offset maps well formed. *)
Lemma array_store_wf (a : variable_t) (elem_size i v : linear_expression_t)
    (is_singleton : bool) (s s' : state_t) (g g' : globals_t) :
  wf_maps (_array_map s) ->
  (forall size, interval.singleton (to_interval elem_size s) = Some size -> 0 < size) ->
  array_store a elem_size i v is_singleton s g = Done (s', g') ->
  wf_maps (_array_map s').
Proof.
  intros Hwf Hpos. unfold array_store.
  destruct (is_bottom s); [by intros [= <- _]|].
  destruct (interval.singleton (to_interval i s)) as [o|]; [|by intros [= <- _]].
  destruct (interval.singleton (to_interval elem_size s)) as [size|] eqn:Hes;
    [|by intros [= <- _]].
  specialize (Hpos size eq_refl).
  destruct (wf_maps_get a _ Hwf) as [Hok Hsc].
  destruct (store_map_settles a o size _ g Hpos Hok Hsc)
    as (K & c & m3 & g3 & Hq & HK & Hmk & Hc & Hset).
  rewrite Hq. cbn [mbind outcome_bind].
  destruct (remove_cells_wf K _ Hok Hsc) as [Hok2 Hsc2].
  destruct (mk_cell_wf a o size _ g c m3 g3 Hpos Hok2 Hsc2 Hmk) as [Hok3 Hsc3].
  destruct (forget_cells_scalars K (_inv s) HK) as [inv' Hfg].
  assert (match K with
          | [] => Done (_inv s, separate_domain_get a (_array_map s))
          | _ :: _ =>
              inv ← forget_cells K (_inv s);
              Done (inv, offset_map.remove_cells K
                           (separate_domain_get a (_array_map s)))
          end
          = Done (inv', offset_map.remove_cells K
                          (separate_domain_get a (_array_map s)))) as ->.
  { destruct K as [|k K]; [by injection Hfg as ->|]. by rewrite Hfg. }
  cbn [mbind outcome_bind]. rewrite Hmk. cbn [mbind outcome_bind].
  destruct (cell.get_scalar c); cbn [mbind outcome_bind]; [|done..].
  intros [= <- _]. cbn [_array_map]. by apply wf_maps_set.
Qed.

(** A load with a positive element size keeps the offset maps well formed. *)
Lemma array_load_wf (lhs a : variable_t) (elem_size i : linear_expression_t)
    (s s' : state_t) (g g' : globals_t) :
  wf_maps (_array_map s) ->
  (forall size, interval.singleton (to_interval elem_size s) = Some size -> 0 < size) ->
  array_load lhs a elem_size i s g = Done (s', g') ->
  wf_maps (_array_map s').
Proof.
  intros Hwf Hpos. unfold array_load.
  destruct (is_bottom s || is_top s); [by intros [= <- _]|].
  destruct (interval.singleton (to_interval i s)) as [o|]; [|by intros [= <- _]].
  destruct (interval.singleton (to_interval elem_size s)) as [size|] eqn:Hes;
    [|by intros [= <- _]].
  specialize (Hpos size eq_refl).
  destruct (wf_maps_get a _ Hwf) as [Hok Hsc].
  destruct (store_map_settles a o size _ g Hpos Hok Hsc)
    as (K & c & m3 & g3 & Hq & HK & Hmk & Hc & Hset).
  rewrite Hq. cbn [mbind outcome_bind].
  destruct K as [|k K]; [|by intros [= <- _]].
  change (offset_map.remove_cells [] ?m) with m in Hmk.
  destruct (mk_cell_wf a o size _ g c m3 g3 Hpos Hok Hsc Hmk) as [Hok3 Hsc3].
  rewrite Hmk. cbn [mbind outcome_bind].
  destruct (cell.get_scalar c); cbn [mbind outcome_bind]; [|done..].
  intros [= <- _]. cbn [_array_map]. by apply wf_maps_set.
Qed.

End wf_states.

Example store_in_top_state :
  array_store exp_a (exp_of_number 4) (exp_of_number 0) (exp_of_number 5) false
    array_expansion.top no_globals
  = Done (exp_a0_is_5, exp_globals04).
Proof. vm_compute. reflexivity. Qed.

Example store_then_load_scenario :
  array_store exp_a (exp_of_number 4) (exp_of_number 2) (exp_of_number 7) false
    exp_a0_is_5 exp_globals04 = Done (exp_a2_is_7, exp_globals24)
  /\ array_load exp_x exp_a (exp_of_number 4) (exp_of_number 2) exp_a2_is_7 exp_globals24
     = Done (exp_x_is_a2, exp_globals24)
  /\ d_interval (_inv exp_x_is_a2) exp_x = Interval (finite 7) (finite 7).
Proof. split; [|split]; vm_compute; reflexivity. Qed.

Lemma store_then_load_reads_stored_cell_witness :
  is_bottom exp_a0_is_5 = false
  /\ interval.singleton (to_interval (exp_of_number 2) exp_a0_is_5) = Some 2
  /\ interval.singleton (to_interval (exp_of_number 4) exp_a0_is_5) = Some 4
  /\ 0 < 4
  /\ map_ok (separate_domain_get exp_a (_array_map exp_a0_is_5))
  /\ all_scalars (separate_domain_get exp_a (_array_map exp_a0_is_5))
  /\ exists (s' : array_expansion_domain_t) g' scalar inv,
       array_store exp_a (exp_of_number 4) (exp_of_number 2) (exp_of_number 7) false
         exp_a0_is_5 exp_globals04 = Done (s', g')
       /\ _inv s' = d_assign scalar (exp_of_number 7) inv
       /\ (is_bottom s' || is_top s' = false ->
           interval.singleton (to_interval (exp_of_number 2) s') = Some 2 ->
           interval.singleton (to_interval (exp_of_number 4) s') = Some 4 ->
           exists g'',
             array_load exp_x exp_a (exp_of_number 4) (exp_of_number 2) s' g'
               = Done (ArrayExpansion (_array_map s')
                         (d_assign exp_x (exp_of_variable scalar) (_inv s')), g'')).
Proof.
  assert (is_bottom exp_a0_is_5 = false) as H1 by reflexivity.
  assert (interval.singleton (to_interval (exp_of_number 2) exp_a0_is_5) = Some 2)
    as H2 by (vm_compute; reflexivity).
  assert (interval.singleton (to_interval (exp_of_number 4) exp_a0_is_5) = Some 4)
    as H3 by (vm_compute; reflexivity).
  assert (0 < 4) as H4 by lia.
  assert (map_ok (separate_domain_get exp_a (_array_map exp_a0_is_5))) as H5.
  { vm_compute. split; [repeat constructor|]. repeat constructor; done. }
  assert (all_scalars (separate_domain_get exp_a (_array_map exp_a0_is_5))) as H6.
  { vm_compute. repeat constructor. }
  split; [exact H1|]. split; [exact H2|]. split; [exact H3|]. split; [exact H4|].
  split; [exact H5|]. split; [exact H6|].
  exact (store_then_load_reads_stored_cell exp_a exp_x (exp_of_number 4)
           (exp_of_number 2) (exp_of_number 7) false exp_a0_is_5 exp_globals04 2 4
           H1 H2 H3 H4 H5 H6).
Defined.

End expansion_store_load.

(** ** Cells and offset maps of the array expansion domain *)

Section cell_properties.
Import array_expansion.

Implicit Types (x y z c : cell_t) (o size : Z).

(** X1. A cell overlaps the range (o, size) exactly when both ranges are
    not empty and their byte ranges [offset, offset + size - 1] meet. *)
Theorem cell_overlap_iff_ranges_meet x o size :
  cell.overlap x o size = true
  <-> 0 < _size x /\ 0 < size /\ _offset x < o + size /\ o < _offset x + _size x.
Proof.
  unfold cell.overlap, cell.to_interval, cell.get_offset, cell.get_size,
    interval.meet, interval.is_bottom, interval.make, interval.bottom,
    bound_ltb, bound_leb, bound_max, bound_min.
  destruct x as [ox sx vx]. simpl.
  repeat (match goal with
          | |- context [?a <=? ?b] =>
              let E := fresh "E" in
              destruct (a <=? b) eqn:E;
              [apply Z.leb_le in E | apply Z.leb_gt in E]; simpl
          end); split; intros; try done; try lia.
Qed.

Lemma cell_ltb_spec x y :
  cell.ltb x y = true
  <-> _offset x < _offset y \/ (_offset x = _offset y /\ _size x < _size y).
Proof.
  unfold cell.ltb, cell.get_offset, cell.get_size.
  destruct (Z.ltb_spec (_offset x) (_offset y)); [by split; [left|]|].
  destruct (Z.eqb_spec (_offset x) (_offset y)); [rewrite Z.ltb_lt; lia|].
  split; [done|lia].
Qed.

(** X2. operator< on cells is a strict total order up to operator==:
    of a < b, a == b and b < a exactly one holds, and < is transitive. *)
Theorem cell_ltb_strict_total x y z :
  (cell.ltb x y = true /\ cell.eqb x y = false /\ cell.ltb y x = false
   \/ cell.ltb x y = false /\ cell.eqb x y = true /\ cell.ltb y x = false
   \/ cell.ltb x y = false /\ cell.eqb x y = false /\ cell.ltb y x = true)
  /\ (cell.ltb x y = true -> cell.ltb y z = true -> cell.ltb x z = true).
Proof.
  rewrite <- !not_true_iff_false, !cell_ltb_spec, !cell_eqb_spec. lia.
Qed.

End cell_properties.

Section offset_map_round_trips.
Import array_expansion.

Implicit Types (x y c t k : cell_t) (b out K : list cell_t) (o size : Z)
  (L H m : list (Z * list cell_t)) (f : list cell_t -> list cell_t).

Lemma find_key c c' b :
  _offset c = _offset c' -> _size c = _size c' ->
  cell_set.find c b = cell_set.find c' b.
Proof.
  intros Ho Hs. induction b as [|z b IH]; [done|]. simpl.
  by rewrite (cell_eqb_key z c c' Ho Hs), IH.
Qed.

Lemma get_cell_bucket_at o size m :
  offset_map.get_cell o size m
    = default cell.null (cell_set.find (cell.of_size o size) (bucket_at o m)).
Proof.
  unfold offset_map.get_cell, bucket_at.
  destruct (patricia_tree.lookup o m) as [b|]; simpl; [|done].
  by destruct (cell_set.find _ b).
Qed.

Lemma map_split o m :
  map_ok m -> m = lows o m ++ mid_of o (bucket_at o m) ++ highs o m.
Proof.
  intros Hok. rewrite <- (mid_bucket_at o m Hok). apply split3, Hok.
Qed.

Lemma bucket_at_map_buckets f o m :
  map_ok m -> f [] = [] -> bucket_at o (map_buckets f m) = f (bucket_at o m).
Proof.
  intros Hok Hnil. rewrite (map_split o m Hok) at 1.
  rewrite !map_buckets_app, map_buckets_mid_of.
  rewrite bucket_at_mid_of
    by (apply map_buckets_below, lows_below || apply map_buckets_above, highs_above).
  destruct (bucket_at o m); [by rewrite Hnil|done].
Qed.

Lemma find_filter_other t c b :
  cell.eqb t c = false ->
  cell_set.find t (filter (fun x => cell.eqb x c = false) b) = cell_set.find t b.
Proof.
  intros Hne. induction b as [|z b IH]; [done|].
  destruct (cell.eqb z c) eqn:E.
  - rewrite filter_cons_False by (by rewrite E). simpl.
    assert (cell.eqb z t = false) as ->; [|done].
    destruct (cell.eqb z t) eqn:E2; [|done]. rewrite <- Hne. symmetry.
    rewrite cell_eqb_sym in E2. by apply (cell_eqb_trans t z c).
  - rewrite filter_cons_True by done. simpl. by rewrite IH.
Qed.

Lemma find_filter_same t c b :
  cell.eqb t c = true ->
  cell_set.find t (filter (fun x => cell.eqb x c = false) b) = None.
Proof.
  intros He. apply find_None. intros x Hx. apply list_elem_of_filter in Hx as [Hx _].
  destruct (cell.eqb x t) eqn:E; [|done]. rewrite <- Hx. symmetry.
  by apply (cell_eqb_trans x t c).
Qed.

(** X3. insert_cell followed by get_cell: the lookup of the inserted
    cell's offset and size returns the cell that was already stored under
    them, if any (the std::set keeps its element and the map is unchanged),
    and the inserted cell otherwise. *)
Theorem insert_cell_then_get_cell c (chk : bool) m m' :
  map_ok m ->
  offset_map.insert_cell c chk m = Done m' ->
  offset_map.get_cell (_offset c) (_size c) m'
    = default c (cell_set.find c (bucket_at (_offset c) m))
  /\ (is_Some (cell_set.find c (bucket_at (_offset c) m)) -> m' = m).
Proof.
  intros Hok Hins. pose proof Hok as [Hs _].
  assert (chk && negb (cell.has_scalar c) = false) as Hchk.
  { unfold offset_map.insert_cell in Hins. by destruct (chk && negb _). }
  destruct (cell_set.find c (bucket_at (_offset c) m)) as [x|] eqn:Hf.
  - apply find_Some in Hf as Hx. destruct Hx as [Hin Hxc].
    destruct (bucket_at_ok (_offset c) m Hok) as [Hk0 Hs0].
    unfold offset_map.insert_cell in Hins. rewrite Hchk in Hins.
    unfold bucket_at, cell.get_offset in *.
    destruct (patricia_tree.lookup (_offset c) m) as [b|] eqn:El; simpl in *.
    2:{ by apply elem_of_nil in Hin. }
    rewrite (insert_present (_offset c) c b x Hk0 Hs0 Hin Hxc) in Hins.
    injection Hins as <-. split; [|done].
    rewrite get_cell_bucket_at. unfold bucket_at. rewrite El. simpl.
    by rewrite (find_key (cell.of_size (_offset c) (_size c)) c b eq_refl eq_refl), Hf.
  - rewrite insert_cell_fresh in Hins by (done || by apply find_None).
    injection Hins as <-. split; [|by intros [? ?]].
    rewrite get_cell_mid by apply lows_below.
    rewrite find_insert_fresh; [done|by apply cell_eqb_spec|by apply find_None].
Qed.

(** X4. remove_cell followed by get_cell: the removed offset and size are
    no longer found (the null cell comes back), and every other lookup is
    as before. *)
Theorem remove_cell_then_get_cell c m o size :
  map_ok m ->
  offset_map.get_cell o size (offset_map.remove_cell c m)
    = if cell.eqb (cell.of_size o size) c then cell.null
      else offset_map.get_cell o size m.
Proof.
  intros Hok. rewrite remove_cell_nf by done.
  rewrite !get_cell_bucket_at, bucket_at_map_buckets by done.
  destruct (cell.eqb (cell.of_size o size) c) eqn:E.
  - by rewrite find_filter_same.
  - by rewrite find_filter_other.
Qed.

(** X5. Inserting a cell that is not in the map and removing it again
    gives the map back: the temporary cell of get_overlap_cells leaves no
    trace. *)
Theorem insert_cell_then_remove_cell c (chk : bool) m m' :
  map_ok m ->
  cell_set.find c (bucket_at (_offset c) m) = None ->
  offset_map.insert_cell c chk m = Done m' ->
  offset_map.remove_cell c m' = m.
Proof.
  intros Hok Hf Hins. pose proof Hok as [Hs _].
  assert (chk && negb (cell.has_scalar c) = false) as Hchk.
  { unfold offset_map.insert_cell in Hins. by destruct (chk && negb _). }
  rewrite insert_cell_fresh in Hins by (done || by apply find_None).
  injection Hins as <-.
  rewrite remove_cell_temp;
    [|by apply keys_sorted_lows|by apply keys_sorted_highs
     |apply lows_below|apply highs_above|done|by apply find_None].
  symmetry. by apply map_split.
Qed.

Lemma get_cell_remove_cells K m o size :
  map_ok m ->
  offset_map.get_cell o size (offset_map.remove_cells K m)
    = if key_in (cell.of_size o size) K then cell.null
      else offset_map.get_cell o size m.
Proof.
  intros Hok. rewrite remove_cells_nf by done.
  rewrite !get_cell_bucket_at, bucket_at_map_buckets by done.
  destruct (key_in (cell.of_size o size) K) eqn:E.
  - assert (cell_set.find (cell.of_size o size) (keep_out K (bucket_at o m)) = None)
      as ->; [|done].
    apply find_None. intros x Hx. apply list_elem_of_filter in Hx as [Hx _].
    destruct (cell.eqb x (cell.of_size o size)) eqn:E2; [|done].
    rewrite <- Hx. symmetry. apply key_in_spec in E as (k & Hk & E).
    apply key_in_spec. exists k. split; [done|].
    by apply (cell_eqb_trans x (cell.of_size o size) k).
  - f_equal. induction (bucket_at o m) as [|z b IH]; [done|].
    unfold keep_out in *. destruct (key_in z K) eqn:Ez.
    + rewrite filter_cons_False by (by rewrite Ez). simpl.
      assert (cell.eqb z (cell.of_size o size) = false) as ->; [|done].
      destruct (cell.eqb z (cell.of_size o size)) eqn:E2; [|done].
      rewrite <- E. symmetry. apply key_in_spec in Ez as (k & Hk & Ez).
      apply key_in_spec. exists k. split; [done|].
      rewrite cell_eqb_sym in E2. by apply (cell_eqb_trans _ z k).
    + rewrite filter_cons_True by done. simpl. by rewrite IH.
Qed.

(** X6. operator-= for a vector of cells: afterwards a lookup returns the
    null cell for every offset and size equal to a removed cell and is
    unchanged for all others, and the map is still well formed. *)
Theorem remove_cells_then_get_cell K m o size :
  map_ok m ->
  map_ok (offset_map.remove_cells K m)
  /\ offset_map.get_cell o size (offset_map.remove_cells K m)
     = if key_in (cell.of_size o size) K then cell.null
       else offset_map.get_cell o size m.
Proof.
  intros Hok. split; [|by apply get_cell_remove_cells].
  rewrite remove_cells_nf by done. by apply map_buckets_ok.
Qed.

End offset_map_round_trips.

Section queries.
Import array_expansion.

Implicit Types (x y c t k : cell_t) (b out K : list cell_t) (o size : Z)
  (L H m : list (Z * list cell_t)) (f : list cell_t -> list cell_t).

Lemma elem_lookup_Some (j : Z) m b :
  keys_sorted m -> (j, b) ∈ m -> patricia_tree.lookup j m = Some b.
Proof.
  induction m as [|[k' v] m IH]; intros Hs Hin; [by apply elem_of_nil in Hin|].
  apply keys_sorted_cons in Hs as [Hs Hall]. simpl.
  apply elem_of_cons in Hin as [[= -> ->]|Hin].
  - by rewrite Z.eqb_refl.
  - rewrite Forall_forall in Hall. specialize (Hall _ Hin). simpl in Hall.
    assert ((k' =? j) = false) as -> by (apply Z.eqb_neq; lia). by apply IH.
Qed.

Lemma get_overlap_cells_killed o size m :
  0 < size -> map_ok m ->
  offset_map.get_overlap_cells o size [] m
    = Done (killed o size (lows o m) (bucket_at o m) (highs o m), m).
Proof.
  intros Hs Hok. pose proof Hok as [Hsorted _].
  pose proof (map_split o m Hok) as Hm. rewrite Hm at 1 5.
  apply killed_query; try done.
  - apply lows_below.
  - apply highs_above.
  - by apply keys_sorted_lows.
  - by apply keys_sorted_highs.
Qed.

Lemma killed_covers_bucket o size m x :
  0 < size -> map_ok m ->
  x ∈ bucket_at o m ->
  cell.overlap x o size = true ->
  cell.eqb x (cell.of_size o size) = false ->
  key_in x (killed o size (lows o m) (bucket_at o m) (highs o m)) = true.
Proof.
  intros Hs Hok Hx Hov Hne. by apply killed_covers.
Qed.

Lemma cell_overlap_same_offset x o size :
  _offset x = o -> 0 < _size x -> 0 < size -> cell.overlap x o size = true.
Proof.
  intros <- Hsx Hs.
  unfold cell.overlap, cell.to_interval, cell.get_offset, cell.get_size,
    interval.meet, interval.is_bottom, interval.make, interval.bottom,
    bound_ltb, bound_leb, bound_max, bound_min.
  destruct x as [ox sx vx]. simpl in *.
  repeat (match goal with
          | |- context [?a <=? ?b] =>
              let E := fresh "E" in
              destruct (a <=? b) eqn:E;
              [apply Z.leb_le in E | apply Z.leb_gt in E]; simpl
          end); try done; lia.
Qed.

(** X7. On a well-formed map and for a positive size, get_overlap_cells
    returns the map as it was (the temporary cell is gone), and every cell
    it reports is a cell of the map that overlaps (o, size) and is not the
    cell of (o, size) itself; every overlapping cell of another size bound
    to the offset o itself is reported. *)
Theorem get_overlap_cells_reports_overlaps o size m :
  0 < size -> map_ok m ->
  exists K,
    offset_map.get_overlap_cells o size [] m = Done (K, m)
    /\ (forall k, k ∈ K ->
          cell.overlap k o size = true
          /\ cell.eqb k (cell.of_size o size) = false
          /\ k ∈ bucket_at (_offset k) m)
    /\ (forall x, x ∈ bucket_at o m ->
          cell.overlap x o size = true ->
          cell.eqb x (cell.of_size o size) = false ->
          key_in x K = true).
Proof.
  intros Hs Hok. pose proof Hok as [Hsorted _].
  pose proof (lows_below o m) as HL. pose proof (highs_above o m) as HH.
  pose proof (Forall_highs o m (map_ok_keyed m Hok)) as HkH.
  destruct (bucket_at_ok o m Hok) as [Hk0 _].
  exists (killed o size (lows o m) (bucket_at o m) (highs o m)).
  split; [by apply get_overlap_cells_killed|split].
  - intros k Hk. apply killed_mem in Hk as (Hov & Hne & b & Hb & Hkb); try done.
    repeat split; try done.
    apply elem_of_cons in Hb as [->|Hb].
    + rewrite Forall_forall in Hk0. by rewrite (Hk0 k Hkb).
    + assert (exists j : Z, (j, b) ∈ m) as [j Hin].
      { apply elem_of_app in Hb as [Hb|Hb];
          apply list_elem_of_fmap in Hb as ([j b'] & -> & Hin);
          apply list_elem_of_filter in Hin as [_ Hin]; by exists j. }
      destruct (map_ok_bucket m j b Hok Hin) as (_ & Hkj & _).
      rewrite Forall_forall in Hkj. rewrite (Hkj k Hkb).
      unfold bucket_at.
      assert (patricia_tree.lookup j m = Some b) as ->; [|done].
      by apply elem_lookup_Some.
  - intros x Hx Hov Hne. by apply killed_covers_bucket.
Qed.

End queries.

Section cells_and_indices.
Import array_expansion.

Implicit Types (x y c t k : cell_t) (b out K : list cell_t) (o size : Z)
  (L H m : list (Z * list cell_t)) (f : list cell_t -> list cell_t).

(** X8. On a well-formed map whose cells all carry a scalar, mk_cell for a
    positive size returns a cell of that offset and size with a scalar, and
    asking again returns the same cell and changes neither the map nor the
    index table. *)
Theorem mk_cell_returns_same_cell_again a o size m g :
  0 < size -> map_ok m -> all_scalars m ->
  exists c m' g',
    offset_map.mk_cell a o size m g = Done (c, m', g')
    /\ _offset c = o /\ _size c = size /\ cell.has_scalar c = true
    /\ offset_map.get_cell o size m' = c
    /\ offset_map.mk_cell a o size m' g' = Done (c, m', g').
Proof.
  intros Hs Hok Hsc. pose proof Hok as [Hsorted _].
  assert (forall c m1 g1,
            offset_map.get_cell o size m1 = c -> cell.is_null c = false ->
            cell.has_scalar c = true ->
            offset_map.mk_cell a o size m1 g1 = Done (c, m1, g1)) as Hagain.
  { intros c m1 g1 Hg Hnn Hc. unfold offset_map.mk_cell. rewrite Hg, Hnn.
    cbn [mbind outcome_bind]. by rewrite Hc. }
  destruct (cell.is_null (offset_map.get_cell o size m)) eqn:Hnull.
  - pose proof (get_cell_null_fresh o size m Hs Hnull) as Hfresh.
    unfold offset_map.mk_cell. rewrite Hnull.
    destruct (offset_map.get_index a o size g) as [vindex g1].
    set (c1 := cell.of_scalar o
                 (Variable_ (Shadow vindex)
                    (offset_map.get_array_element_type (get_type a)) size)).
    assert (forall x, x ∈ bucket_at o m -> cell.eqb x c1 = false) as Hfresh1.
    { intros x Hx. rewrite <- (Hfresh x Hx). by apply cell_eqb_key. }
    rewrite insert_cell_fresh; [|done|done|done].
    change (_offset c1) with o. cbn [mbind outcome_bind].
    change (cell.has_scalar c1) with true. cbv iota.
    assert (offset_map.get_cell o size
              (lows o m ++ (o, (cell_set.insert c1 (bucket_at o m)).1) :: highs o m)
            = c1) as Hget.
    { rewrite get_cell_mid by apply lows_below.
      rewrite find_insert_fresh; [done|by apply cell_eqb_spec|done]. }
    eexists _, _, _. split; [done|]. repeat split; try done.
    apply Hagain; [done| |done].
    unfold cell.is_null. change (_size c1) with size.
    assert ((size =? 0) = false) as -> by (apply Z.eqb_neq; lia).
    by rewrite andb_false_r.
  - rewrite get_cell_bucket_at in Hnull.
    destruct (cell_set.find (cell.of_size o size) (bucket_at o m)) as [c|] eqn:Hf;
      [|done].
    destruct (found_not_null o size _ c Hs Hf) as (Hin & Hco & Hcs & Hnn).
    assert (offset_map.get_cell o size m = c) as Hget
      by (by rewrite get_cell_bucket_at, Hf).
    assert (cell.has_scalar c = true) as Hc
      by (by apply (bucket_at_scalars o m c)).
    exists c, m, g. rewrite (Hagain c m g Hget Hnn Hc). done.
Qed.

(** X9. get_index hands out a stable, fresh index: asking again for the
    same array, offset and size returns the same index and leaves the
    table as it is, every other triple gets a different index, and the
    table keeps its shape. *)
Theorem get_index_stable_and_fresh (a : variable_t) o size (g g' : globals_t)
    (i : nat) :
  index_ok g ->
  offset_map.get_index a o size g = (i, g') ->
  index_ok g'
  /\ offset_map.get_index a o size g' = (i, g')
  /\ forall (a2 : variable_t) o2 size2,
       (name a2, (o2, size2)) <> (name a, (o, size)) ->
       (offset_map.get_index a2 o2 size2 g').1 <> i.
Proof.
  intros [Hlt Hinj]. unfold offset_map.get_index.
  destruct (_index_map g !! (name a, (o, size))) as [res|] eqn:El.
  - intros [= -> <-]. split; [done|]. rewrite El. split; [done|].
    intros a2 o2 size2 Hne.
    destruct (_index_map g !! (name a2, (o2, size2))) as [j|] eqn:E2; simpl.
    + intros ->. apply Hne. by apply (Hinj _ _ i).
    + intros Heq. specialize (Hlt _ _ El). lia.
  - intros [= <- <-]. cbn [_index_map].
    assert (index_ok
              (Globals (<[(name a, (o, size)) := base.size (_index_map g)]>
                          (_index_map g)) (crab_warnings g))) as Hok'.
    { split; cbn [_index_map].
      - intros k j Hk. rewrite map_size_insert_None by done.
        apply lookup_insert_Some in Hk as [[_ <-]|[_ Hk]]; [lia|].
        specialize (Hlt _ _ Hk). lia.
      - intros k1 k2 j H1 H2.
        apply lookup_insert_Some in H1 as [[<- <-]|[Hn1 H1]];
          apply lookup_insert_Some in H2 as [[<- E]|[Hn2 H2]]; try done.
        + specialize (Hlt _ _ H2). lia.
        + specialize (Hlt _ _ H1). lia.
        + by apply (Hinj _ _ j). }
    split; [done|]. rewrite lookup_insert_eq. split; [done|].
    intros a2 o2 size2 Hne. rewrite lookup_insert_ne by done.
    destruct (_index_map g !! (name a2, (o2, size2))) as [j|] eqn:E2; simpl.
    + intros ->. specialize (Hlt _ _ E2). lia.
    + rewrite map_size_insert_None by done. lia.
Qed.

End cells_and_indices.

(** ** Stores, loads and initialization of the array expansion domain *)

Section expansion_invariants.
Import array_expansion.

Context {NumDomain_t : Type} `{!NumDomain NumDomain_t}.
Local Abbreviation state_t := (@array_expansion_domain_t NumDomain_t).

Lemma to_interval_number (n : number_t) (s : state_t) :
  interval.singleton (to_interval (exp_of_number n) s) = Some n.
Proof. unfold to_interval, exp_of_number, interval.singleton. simpl. by rewrite Z.eqb_refl. Qed.

(** X20. A store to a constant index with a constant element size, both in
    range, leaves the target cell in the offset map of the array, with a
    scalar of that offset and size, keeps the maps well formed and does not
    touch the offset map of any other array. *)
Theorem array_store_materializes_cell (a : variable_t)
    (elem_size i v : linear_expression_t) (is_singleton : bool)
    (s : state_t) (g : globals_t) (o size : Z) :
  is_bottom s = false ->
  interval.singleton (to_interval i s) = Some o ->
  interval.singleton (to_interval elem_size s) = Some size ->
  cell_in_range o size ->
  wf_maps (_array_map s) ->
  map_in_range (separate_domain_get a (_array_map s)) ->
  exists (s' : state_t) g' c,
    array_store a elem_size i v is_singleton s g = Done (s', g')
    /\ wf_maps (_array_map s')
    /\ offset_map.get_cell o size (separate_domain_get a (_array_map s')) = c
    /\ _offset c = o /\ _size c = size /\ cell.has_scalar c = true
    /\ forall a2 : variable_t,
         name a2 <> name a ->
         separate_domain_get a2 (_array_map s') = separate_domain_get a2 (_array_map s).
Proof.
  intros Hnb Hi Hes (_ & [Hs _] & _) Hwf _.
  destruct (wf_maps_get a _ Hwf) as [Hok Hsc].
  destruct (store_map_settles a o size _ g Hs Hok Hsc)
    as (K & c & m3 & g' & Hq & HK & Hmk & Hc & Hset).
  destruct (forget_cells_scalars K (_inv s) HK) as [inv' Hfg].
  pose proof Hc as Hc'.
  unfold cell.has_scalar in Hc. destruct (_scalar c) as [scalar|] eqn:Esc; [|done].
  assert (array_store a elem_size i v is_singleton s g
          = Done (ArrayExpansion (separate_domain_set a m3 (_array_map s))
                    (d_assign scalar v inv'), g')) as Hst.
  { unfold array_store. rewrite Hnb, Hi, Hes, Hq. cbn [mbind outcome_bind].
    assert (match K with
            | [] => Done (_inv s, separate_domain_get a (_array_map s))
            | _ :: _ =>
                inv ← forget_cells K (_inv s);
                Done (inv, offset_map.remove_cells K
                             (separate_domain_get a (_array_map s)))
            end
            = Done (inv', offset_map.remove_cells K
                            (separate_domain_get a (_array_map s)))) as ->.
    { destruct K as [|k K]; [by injection Hfg as ->|]. by rewrite Hfg. }
    cbn [mbind outcome_bind]. rewrite Hmk. cbn [mbind outcome_bind].
    unfold cell.get_scalar. rewrite Esc. done. }
  eexists _, _, c. split; [exact Hst|].
  split.
  { apply (array_store_wf _ _ _ _ _ _ _ _ _ Hwf) in Hst; [done|].
    intros size'. rewrite Hes. by intros [= <-]. }
  cbn [_array_map]. rewrite separate_domain_get_set.
  destruct (settled_query o size c m3 Hs Hset) as (_ & Hg & _).
  destruct Hset as (L & b & H & _ & _ & _ & _ & _ & Hf & _).
  destruct (found_not_null o size b c Hs Hf) as (_ & Hco & Hcs & _).
  repeat split; try done.
  intros a2 Hne. unfold separate_domain_get, separate_domain_set.
  destruct m3; [by rewrite lookup_delete_ne|by rewrite lookup_insert_ne].
Qed.

End expansion_invariants.

Section expansion_returns.
Import array_expansion.

Context {NumDomain_t : Type} `{!NumDomain NumDomain_t}.
Local Abbreviation state_t := (@array_expansion_domain_t NumDomain_t).

Lemma array_store_returns (a : variable_t) (elem_size i v : linear_expression_t)
    (is_singleton : bool) (s : state_t) (g : globals_t) :
  wf_maps (_array_map s) ->
  (forall size, interval.singleton (to_interval elem_size s) = Some size -> 0 < size) ->
  exists s' g', array_store a elem_size i v is_singleton s g = Done (s', g').
Proof.
  intros Hwf Hpos. unfold array_store.
  destruct (is_bottom s); [by eexists _, _|].
  destruct (interval.singleton (to_interval i s)) as [o|]; [|by eexists _, _].
  destruct (interval.singleton (to_interval elem_size s)) as [size|] eqn:Hes;
    [|by eexists _, _].
  specialize (Hpos size eq_refl).
  destruct (wf_maps_get a _ Hwf) as [Hok Hsc].
  destruct (store_map_settles a o size _ g Hpos Hok Hsc)
    as (K & c & m3 & g3 & Hq & HK & Hmk & Hc & Hset).
  rewrite Hq. cbn [mbind outcome_bind].
  destruct (forget_cells_scalars K (_inv s) HK) as [inv' Hfg].
  assert (match K with
          | [] => Done (_inv s, separate_domain_get a (_array_map s))
          | _ :: _ =>
              inv ← forget_cells K (_inv s);
              Done (inv, offset_map.remove_cells K
                           (separate_domain_get a (_array_map s)))
          end
          = Done (inv', offset_map.remove_cells K
                          (separate_domain_get a (_array_map s)))) as ->.
  { destruct K as [|k K]; [by injection Hfg as ->|]. by rewrite Hfg. }
  cbn [mbind outcome_bind]. rewrite Hmk. cbn [mbind outcome_bind].
  unfold cell.has_scalar in Hc. unfold cell.get_scalar.
  destruct (_scalar c); [|done]. cbn [mbind outcome_bind]. by eexists _, _.
Qed.

Lemma array_load_returns (lhs a : variable_t) (elem_size i : linear_expression_t)
    (s : state_t) (g : globals_t) :
  wf_maps (_array_map s) ->
  (forall size, interval.singleton (to_interval elem_size s) = Some size -> 0 < size) ->
  exists s' g', array_load lhs a elem_size i s g = Done (s', g').
Proof.
  intros Hwf Hpos. unfold array_load.
  destruct (is_bottom s || is_top s); [by eexists _, _|].
  destruct (interval.singleton (to_interval i s)) as [o|]; [|by eexists _, _].
  destruct (interval.singleton (to_interval elem_size s)) as [size|] eqn:Hes;
    [|by eexists _, _].
  specialize (Hpos size eq_refl).
  destruct (wf_maps_get a _ Hwf) as [Hok Hsc].
  destruct (store_map_settles a o size _ g Hpos Hok Hsc)
    as (K & c & m3 & g3 & Hq & HK & Hmk & Hc & Hset).
  rewrite Hq. cbn [mbind outcome_bind].
  destruct K as [|k K]; [|by eexists _, _].
  change (offset_map.remove_cells [] ?m) with m in Hmk.
  rewrite Hmk. cbn [mbind outcome_bind].
  unfold cell.has_scalar in Hc. unfold cell.get_scalar.
  destruct (_scalar c); [|done]. cbn [mbind outcome_bind]. by eexists _, _.
Qed.

(** X22. On well-formed offset maps and with an element size that is
    positive whenever it is constant, array_store and array_load return
    normally (no CRAB_ERROR is raised) and leave the offset maps well
    formed. *)
Theorem array_store_load_return_well_formed (lhs a : variable_t)
    (elem_size i v : linear_expression_t) (is_singleton : bool)
    (s : state_t) (g : globals_t) :
  wf_maps (_array_map s) ->
  (forall size, interval.singleton (to_interval elem_size s) = Some size -> 0 < size) ->
  (exists s' g', array_store a elem_size i v is_singleton s g = Done (s', g')
                 /\ wf_maps (_array_map s'))
  /\ (exists s' g', array_load lhs a elem_size i s g = Done (s', g')
                    /\ wf_maps (_array_map s')).
Proof.
  intros Hwf Hpos. split.
  - destruct (array_store_returns a elem_size i v is_singleton s g Hwf Hpos)
      as (s' & g' & Hst).
    exists s', g'. split; [done|]. by apply (array_store_wf _ _ _ _ _ _ _ _ _ Hwf Hpos Hst).
  - destruct (array_load_returns lhs a elem_size i s g Hwf Hpos) as (s' & g' & Hld).
    exists s', g'. split; [done|]. by apply (array_load_wf _ _ _ _ _ _ _ _ Hwf Hpos Hld).
Qed.

End expansion_returns.

Section expansion_init.
Import array_expansion.

Context {NumDomain_t : Type} `{!NumDomain NumDomain_t}.
Local Abbreviation state_t := (@array_expansion_domain_t NumDomain_t).

Lemma array_init_loop_returns (fuel : nat) (a : variable_t) (n i e : number_t)
    (val : linear_expression_t) (s : state_t) (g : globals_t) :
  0 < n -> wf_maps (_array_map s) -> e - i <= Z.of_nat fuel ->
  exists s' g',
    array_init_loop fuel a (exp_of_number n) i e n val s g = Done (s', g')
    /\ wf_maps (_array_map s').
Proof.
  intros Hn. revert i s g. induction fuel as [|fuel IH]; intros i s g Hwf Hfuel; simpl.
  - assert ((i <? e) = false) as -> by (apply Z.ltb_ge; lia). by exists s, g.
  - destruct (i <? e) eqn:Elt; [|by exists s, g].
    assert (forall s1 : state_t, forall size,
              interval.singleton (to_interval (exp_of_number n) s1) = Some size ->
              0 < size) as Hpos.
    { intros s1 size. rewrite to_interval_number. by intros [= <-]. }
    destruct (array_store_returns a (exp_of_number n) (exp_of_number i) val false s g
                Hwf (Hpos s)) as (s1 & g1 & Hst).
    rewrite Hst. cbn [mbind outcome_bind].
    apply IH; [|lia]. by apply (array_store_wf _ _ _ _ _ _ _ _ _ Hwf (Hpos s) Hst).
Qed.

(** X19. array_init with a positive constant element size always returns
    (the loop runs at most 512 times, so a budget of 512 iterations is
    enough) and leaves every offset map well formed, whatever the bounds
    and the value. *)
Theorem array_init_returns_well_formed (fuel : nat) (a : variable_t) (n : number_t)
    (lb_idx ub_idx val : linear_expression_t) (s : state_t) (g : globals_t) :
  0 < n -> wf_maps (_array_map s) -> (512 <= fuel)%nat ->
  exists s' g',
    array_init fuel a (exp_of_number n) lb_idx ub_idx val s g = Done (s', g')
    /\ wf_maps (_array_map s').
Proof.
  intros Hn Hwf Hfuel. unfold array_init.
  destruct (is_bottom s || is_top s); [by exists s, g|].
  destruct (interval.singleton (to_interval lb_idx s)) as [lb|]; [|by eexists _, _].
  destruct (interval.singleton (to_interval ub_idx s)) as [ub|]; [|by eexists _, _].
  rewrite to_interval_number.
  assert ((n =? 0) = false) as -> by (apply Z.eqb_neq; lia).
  destruct (negb (Z.rem (ub - lb) n =? 0)); [by eexists _, _|].
  destruct (max_num_elems <? ub - lb) eqn:Emax; [by eexists _, _|].
  apply array_init_loop_returns; [done|done|].
  apply Z.ltb_ge in Emax. unfold max_num_elems in Emax. lia.
Qed.

End expansion_init.

(** ** Disjoint cells: what the overlap query finds and what stores keep *)

Section disjoint_cells.
Import array_expansion.

Section scan_reach.
Implicit Types (x y c t k : cell_t) (b out K : list cell_t) (o size : Z)
  (L H m : list (Z * list cell_t)) (bs pre post : list (list cell_t)).

Lemma elem_of_cells x m : x ∈ cells m <-> exists j b, (j, b) ∈ m /\ x ∈ b.
Proof.
  unfold cells. rewrite list_elem_of_join. split.
  - intros (b & Hx & Hb). apply list_elem_of_fmap in Hb as ([j b'] & -> & Hin).
    by exists j, b'.
  - intros (j & b & Hin & Hx). exists b. split; [done|].
    apply list_elem_of_fmap. by exists (j, b).
Qed.

Lemma cell_overlap_cases x o size :
  0 < _size x -> 0 < size ->
  cell.overlap x o size
    = bool_decide (_offset x < o + size /\ o < _offset x + _size x).
Proof.
  intros Hsx Hs.
  unfold cell.overlap, cell.to_interval, cell.get_offset, cell.get_size,
    interval.meet, interval.is_bottom, interval.make, interval.bottom,
    bound_ltb, bound_leb, bound_max, bound_min.
  destruct x as [ox sx vx]. simpl in *.
  repeat (match goal with
          | |- context [?a <=? ?b] =>
              let E := fresh "E" in
              destruct (a <=? b) eqn:E;
              [apply Z.leb_le in E | apply Z.leb_gt in E]; simpl
          end);
    first [ rewrite bool_decide_eq_true_2 by lia; reflexivity
          | rewrite bool_decide_eq_false_2 by lia; reflexivity
          | lia ].
Qed.

Lemma walk_reaches (sel : list cell_t -> list cell_t) (cont : list cell_t -> bool)
    pre b post out x :
  Forall (fun b' => cont b' = true) pre -> x ∈ sel b ->
  key_in x (fst (offset_map.walk (scan_with sel cont) (pre ++ b :: post) out)) = true.
Proof.
  intros Hpre Hx. revert out. induction Hpre as [|b' pre Hb' Hpre IH]; intros out.
  - simpl app. rewrite walk_cons. destruct (cont b); simpl.
    + eapply key_in_mono; [intros k; apply walk_mono|]. by apply push_all_key.
    + by apply push_all_key.
  - simpl app. rewrite walk_cons, Hb'. simpl. apply IH.
Qed.

End scan_reach.

Section walks_reach.
Variables (o size : Z) (c : cell_t) (L H : list (Z * list cell_t)) (bt : list cell_t).
Hypotheses (HL : below o L) (HH : above o H) (HkL : keyed L) (HkH : keyed H).
Hypotheses (HneL : Forall (fun kv => kv.2 <> []) L) (HneH : Forall (fun kv => kv.2 <> []) H).
Hypotheses (Hc : c ∈ bt) (Hco : _offset c = o) (Hcs : _size c = size) (Hs : 0 < size).
Hypotheses (HsL : keys_sorted L) (HsH : keys_sorted H).
Implicit Types (x y k : cell_t) (b : list cell_t).

Lemma cont_ub_bt : cont_ub o size bt = true.
Proof.
  apply existsb_exists. exists c. split; [by apply list_elem_of_In|].
  by apply cell_overlap_self.
Qed.

(** The scan over the offsets above o reaches every overlapping cell. *)
Lemma walks_out_covers_high x j b :
  sized H -> (j, b) ∈ H -> x ∈ b -> cell.overlap x o size = true ->
  key_in x (walks_out c o size L bt H) = true.
Proof.
  intros Hpos Hin Hx Hov. unfold walks_out.
  eapply key_in_mono; [intros k; apply walk_mono|]. unfold walk_ub.
  apply list_elem_of_split in Hin as (H1 & H2 & ->).
  rewrite fmap_app, fmap_cons. apply walk_reaches.
  - apply Forall_fmap, Forall_forall. intros [j' b'] Hin'. cbn [snd].
    assert (j' < j) as Hlt.
    { unfold keys_sorted in HsH. rewrite fmap_app, fmap_cons in HsH.
      apply StronglySorted_app in HsH as (Hcross & _ & _).
      apply (Hcross j' j); [|left]. apply list_elem_of_fmap. by exists (j', b'). }
    assert ((j', b') ∈ H1 ++ (j, b) :: H2) as Hin2 by (apply elem_of_app; by left).
    assert ((j, b) ∈ H1 ++ (j, b) :: H2) as Hin3 by (apply elem_of_app; right; left).
    unfold above, keyed in *. rewrite Forall_forall in HH, HkH, HneH.
    pose proof (HH _ Hin2) as Ho'. pose proof (HkH _ Hin2) as Hk'.
    pose proof (HneH _ Hin2) as Hne'. pose proof (HkH _ Hin3) as Hk.
    cbn [fst snd] in *. destruct b' as [|y b']; [done|].
    apply Forall_cons in Hk' as [Hy _]. rewrite Forall_forall in Hk.
    pose proof (Hk x Hx) as Hxo.
    assert (0 < _size x) as Hsx.
    { apply Hpos, elem_of_cells. by exists j, b. }
    assert (0 < _size y) as Hsy.
    { apply Hpos, elem_of_cells. exists j', (y :: b'). split; [done|left]. }
    rewrite cell_overlap_cases in Hov by done. apply bool_decide_eq_true_1 in Hov.
    apply existsb_exists. exists y. split; [left; done|].
    rewrite cell_overlap_cases by done. apply bool_decide_eq_true_2. lia.
  - apply list_elem_of_filter. by split.
Qed.

(** The scan over the offsets below o reaches the cells of the nearest
    bucket. *)
Lemma walks_out_covers_low x j b :
  (j, b) ∈ L -> (forall kv, kv ∈ L -> kv.1 <= j) -> x ∈ b ->
  cell.overlap x o size = true ->
  key_in x (walks_out c o size L bt H) = true.
Proof.
  intros Hin Hmax Hx Hov.
  eapply key_in_mono; [apply walk_lb_sub|]. unfold walk_lb.
  apply list_elem_of_split in Hin as (L1 & L2 & ->).
  assert (L2 = []) as ->.
  { destruct L2 as [|[j' b'] L2]; [done|]. exfalso.
    unfold keys_sorted in HsL. rewrite fmap_app, !fmap_cons in HsL.
    apply StronglySorted_app in HsL as (_ & _ & HsL).
    apply StronglySorted_inv in HsL as [_ Hall].
    apply Forall_cons in Hall as [Hlt _]. cbn [fst] in Hlt.
    specialize (Hmax (j', b')). cbn [fst] in Hmax.
    assert (j' <= j); [|lia]. apply Hmax. apply elem_of_app. right. right. left. }
  rewrite fmap_app, rev_app_distr. cbn [fmap list_fmap rev app snd].
  apply (walk_reaches _ _ [bt] b); [by constructor; [apply cont_ub_bt|]|].
  apply list_elem_of_filter. split; [|done]. rewrite Hov. cbn [andb].
  apply negb_true_iff.
  destruct (cell.eqb x c) eqn:E; [|done]. apply cell_eqb_spec in E as [E _].
  unfold below, keyed in *. rewrite Forall_forall in HL, HkL.
  assert ((j, b) ∈ L1 ++ [(j, b)]) as Hin by (apply elem_of_app; right; left).
  pose proof (HL _ Hin) as Hlt. pose proof (HkL _ Hin) as Hk. cbn [fst snd] in *.
  rewrite Forall_forall in Hk. specialize (Hk x Hx). lia.
Qed.

(** When the nearest bucket below o holds no overlapping cell, the scan
    towards the lower offsets collects nothing. *)
Lemma walks_out_not_below k :
  Forall (fun x => _offset x = o) bt ->
  quiet o size (rev L.*2) ->
  k ∈ walks_out c o size L bt H -> o <= _offset k.
Proof.
  intros Hbt Hq Hk. unfold walks_out in Hk.
  assert (forall b, b ∈ H.*2 -> k ∈ b -> o <= _offset k) as Hhigh.
  { intros b Hb Hkb. apply list_elem_of_fmap in Hb as ([j b'] & -> & Hin).
    unfold above, keyed in *. rewrite Forall_forall in HH, HkH.
    pose proof (HH _ Hin) as Hlt. pose proof (HkH _ Hin) as Hkey. cbn [fst snd] in *.
    rewrite Forall_forall in Hkey. specialize (Hkey k Hkb). lia. }
  apply walk_mem in Hk as [Hk|(b & Hb & Hk)].
  2:{ apply list_elem_of_filter in Hk as [_ Hkb]. apply (Hhigh b); [|done].
      apply list_elem_of_fmap in Hb as (kv & -> & Hkv). apply list_elem_of_fmap.
      exists kv. split; [done|]. by apply (subseteq_take _ _ _ Hkv). }
  unfold walk_ub in Hk. apply walk_mem in Hk as [Hk|(b & Hb & Hk)].
  2:{ apply list_elem_of_filter in Hk as [_ Hkb]. by apply (Hhigh b). }
  rewrite walk_lb_unfold in Hk by done.
  assert (k ∈ push_all (sel_lb c o size bt) [] -> o <= _offset k) as Hmid.
  { intros Hp. apply push_all_mem in Hp as [Hp|Hp]; [by apply elem_of_nil in Hp|].
    apply list_elem_of_filter in Hp as [_ Hp]. rewrite Forall_forall in Hbt.
    rewrite (Hbt k Hp). lia. }
  destruct (rev L.*2) as [|b1 rest]; [by apply Hmid|].
  rewrite walk_cons in Hk.
  assert (cont_ub o size b1 = false) as Hstop.
  { apply existsb_false. intros x Hx. by apply Hq. }
  rewrite Hstop in Hk. cbn [fst] in Hk.
  apply push_all_mem in Hk as [Hk|Hk]; [by apply Hmid|].
  apply list_elem_of_filter in Hk as [Hov Hkb].
  apply andb_true_iff in Hov as [Hov _]. by rewrite (Hq k Hkb) in Hov.
Qed.

End walks_reach.

Section killed_reach.
Variables (o size : Z) (L H : list (Z * list cell_t)) (b0 : list cell_t).
Hypotheses (Hs : 0 < size) (HL : below o L) (HH : above o H).
Hypotheses (HsL : keys_sorted L) (HsH : keys_sorted H) (HkL : keyed L) (HkH : keyed H).
Hypotheses (HneL : Forall (fun kv => kv.2 <> []) L) (HneH : Forall (fun kv => kv.2 <> []) H).
Implicit Types (x y c t k : cell_t) (b out : list cell_t).

Lemma killed_covers_high x j b :
  sized H -> (j, b) ∈ H -> x ∈ b -> cell.overlap x o size = true ->
  key_in x (killed o size L b0 H) = true.
Proof.
  unfold killed. destruct (cell_set.find (cell.of_size o size) b0) as [c|] eqn:Hf;
    intros Hpos Hin Hx Hov.
  - destruct (found_not_null o size b0 c Hs Hf) as (Hc & Hco & Hcs & _).
    by apply (walks_out_covers_high o size c L H b0) with j b.
  - apply (walks_out_covers_high o size _ L H _) with j b; try done.
Qed.

Lemma killed_covers_low x j b :
  (j, b) ∈ L -> (forall kv, kv ∈ L -> kv.1 <= j) -> x ∈ b ->
  cell.overlap x o size = true ->
  key_in x (killed o size L b0 H) = true.
Proof.
  unfold killed. destruct (cell_set.find (cell.of_size o size) b0) as [c|] eqn:Hf;
    intros Hin Hmax Hx Hov.
  - destruct (found_not_null o size b0 c Hs Hf) as (Hc & Hco & Hcs & _).
    by apply (walks_out_covers_low o size c L H b0) with j b.
  - apply (walks_out_covers_low o size _ L H _) with j b; try done.
    apply insert_fresh_mem; [by apply find_None|by left].
Qed.

Lemma killed_not_below k :
  Forall (fun x => _offset x = o) b0 ->
  quiet o size (rev L.*2) ->
  k ∈ killed o size L b0 H -> o <= _offset k.
Proof.
  unfold killed. destruct (cell_set.find (cell.of_size o size) b0) as [c|] eqn:Hf;
    intros Hb0 Hq Hk.
  - destruct (found_not_null o size b0 c Hs Hf) as (Hc & Hco & Hcs & _).
    by apply (walks_out_not_below o size c L H b0).
  - apply (walks_out_not_below o size _ L H _) in Hk; try done.
    + apply insert_fresh_mem; [by apply find_None|by left].
    + apply Forall_forall. intros x Hx.
      apply insert_fresh_mem in Hx; [|by apply find_None].
      destruct Hx as [->|Hx]; [done|]. rewrite Forall_forall in Hb0. by apply Hb0.
Qed.

End killed_reach.

Section query_complete.
Implicit Types (x y c t k : cell_t) (b out K : list cell_t) (o size : Z)
  (L H m : list (Z * list cell_t)).

Lemma sized_highs o m : sized m -> sized (highs o m).
Proof.
  intros Hpos x Hx. apply Hpos. apply elem_of_cells in Hx as (j & b & Hin & Hx).
  apply elem_of_cells. exists j, b. split; [|done].
  by apply list_elem_of_filter in Hin as [_ ?].
Qed.

Lemma map_in_range_sized m : map_in_range m -> sized m.
Proof. intros Hr x Hx. by destruct (Hr x Hx) as (_ & [? _] & _). Qed.

Lemma killed_exact o size m x :
  0 < size -> map_ok m -> sized m -> cells_apart m -> x ∈ cells m ->
  key_in x (killed o size (lows o m) (bucket_at o m) (highs o m)) = true
  <-> cell.overlap x o size = true /\ cell.eqb x (cell.of_size o size) = false.
Proof.
  intros Hs Hok Hpos Hapart Hx. pose proof Hok as [Hsorted _].
  pose proof (lows_below o m) as HL. pose proof (highs_above o m) as HH.
  pose proof (keys_sorted_lows o m Hsorted) as HsL.
  pose proof (keys_sorted_highs o m Hsorted) as HsH.
  pose proof (Forall_lows o m (map_ok_keyed m Hok)) as HkL.
  pose proof (Forall_highs o m (map_ok_keyed m Hok)) as HkH.
  pose proof (Forall_lows o m (map_ok_nonempty m Hok)) as HneL.
  pose proof (Forall_highs o m (map_ok_nonempty m Hok)) as HneH.
  split.
  - intros Hin. apply key_in_spec in Hin as (k & Hk & E).
    apply killed_mem in Hk as (Hov & Hne & _); try done.
    rewrite (cell_overlap_key x k o size E). split; [done|].
    destruct (cell.eqb x (cell.of_size o size)) eqn:E2; [|done].
    rewrite <- Hne. symmetry. rewrite cell_eqb_sym in E.
    by apply (cell_eqb_trans k x _).
  - intros [Hov Hne]. apply elem_of_cells in Hx as (j & b & Hin & Hxb).
    destruct (map_ok_bucket m j b Hok Hin) as (_ & Hkey & _).
    rewrite Forall_forall in Hkey. pose proof (Hkey x Hxb) as Hxo.
    destruct (Z.lt_trichotomy j o) as [Hlt|[->|Hgt]].
    + assert ((j, b) ∈ lows o m) as HinL by (by apply list_elem_of_filter).
      apply killed_covers_low with j b; try done.
      intros [j' b'] Hin'. cbn [fst].
      destruct (Z.le_gt_cases j' j) as [?|Hjj]; [done|exfalso].
      apply list_elem_of_filter in Hin' as [Hlo Hin']. cbn [fst] in Hlo.
      destruct (map_ok_bucket m j' b' Hok Hin') as (Hne' & Hkey' & _).
      destruct b' as [|y b']; [done|]. apply Forall_cons in Hkey' as [Hyo _].
      assert (x ∈ cells m) as Hxm by (apply elem_of_cells; by exists j, b).
      assert (y ∈ cells m) as Hym
        by (apply elem_of_cells; exists j', (y :: b'); split; [done|left]).
      pose proof (Hpos x Hxm) as Hsx. pose proof (Hpos y Hym) as Hsy.
      assert (cell.eqb x y = false) as Exy.
      { destruct (cell.eqb x y) eqn:E; [|done].
        apply cell_eqb_spec in E as [E _]. lia. }
      pose proof (Hapart x y Hxm Hym Exy) as Hno.
      rewrite cell_overlap_cases in Hov, Hno by done.
      apply bool_decide_eq_true_1 in Hov. apply bool_decide_eq_false_1 in Hno. lia.
    + apply killed_covers; try done.
      unfold bucket_at. by rewrite (elem_lookup_Some o m b Hsorted Hin).
    + assert ((j, b) ∈ highs o m) as HinH by (by apply list_elem_of_filter).
      apply killed_covers_high with j b; try done. by apply sized_highs.
Qed.

(** X23. On a well-formed offset map whose cells do not overlap each
    other, with the offsets and sizes of the map and of the query in range
    (no negative offset, sizes that fit the type unsigned),
    get_overlap_cells reports exactly the cells of the map that overlap
    (o, size), the cell of (o, size) itself excepted. *)
Theorem get_overlap_cells_exact o size m :
  cell_in_range o size -> map_ok m -> map_in_range m -> cells_apart m ->
  exists K,
    offset_map.get_overlap_cells o size [] m = Done (K, m)
    /\ forall x, x ∈ cells m ->
         (key_in x K = true
          <-> cell.overlap x o size = true
              /\ cell.eqb x (cell.of_size o size) = false).
Proof.
  intros (_ & [Hs _] & _) Hok Hrange Hapart.
  exists (killed o size (lows o m) (bucket_at o m) (highs o m)).
  split; [by apply get_overlap_cells_killed|].
  intros x Hx. apply killed_exact; try done. by apply map_in_range_sized.
Qed.

(** X24. The scan of get_overlap_cells towards the lower offsets leaves at
    the first bucket without an overlapping cell: when the nearest bucket
    below o holds no cell that overlaps (o, size), no cell of a lower
    offset is reported, whether or not it overlaps. The offsets and sizes
    of the map and of the query are in range (no negative offset, sizes
    that fit the type unsigned), where the order of the keys is the order
    of the numbers. *)
Theorem get_overlap_cells_stops_at_gap o size m :
  cell_in_range o size -> map_ok m -> map_in_range m ->
  quiet o size (rev (lows o m).*2) ->
  exists K,
    offset_map.get_overlap_cells o size [] m = Done (K, m)
    /\ forall k, k ∈ K -> o <= _offset k.
Proof.
  intros (_ & [Hs _] & _) Hok _ Hq. pose proof Hok as [Hsorted _].
  exists (killed o size (lows o m) (bucket_at o m) (highs o m)).
  split; [by apply get_overlap_cells_killed|].
  intros k Hk. apply killed_not_below in Hk; try done.
  - apply highs_above.
  - apply (Forall_highs o m (map_ok_keyed m Hok)).
  - by destruct (bucket_at_ok o m Hok).
Qed.

End query_complete.

Section apart_preserved.
Implicit Types (x y c t k : cell_t) (b out K : list cell_t) (o size : Z)
  (L H m : list (Z * list cell_t)) (f : list cell_t -> list cell_t).

Lemma cells_map_buckets f m x :
  x ∈ cells (map_buckets f m) <-> exists j b, (j, b) ∈ m /\ x ∈ f b.
Proof.
  rewrite elem_of_cells. unfold map_buckets. split.
  - intros (j & b & Hin & Hx). apply list_elem_of_omap in Hin as ([j' b'] & Hin & Hf).
    cbn [fst snd] in Hf. exists j', b'. split; [done|].
    destruct (f b') as [|z r]; [done|]. by injection Hf as _ <-.
  - intros (j & b & Hin & Hx). destruct (f b) as [|z r] eqn:Hf.
    { by apply elem_of_nil in Hx. }
    exists j, (z :: r). split; [|done]. apply list_elem_of_omap.
    exists (j, b). split; [done|]. cbn [fst snd]. by rewrite Hf.
Qed.

Lemma cells_keep_out K m x :
  x ∈ cells (map_buckets (keep_out K) m) <-> x ∈ cells m /\ key_in x K = false.
Proof.
  rewrite cells_map_buckets, elem_of_cells. unfold keep_out. split.
  - intros (j & b & Hin & Hx). apply list_elem_of_filter in Hx as [Hk Hx].
    split; [by exists j, b|done].
  - intros [(j & b & Hin & Hx) Hk]. exists j, b. split; [done|].
    by apply list_elem_of_filter.
Qed.

Lemma cells_split o m x :
  map_ok m ->
  x ∈ cells m
  <-> x ∈ cells (lows o m) \/ x ∈ bucket_at o m \/ x ∈ cells (highs o m).
Proof.
  intros Hok. pose proof Hok as [Hsorted _]. rewrite !elem_of_cells. split.
  - intros (j & b & Hin & Hx). destruct (Z.lt_trichotomy j o) as [Hlt|[->|Hgt]].
    + left. exists j, b. split; [|done]. by apply list_elem_of_filter.
    + right. left. unfold bucket_at. by rewrite (elem_lookup_Some o m b Hsorted Hin).
    + right. right. exists j, b. split; [|done]. by apply list_elem_of_filter.
  - intros [(j & b & Hin & Hx)|[Hx|(j & b & Hin & Hx)]].
    + exists j, b. split; [|done]. by apply list_elem_of_filter in Hin as [_ ?].
    + unfold bucket_at in Hx.
      destruct (patricia_tree.lookup o m) as [b|] eqn:El; simpl in Hx;
        [|by apply elem_of_nil in Hx].
      exists o, b. split; [|done]. by apply lookup_Some_elem.
    + exists j, b. split; [|done]. by apply list_elem_of_filter in Hin as [_ ?].
Qed.

(** The cells of the map that mk_cell returns: those of the map it was
    given and the returned cell. *)
Lemma mk_cell_cells a o size m g c m' g' :
  0 < size -> map_ok m ->
  offset_map.mk_cell a o size m g = Done (c, m', g') ->
  _offset c = o /\ _size c = size
  /\ forall x, x ∈ cells m' -> x = c \/ x ∈ cells m.
Proof.
  intros Hs Hok. pose proof Hok as [Hsorted Hbs]. unfold offset_map.mk_cell.
  destruct (cell.is_null (offset_map.get_cell o size m)) eqn:Hnull.
  2:{ cbn [mbind outcome_bind]. destruct (negb _); [done|]. intros [= <- <- _].
      rewrite get_cell_bucket_at in Hnull |- *.
      destruct (cell_set.find (cell.of_size o size) (bucket_at o m)) as [c|] eqn:Hf;
        [|done].
      destruct (found_not_null o size _ c Hs Hf) as (_ & Hco & Hcs & _).
      cbn [default from_option id]. repeat split; try done. by right. }
  destruct (offset_map.get_index a o size g) as [vindex g1].
  set (c1 := cell.of_scalar o
               (Variable_ (Shadow vindex)
                  (offset_map.get_array_element_type (get_type a)) size)).
  assert (forall x, x ∈ bucket_at o m -> cell.eqb x c1 = false) as Hfresh.
  { intros x Hx. rewrite <- (get_cell_null_fresh o size m Hs Hnull x Hx).
    by apply cell_eqb_key. }
  rewrite insert_cell_fresh; [|done|done|done].
  change (_offset c1) with o. cbn [mbind outcome_bind].
  change (cell.has_scalar c1) with true. cbv iota. intros [= <- <- _].
  repeat split; try done. intros x Hx.
  apply elem_of_cells in Hx as (j & b & Hin & Hx).
  apply elem_of_app in Hin as [Hin|Hin].
  - right. apply elem_of_cells. exists j, b. split; [|done].
    by apply list_elem_of_filter in Hin as [_ ?].
  - apply elem_of_cons in Hin as [[= -> ->]|Hin].
    + apply insert_fresh_mem in Hx; [|done]. destruct Hx as [->|Hx]; [by left|].
      right. apply (cells_split o m x Hok). right. by left.
    + right. apply elem_of_cells. exists j, b. split; [|done].
      by apply list_elem_of_filter in Hin as [_ ?].
Qed.

Lemma cell_overlap_swap x y :
  0 < _size x -> 0 < _size y ->
  cell.overlap x (_offset y) (_size y) = cell.overlap y (_offset x) (_size x).
Proof.
  intros Hx Hy. rewrite !cell_overlap_cases by done. apply bool_decide_ext. lia.
Qed.

(** Killing the cells that the query reports and then making the cell of
    (o, size) keeps the cells of the map apart. *)
Lemma kill_then_mk_cell_apart a o size m g c m' g' :
  0 < size -> map_ok m -> all_scalars m -> sized m -> cells_apart m ->
  offset_map.mk_cell a o size
    (offset_map.remove_cells (killed o size (lows o m) (bucket_at o m) (highs o m)) m) g
    = Done (c, m', g') ->
  sized m' /\ cells_apart m'.
Proof.
  intros Hs Hok Hsc Hpos Hapart Hmk.
  set (K := killed o size (lows o m) (bucket_at o m) (highs o m)) in *.
  destruct (remove_cells_wf K m Hok Hsc) as [Hok1 _].
  destruct (mk_cell_cells a o size _ g c m' g' Hs Hok1 Hmk) as (Hco & Hcs & Hcells).
  rewrite remove_cells_nf in Hcells by done.
  assert (forall x, x ∈ cells m' -> x = c \/
            (x ∈ cells m /\ (cell.overlap x o size = true ->
                             cell.eqb x (cell.of_size o size) = true))) as Hshape.
  { intros x Hx. apply Hcells in Hx as [->|Hx]; [by left|right].
    apply cells_keep_out in Hx as [Hx Hout]. split; [done|]. intros Hov.
    destruct (cell.eqb x (cell.of_size o size)) eqn:E; [done|].
    assert (key_in x K = true) as Hin by (by apply killed_exact).
    by rewrite Hin in Hout. }
  assert (sized m') as Hpos'.
  { intros x Hx. apply Hshape in Hx as [->|[Hx _]]; [lia|by apply Hpos]. }
  split; [done|]. intros x y Hx Hy Exy.
  pose proof (Hpos' x Hx) as Hsx. pose proof (Hpos' y Hy) as Hsy.
  destruct (Hshape x Hx) as [->|[Hxm Hxo]]; destruct (Hshape y Hy) as [->|[Hym Hyo]].
  - by rewrite cell_eqb_refl in Exy.
  - rewrite cell_overlap_swap by done. rewrite Hco, Hcs.
    destruct (cell.overlap y o size) eqn:Hov; [|done].
    rewrite <- Exy. symmetry. rewrite cell_eqb_sym.
    apply (cell_eqb_trans y (cell.of_size o size) c); [by apply Hyo|].
    by apply cell_eqb_spec.
  - rewrite Hco, Hcs. destruct (cell.overlap x o size) eqn:Hov; [|done].
    rewrite <- Exy. symmetry.
    apply (cell_eqb_trans x (cell.of_size o size) c); [by apply Hxo|].
    by apply cell_eqb_spec.
  - by apply Hapart.
Qed.

(** They also stay in range when (o, size) is. *)
Lemma kill_then_mk_cell_in_range a o size m g c m' g' :
  cell_in_range o size -> map_ok m -> all_scalars m -> map_in_range m ->
  offset_map.mk_cell a o size
    (offset_map.remove_cells (killed o size (lows o m) (bucket_at o m) (highs o m)) m) g
    = Done (c, m', g') ->
  map_in_range m'.
Proof.
  intros Hr Hok Hsc Hrange Hmk. pose proof Hr as (_ & [Hs _] & _).
  set (K := killed o size (lows o m) (bucket_at o m) (highs o m)) in *.
  destruct (remove_cells_wf K m Hok Hsc) as [Hok1 _].
  destruct (mk_cell_cells a o size _ g c m' g' Hs Hok1 Hmk) as (Hco & Hcs & Hcells).
  rewrite remove_cells_nf in Hcells by done.
  intros x Hx. apply Hcells in Hx as [->|Hx]; [by rewrite Hco, Hcs|].
  apply cells_keep_out in Hx as [Hx _]. by apply Hrange.
Qed.

End apart_preserved.

Section apart_states.
Context {NumDomain_t : Type} `{!NumDomain NumDomain_t}.
Local Abbreviation state_t := (@array_expansion_domain_t NumDomain_t).

Lemma apart_maps_get (a : variable_t) (M : gmap varname_t (list (Z * list cell_t))) :
  apart_maps M ->
  map_in_range (separate_domain_get a M) /\ cells_apart (separate_domain_get a M).
Proof.
  intros Hap. unfold separate_domain_get.
  destruct (M !! name a) as [m|] eqn:E; simpl; [by apply (Hap (name a))|].
  split; [intros x Hx|intros x y Hx]; by apply elem_of_nil in Hx.
Qed.

Lemma apart_maps_set (a : variable_t) (m : list (Z * list cell_t))
    (M : gmap varname_t (list (Z * list cell_t))) :
  apart_maps M -> map_in_range m -> cells_apart m ->
  apart_maps (separate_domain_set a m M).
Proof.
  intros Hap Hpos Hapart n m' Hn. unfold separate_domain_set in Hn.
  destruct m as [|kv m].
  - apply lookup_delete_Some in Hn as [_ Hn]. by apply (Hap n).
  - apply lookup_insert_Some in Hn as [[_ <-]|[_ Hn]]; [done|by apply (Hap n)].
Qed.

Lemma apart_maps_top : apart_maps (_array_map (top (NumDomain_t := NumDomain_t))).
Proof. intros n m Hn. cbn [top _array_map] in Hn. by rewrite lookup_empty in Hn. Qed.

Lemma array_store_apart (a : variable_t) (elem_size i v : linear_expression_t)
    (is_singleton : bool) (s s' : state_t) (g g' : globals_t) :
  wf_maps (_array_map s) -> apart_maps (_array_map s) ->
  (forall o size,
     interval.singleton (to_interval i s) = Some o ->
     interval.singleton (to_interval elem_size s) = Some size ->
     cell_in_range o size) ->
  array_store a elem_size i v is_singleton s g = Done (s', g') ->
  apart_maps (_array_map s').
Proof.
  intros Hwf Hap Hrange. unfold array_store.
  destruct (is_bottom s); [by intros [= <- _]|].
  destruct (interval.singleton (to_interval i s)) as [o|]; [|by intros [= <- _]].
  destruct (interval.singleton (to_interval elem_size s)) as [size|] eqn:Hes;
    [|by intros [= <- _]].
  specialize (Hrange o size eq_refl eq_refl). pose proof Hrange as (_ & [Hpos _] & _).
  destruct (wf_maps_get a _ Hwf) as [Hok Hsc].
  destruct (apart_maps_get a _ Hap) as [Hsz Hapart].
  rewrite (get_overlap_cells_killed o size _ Hpos Hok). cbn [mbind outcome_bind].
  set (m := separate_domain_get a (_array_map s)) in *.
  assert (forall K c m3 g3,
            K = killed o size (lows o m) (bucket_at o m) (highs o m) ->
            offset_map.mk_cell a o size (offset_map.remove_cells K m) g
              = Done (c, m3, g3) ->
            apart_maps (separate_domain_set a m3 (_array_map s))) as Htail.
  { intros K c m3 g3 -> Hmk.
    destruct (kill_then_mk_cell_apart a o size m g c m3 g3 Hpos Hok Hsc
                (map_in_range_sized m Hsz) Hapart Hmk) as [_ Hapart'].
    pose proof (kill_then_mk_cell_in_range a o size m g c m3 g3 Hrange Hok Hsc Hsz Hmk).
    by apply apart_maps_set. }
  destruct (killed o size (lows o m) (bucket_at o m) (highs o m)) as [|k K] eqn:HK.
  - cbn [mbind outcome_bind].
    destruct (offset_map.mk_cell a o size m g)
      as [[[c m3] g3]| |] eqn:Hmk; cbn [mbind outcome_bind]; [|done..].
    destruct (cell.get_scalar c); cbn [mbind outcome_bind]; [|done..].
    intros [= <- _]. cbn [_array_map]. by apply (Htail [] c m3 g3).
  - destruct (forget_cells (k :: K) (_inv s)) as [inv'| |];
      cbn [mbind outcome_bind]; [|done..].
    destruct (offset_map.mk_cell a o size (offset_map.remove_cells (k :: K) m) g)
      as [[[c m3] g3]| |] eqn:Hmk; cbn [mbind outcome_bind]; [|done..].
    destruct (cell.get_scalar c); cbn [mbind outcome_bind]; [|done..].
    intros [= <- _]. cbn [_array_map]. by apply (Htail (k :: K) c m3 g3).
Qed.

Lemma array_load_apart (lhs a : variable_t) (elem_size i : linear_expression_t)
    (s s' : state_t) (g g' : globals_t) :
  wf_maps (_array_map s) -> apart_maps (_array_map s) ->
  (forall o size,
     interval.singleton (to_interval i s) = Some o ->
     interval.singleton (to_interval elem_size s) = Some size ->
     cell_in_range o size) ->
  array_load lhs a elem_size i s g = Done (s', g') ->
  apart_maps (_array_map s').
Proof.
  intros Hwf Hap Hrange. unfold array_load.
  destruct (is_bottom s || is_top s); [by intros [= <- _]|].
  destruct (interval.singleton (to_interval i s)) as [o|]; [|by intros [= <- _]].
  destruct (interval.singleton (to_interval elem_size s)) as [size|] eqn:Hes;
    [|by intros [= <- _]].
  specialize (Hrange o size eq_refl eq_refl). pose proof Hrange as (_ & [Hpos _] & _).
  destruct (wf_maps_get a _ Hwf) as [Hok Hsc].
  destruct (apart_maps_get a _ Hap) as [Hsz Hapart].
  rewrite (get_overlap_cells_killed o size _ Hpos Hok). cbn [mbind outcome_bind].
  set (m := separate_domain_get a (_array_map s)) in *.
  destruct (killed o size (lows o m) (bucket_at o m) (highs o m)) as [|k K] eqn:HK;
    [|by intros [= <- _]].
  destruct (offset_map.mk_cell a o size m g)
    as [[[c m3] g3]| |] eqn:Hmk; cbn [mbind outcome_bind]; [|done..].
  destruct (cell.get_scalar c); cbn [mbind outcome_bind]; [|done..].
  intros [= <- _]. cbn [_array_map].
  assert (offset_map.mk_cell a o size
            (offset_map.remove_cells
               (killed o size (lows o m) (bucket_at o m) (highs o m)) m) g
          = Done (c, m3, g3)) as Hmk' by (by rewrite HK).
  destruct (kill_then_mk_cell_apart a o size m g c m3 g3 Hpos Hok Hsc
              (map_in_range_sized m Hsz) Hapart Hmk') as [_ Hapart'].
  pose proof (kill_then_mk_cell_in_range a o size m g c m3 g3 Hrange Hok Hsc Hsz Hmk').
  by apply apart_maps_set.
Qed.

(** X25. Cells never come to overlap: on well-formed offset maps whose
    cells are in range (no negative offset, positive sizes that fit the
    type unsigned) and pairwise disjoint, array_store and array_load with
    an element size that is in range whenever it is constant and an index
    that is in range whenever both are constant return normally and leave
    the cells of every offset map in range and pairwise disjoint. The
    initial state top satisfies the precondition. *)
Theorem array_store_load_keep_cells_apart (lhs a : variable_t)
    (elem_size i v : linear_expression_t) (is_singleton : bool)
    (s : state_t) (g : globals_t) :
  wf_maps (_array_map s) -> apart_maps (_array_map s) ->
  (forall size,
     interval.singleton (to_interval elem_size s) = Some size -> 0 < size < 2 ^ 32) ->
  (forall o size,
     interval.singleton (to_interval i s) = Some o ->
     interval.singleton (to_interval elem_size s) = Some size ->
     0 <= o /\ o + size <= 2 ^ 63) ->
  (exists s' g', array_store a elem_size i v is_singleton s g = Done (s', g')
                 /\ wf_maps (_array_map s') /\ apart_maps (_array_map s'))
  /\ (exists s' g', array_load lhs a elem_size i s g = Done (s', g')
                    /\ wf_maps (_array_map s') /\ apart_maps (_array_map s')).
Proof.
  intros Hwf Hap Hsize Hidx.
  assert (forall size, interval.singleton (to_interval elem_size s) = Some size ->
                       0 < size) as Hpos.
  { intros size Hsz. by destruct (Hsize size Hsz). }
  assert (forall o size,
            interval.singleton (to_interval i s) = Some o ->
            interval.singleton (to_interval elem_size s) = Some size ->
            cell_in_range o size) as Hrange.
  { intros o size Ho Hsz. destruct (Hidx o size Ho Hsz). by split; [|split; [apply Hsize|]]. }
  split.
  - destruct (array_store_returns a elem_size i v is_singleton s g Hwf Hpos)
      as (s' & g' & Hst).
    exists s', g'. split; [done|]. split.
    + by apply (array_store_wf _ _ _ _ _ _ _ _ _ Hwf Hpos Hst).
    + by apply (array_store_apart _ _ _ _ _ _ _ _ _ Hwf Hap Hrange Hst).
  - destruct (array_load_returns lhs a elem_size i s g Hwf Hpos) as (s' & g' & Hld).
    exists s', g'. split; [done|]. split.
    + by apply (array_load_wf _ _ _ _ _ _ _ _ Hwf Hpos Hld).
    + by apply (array_load_apart _ _ _ _ _ _ _ _ Hwf Hap Hrange Hld).
Qed.

Lemma array_init_loop_apart (fuel : nat) (a : variable_t) (n i e : number_t)
    (val : linear_expression_t) (s : state_t) (g : globals_t) :
  0 < n < 2 ^ 32 -> wf_maps (_array_map s) -> apart_maps (_array_map s) ->
  0 <= i -> e <= 2 ^ 63 -> (n | e - i) ->
  e - i <= Z.of_nat fuel ->
  exists s' g',
    array_init_loop fuel a (exp_of_number n) i e n val s g = Done (s', g')
    /\ wf_maps (_array_map s') /\ apart_maps (_array_map s').
Proof.
  intros Hn. revert i s g.
  induction fuel as [|fuel IH]; intros i s g Hwf Hap Hi He Hdiv Hfuel; simpl.
  - assert ((i <? e) = false) as -> by (apply Z.ltb_ge; lia). by exists s, g.
  - destruct (i <? e) eqn:Elt; [|by exists s, g]. apply Z.ltb_lt in Elt.
    assert (i + n <= e) as Hstep.
    { destruct Hdiv as [q Hq]. assert (0 < q) by nia. nia. }
    assert (forall s1 : state_t, forall size,
              interval.singleton (to_interval (exp_of_number n) s1) = Some size ->
              0 < size) as Hpos.
    { intros s1 size. rewrite to_interval_number. intros [= <-]. lia. }
    assert (forall o size,
              interval.singleton (to_interval (exp_of_number i) s) = Some o ->
              interval.singleton (to_interval (exp_of_number n) s) = Some size ->
              cell_in_range o size) as Hrange.
    { intros o size. rewrite !to_interval_number. intros [= <-] [= <-].
      unfold cell_in_range. lia. }
    destruct (array_store_returns a (exp_of_number n) (exp_of_number i) val false s g
                Hwf (Hpos s)) as (s1 & g1 & Hst).
    rewrite Hst. cbn [mbind outcome_bind].
    apply IH; [| |lia|lia| |lia].
    + by apply (array_store_wf _ _ _ _ _ _ _ _ _ Hwf (Hpos s) Hst).
    + by apply (array_store_apart _ _ _ _ _ _ _ _ _ Hwf Hap Hrange Hst).
    + destruct Hdiv as [q Hq]. exists (q - 1). lia.
Qed.

(** X26. array_init with a constant element size that fits the type
    unsigned and bounds that, when constant, are not negative and at most
    2^63 keeps the cells apart as well: it returns and leaves every offset
    map well formed, with cells in range that are pairwise disjoint. *)
Theorem array_init_keeps_cells_apart (fuel : nat) (a : variable_t) (n : number_t)
    (lb_idx ub_idx val : linear_expression_t) (s : state_t) (g : globals_t) :
  0 < n < 2 ^ 32 -> wf_maps (_array_map s) -> apart_maps (_array_map s) ->
  (forall lb ub,
     interval.singleton (to_interval lb_idx s) = Some lb ->
     interval.singleton (to_interval ub_idx s) = Some ub ->
     0 <= lb /\ ub <= 2 ^ 63) ->
  (512 <= fuel)%nat ->
  exists s' g',
    array_init fuel a (exp_of_number n) lb_idx ub_idx val s g = Done (s', g')
    /\ wf_maps (_array_map s') /\ apart_maps (_array_map s').
Proof.
  intros Hn Hwf Hap Hbounds Hfuel. unfold array_init.
  destruct (is_bottom s || is_top s); [by exists s, g|].
  destruct (interval.singleton (to_interval lb_idx s)) as [lb|]; [|by eexists _, _].
  destruct (interval.singleton (to_interval ub_idx s)) as [ub|]; [|by eexists _, _].
  destruct (Hbounds lb ub eq_refl eq_refl) as [Hlb Hub].
  rewrite to_interval_number.
  assert ((n =? 0) = false) as -> by (apply Z.eqb_neq; lia).
  destruct (negb (Z.rem (ub - lb) n =? 0)) eqn:Hrem; [by eexists _, _|].
  destruct (max_num_elems <? ub - lb) eqn:Emax; [by eexists _, _|].
  apply negb_false_iff, Z.eqb_eq in Hrem. apply Z.rem_divide in Hrem; [|lia].
  apply array_init_loop_apart; [done|done|done|done|done|done|].
  apply Z.ltb_ge in Emax. unfold max_num_elems in Emax. lia.
Qed.

End apart_states.

End disjoint_cells.

(** ** Repeated stores and imprecise loads *)

Section expansion_more.
Import array_expansion.

Context {NumDomain_t : Type} `{!NumDomain NumDomain_t}.
Local Abbreviation state_t := (@array_expansion_domain_t NumDomain_t).

(** X10. A store to a constant index and element size in range leaves the
    cell of (o, size) in the offset map of the array and assigns v to the
    scalar of that cell. A second store to the same index and element size
    finds nothing to kill: it keeps the offset maps and the index table of
    the first store and only assigns the new value to the scalar of that
    same cell. *)
Theorem array_store_again_same_cell (a : variable_t)
    (elem_size i v v2 : linear_expression_t) (is_singleton is_singleton2 : bool)
    (s : state_t) (g : globals_t) (o size : Z) :
  is_bottom s = false ->
  interval.singleton (to_interval i s) = Some o ->
  interval.singleton (to_interval elem_size s) = Some size ->
  cell_in_range o size ->
  map_ok (separate_domain_get a (_array_map s)) ->
  all_scalars (separate_domain_get a (_array_map s)) ->
  map_in_range (separate_domain_get a (_array_map s)) ->
  exists (s' : state_t) g' c scalar inv,
    array_store a elem_size i v is_singleton s g = Done (s', g')
    /\ offset_map.get_cell o size (separate_domain_get a (_array_map s')) = c
    /\ _offset c = o /\ _size c = size /\ _scalar c = Some scalar
    /\ _inv s' = d_assign scalar v inv
    /\ (is_bottom s' = false ->
        interval.singleton (to_interval i s') = Some o ->
        interval.singleton (to_interval elem_size s') = Some size ->
        array_store a elem_size i v2 is_singleton2 s' g'
          = Done (ArrayExpansion (_array_map s') (d_assign scalar v2 (_inv s')), g')).
Proof.
  intros Hnb Hi Hes (_ & [Hs _] & _) Hok Hsc _.
  destruct (store_map_settles a o size _ g Hs Hok Hsc)
    as (K & c & m3 & g' & Hq & HK & Hmk & Hc & Hset).
  destruct (forget_cells_scalars K (_inv s) HK) as [inv' Hfg].
  unfold cell.has_scalar in Hc. destruct (_scalar c) as [scalar|] eqn:Esc; [|done].
  exists (ArrayExpansion (separate_domain_set a m3 (_array_map s))
            (d_assign scalar v inv')), g', c, scalar, inv'.
  split; [|split; [|split; [|split; [|split; [done|split; [done|]]]]]].
  - unfold array_store. rewrite Hnb, Hi, Hes, Hq. cbn [mbind outcome_bind].
    assert (match K with
            | [] => Done (_inv s, separate_domain_get a (_array_map s))
            | _ :: _ =>
                inv ← forget_cells K (_inv s);
                Done (inv, offset_map.remove_cells K
                             (separate_domain_get a (_array_map s)))
            end
            = Done (inv', offset_map.remove_cells K
                            (separate_domain_get a (_array_map s)))) as ->.
    { destruct K as [|k K]; [by injection Hfg as ->|]. by rewrite Hfg. }
    cbn [mbind outcome_bind]. rewrite Hmk. cbn [mbind outcome_bind].
    unfold cell.get_scalar. rewrite Esc. done.
  - cbn [_array_map]. rewrite separate_domain_get_set.
    by destruct (settled_query o size c m3 Hs Hset) as (_ & Hg & _).
  - destruct Hset as (L & b & H & _ & _ & _ & _ & _ & Hf & _).
    by destruct (found_not_null o size b c Hs Hf) as (_ & Hco & _).
  - destruct Hset as (L & b & H & _ & _ & _ & _ & _ & Hf & _).
    by destruct (found_not_null o size b c Hs Hf) as (_ & _ & Hcs & _).
  - intros Hnb' Hi' Hes'. unfold array_store. rewrite Hnb', Hi', Hes'.
    cbn [_array_map _inv]. rewrite separate_domain_get_set.
    destruct (settled_query o size c m3 Hs Hset) as (Hq2 & _). rewrite Hq2.
    cbn [mbind outcome_bind].
    rewrite (mk_cell_settled a o size c m3 g' Hs Hset)
      by (unfold cell.has_scalar; by rewrite Esc).
    cbn [mbind outcome_bind]. unfold cell.get_scalar. rewrite Esc.
    cbn [mbind outcome_bind]. by rewrite separate_domain_set_twice.
Qed.

(** X11. A load from a constant index whose offset already holds a cell of
    another size is imprecise: it warns that the read from the cell
    [o ... o + size - 1] was ignored because it overlaps with other cells,
    forgets lhs and leaves the offset maps as they are. Offsets and sizes
    are in range. *)
Theorem array_load_other_size_forgets_lhs (lhs a : variable_t)
    (elem_size i : linear_expression_t) (s : state_t) (g : globals_t)
    (o size : Z) (x : cell_t) :
  is_bottom s || is_top s = false ->
  interval.singleton (to_interval i s) = Some o ->
  interval.singleton (to_interval elem_size s) = Some size ->
  cell_in_range o size ->
  map_ok (separate_domain_get a (_array_map s)) ->
  map_in_range (separate_domain_get a (_array_map s)) ->
  x ∈ bucket_at o (separate_domain_get a (_array_map s)) ->
  _size x <> size ->
  array_load lhs a elem_size i s g
    = Done (forget_scalar lhs s,
            CRAB_WARN
              [W_str "array expansion ignored read from cell [";
               W_index o; W_str "..."; W_index (o + size - 1); W_str "]";
               W_str " because it overlaps with other cells."]
              g).
Proof.
  intros Hguard Hi Hes (_ & [Hs _] & _) Hok Hrange Hx Hne.
  pose proof (get_overlap_cells_killed o size _ Hs Hok) as Hq.
  destruct (bucket_at_ok o _ Hok) as [Hk0 _]. rewrite Forall_forall in Hk0.
  assert (0 < _size x) as Hsx.
  { assert (x ∈ cells (separate_domain_get a (_array_map s))) as Hxc.
    { apply (cells_split o _ x Hok). right. by left. }
    by destruct (Hrange x Hxc) as (_ & [? _] & _). }
  assert (key_in x (killed o size (lows o (separate_domain_get a (_array_map s)))
                      (bucket_at o (separate_domain_get a (_array_map s)))
                      (highs o (separate_domain_get a (_array_map s)))) = true)
    as Hin.
  { apply killed_covers_bucket; [done|done|done| |].
    - apply cell_overlap_same_offset; [by apply Hk0|done|done].
    - destruct (cell.eqb x (cell.of_size o size)) eqn:E; [|done].
      apply cell_eqb_spec in E as [_ E]. done. }
  unfold array_load. rewrite Hguard, Hi, Hes, Hq. cbn [mbind outcome_bind].
  destruct (killed _ _ _ _ _) as [|k K]; [done|]. done.
Qed.

End expansion_more.

(** ** Frame: what stores and loads leave in place *)

Section frame_properties.
Import array_expansion.

Section frame.
Implicit Types (x y c t k : cell_t) (b out K : list cell_t) (o size : Z)
  (L H m : list (Z * list cell_t)) (f : list cell_t -> list cell_t).

Lemma find_insert_other t c b :
  cell.eqb c t = false ->
  cell_set.find t (cell_set.insert c b).1 = cell_set.find t b.
Proof.
  intros Hne. induction b as [|x b IH]; simpl; [by rewrite Hne|].
  destruct (cell.eqb x c) eqn:Exc; [done|].
  destruct (cell.ltb c x); simpl; [by rewrite Hne|].
  destruct (cell_set.insert c b) as [r fl]. simpl in *. by rewrite IH.
Qed.

Lemma bucket_at_other_mid o o2 m b' :
  keys_sorted m -> o2 <> o ->
  bucket_at o2 (lows o m ++ (o, b') :: highs o m) = bucket_at o2 m.
Proof.
  intros Hs Hne.
  assert (keys_sorted (lows o m ++ (o, b') :: highs o m)) as Hs'.
  { apply keys_sorted_with_mid;
      [by apply keys_sorted_lows|by apply keys_sorted_highs
      |apply lows_below|apply highs_above]. }
  assert (forall b, (o2, b) ∈ lows o m ++ (o, b') :: highs o m <-> (o2, b) ∈ m) as Hiff.
  { intros b. rewrite elem_of_app, elem_of_cons. unfold lows, highs.
    rewrite !list_elem_of_filter. cbn [fst]. split.
    - intros [[_ ?]|[[= ? _]|[_ ?]]]; done.
    - intros Hin. destruct (Z.lt_trichotomy o2 o) as [?|[?|?]]; [by left|done|].
      right. right. done. }
  unfold bucket_at.
  destruct (patricia_tree.lookup o2 (lows o m ++ (o, b') :: highs o m)) as [b1|] eqn:E1.
  - apply lookup_Some_elem in E1; [|done]. apply Hiff in E1.
    by rewrite (elem_lookup_Some o2 m b1 Hs E1).
  - destruct (patricia_tree.lookup o2 m) as [b2|] eqn:E2; [|done].
    apply lookup_Some_elem in E2; [|done]. apply Hiff in E2.
    by rewrite (elem_lookup_Some o2 _ b2 Hs' E2) in E1.
Qed.

(** mk_cell leaves the lookups of all other offsets and sizes as they are. *)
Lemma mk_cell_get_other a o size m g c m' g' o2 size2 :
  0 < size -> map_ok m ->
  offset_map.mk_cell a o size m g = Done (c, m', g') ->
  cell.eqb (cell.of_size o2 size2) (cell.of_size o size) = false ->
  offset_map.get_cell o2 size2 m' = offset_map.get_cell o2 size2 m.
Proof.
  intros Hs Hok. pose proof Hok as [Hsorted Hbs]. unfold offset_map.mk_cell.
  destruct (cell.is_null (offset_map.get_cell o size m)) eqn:Hnull.
  2:{ cbn [mbind outcome_bind]. destruct (negb _); [done|]. by intros [= _ <- _]. }
  destruct (offset_map.get_index a o size g) as [vindex g1].
  set (c1 := cell.of_scalar o
               (Variable_ (Shadow vindex)
                  (offset_map.get_array_element_type (get_type a)) size)).
  assert (forall x, x ∈ bucket_at o m -> cell.eqb x c1 = false) as Hfresh.
  { intros x Hx. rewrite <- (get_cell_null_fresh o size m Hs Hnull x Hx).
    by apply cell_eqb_key. }
  rewrite insert_cell_fresh; [|done|done|done].
  change (_offset c1) with o. cbn [mbind outcome_bind].
  change (cell.has_scalar c1) with true. cbv iota. intros [= _ <- _] Hne.
  rewrite !get_cell_bucket_at. destruct (decide (o2 = o)) as [->|Hoo].
  - unfold bucket_at at 1. rewrite lookup_with_mid by apply lows_below.
    cbn [default from_option id]. rewrite find_insert_other; [done|].
    destruct (cell.eqb c1 (cell.of_size o size2)) eqn:E; [|done].
    rewrite <- Hne. symmetry. apply cell_eqb_spec in E as [_ E].
    apply cell_eqb_spec. split; [done|]. simpl in *. lia.
  - by rewrite bucket_at_other_mid.
Qed.

Lemma get_cell_found o size m x :
  offset_map.get_cell o size m = x -> cell.is_null x = false ->
  x ∈ bucket_at o m /\ cell.eqb x (cell.of_size o size) = true.
Proof.
  rewrite get_cell_bucket_at. intros Hg Hnn.
  destruct (cell_set.find (cell.of_size o size) (bucket_at o m)) as [y|] eqn:Hf.
  - simpl in Hg. subst y. by apply find_Some in Hf.
  - simpl in Hg. subst x. done.
Qed.

(** The kill set of a query and the making of the cell of (o, size) leave
    every cell in place that does not overlap (o, size). *)
Lemma kill_then_mk_cell_frame a o size m g c m' g' o2 size2 x :
  0 < size -> map_ok m -> all_scalars m ->
  offset_map.mk_cell a o size
    (offset_map.remove_cells (killed o size (lows o m) (bucket_at o m) (highs o m)) m) g
    = Done (c, m', g') ->
  offset_map.get_cell o2 size2 m = x -> cell.is_null x = false ->
  cell.overlap x o size = false ->
  offset_map.get_cell o2 size2 m' = x.
Proof.
  intros Hs Hok Hsc Hmk Hg Hnn Hov. pose proof Hok as [Hsorted _].
  set (K := killed o size (lows o m) (bucket_at o m) (highs o m)) in *.
  destruct (get_cell_found o2 size2 m x Hg Hnn) as [Hx Ex].
  destruct (remove_cells_wf K m Hok Hsc) as [Hok1 _].
  assert (cell.eqb (cell.of_size o2 size2) (cell.of_size o size) = false) as Hne.
  { destruct (cell.eqb (cell.of_size o2 size2) (cell.of_size o size)) eqn:E; [|done].
    rewrite <- Hov. symmetry.
    rewrite (cell_overlap_key x (cell.of_size o size) o size)
      by (by apply (cell_eqb_trans x (cell.of_size o2 size2))).
    by apply cell_overlap_self. }
  rewrite (mk_cell_get_other a o size _ g c m' g' o2 size2 Hs Hok1 Hmk Hne).
  rewrite get_cell_remove_cells by done.
  destruct (key_in (cell.of_size o2 size2) K) eqn:Hin; [|done].
  exfalso. apply key_in_spec in Hin as (k & Hk & E).
  pose proof (lows_below o m) as HL. pose proof (highs_above o m) as HH.
  pose proof (keys_sorted_lows o m Hsorted) as HsL.
  pose proof (keys_sorted_highs o m Hsorted) as HsH.
  pose proof (Forall_lows o m (map_ok_keyed m Hok)) as HkL.
  pose proof (Forall_highs o m (map_ok_keyed m Hok)) as HkH.
  pose proof (Forall_lows o m (map_ok_nonempty m Hok)) as HneL.
  pose proof (Forall_highs o m (map_ok_nonempty m Hok)) as HneH.
  apply killed_mem in Hk as (Hovk & _); try done.
  rewrite (cell_overlap_key x k o size) in Hov
    by (by apply (cell_eqb_trans x (cell.of_size o2 size2))).
  by rewrite Hov in Hovk.
Qed.

End frame.

Section frame_states.
Context {NumDomain_t : Type} `{!NumDomain NumDomain_t}.
Local Abbreviation state_t := (@array_expansion_domain_t NumDomain_t).

Lemma mk_cell_get_same (a : variable_t) (o size : Z) (m m' : list (Z * list cell_t))
    (g g' : globals_t) (c : cell_t) :
  offset_map.mk_cell a o size m g = Done (c, m', g') ->
  cell.is_null (offset_map.get_cell o size m) = false -> m' = m.
Proof.
  unfold offset_map.mk_cell. intros Hmk Hnn. rewrite Hnn in Hmk.
  cbn [mbind outcome_bind] in Hmk. destruct (negb _); [done|]. by injection Hmk.
Qed.

Lemma separate_domain_get_set_other (a a2 : variable_t) (m : list (Z * list cell_t))
    (M : gmap varname_t (list (Z * list cell_t))) :
  separate_domain_get a2 (separate_domain_set a m M)
    = if decide (name a2 = name a) then m else separate_domain_get a2 M.
Proof.
  unfold separate_domain_get, separate_domain_set.
  destruct (decide (name a2 = name a)) as [->|Hne]; destruct m as [|kv m].
  - by rewrite lookup_delete_eq.
  - by rewrite lookup_insert_eq.
  - by rewrite lookup_delete_ne.
  - by rewrite lookup_insert_ne.
Qed.

(** X27. A store kills only what overlaps: a cell of the array that does
    not overlap the written range (o, size) is still found, with the same
    scalar variable, after array_store to a constant index with a positive
    constant element size. *)
Theorem array_store_keeps_disjoint_cells (a : variable_t)
    (elem_size i v : linear_expression_t) (is_singleton : bool)
    (s : state_t) (g : globals_t) (o size o2 size2 : Z) (x : cell_t) :
  is_bottom s = false ->
  interval.singleton (to_interval i s) = Some o ->
  interval.singleton (to_interval elem_size s) = Some size ->
  0 < size ->
  wf_maps (_array_map s) ->
  offset_map.get_cell o2 size2 (separate_domain_get a (_array_map s)) = x ->
  cell.is_null x = false ->
  cell.overlap x o size = false ->
  exists (s' : state_t) g',
    array_store a elem_size i v is_singleton s g = Done (s', g')
    /\ offset_map.get_cell o2 size2 (separate_domain_get a (_array_map s')) = x.
Proof.
  intros Hnb Hi Hes Hs Hwf Hg Hnn Hov. destruct (wf_maps_get a _ Hwf) as [Hok Hsc].
  assert (forall size', interval.singleton (to_interval elem_size s) = Some size' ->
                        0 < size') as Hpos.
  { intros size'. rewrite Hes. by intros [= <-]. }
  destruct (array_store_returns a elem_size i v is_singleton s g Hwf Hpos)
    as (s' & g' & Hst).
  exists s', g'. split; [done|]. revert Hst. unfold array_store.
  rewrite Hnb, Hi, Hes, (get_overlap_cells_killed o size _ Hs Hok).
  cbn [mbind outcome_bind].
  set (m := separate_domain_get a (_array_map s)) in *.
  assert (forall K c m3 g3,
            K = killed o size (lows o m) (bucket_at o m) (highs o m) ->
            offset_map.mk_cell a o size (offset_map.remove_cells K m) g
              = Done (c, m3, g3) ->
            offset_map.get_cell o2 size2 m3 = x) as Htail.
  { intros K c m3 g3 -> Hmk.
    by apply (kill_then_mk_cell_frame a o size m g c m3 g3 o2 size2 x). }
  destruct (killed o size (lows o m) (bucket_at o m) (highs o m)) as [|k K] eqn:HK.
  - cbn [mbind outcome_bind].
    destruct (offset_map.mk_cell a o size m g)
      as [[[c m3] g3]| |] eqn:Hmk; cbn [mbind outcome_bind]; [|done..].
    destruct (cell.get_scalar c); cbn [mbind outcome_bind]; [|done..].
    intros [= <- _]. cbn [_array_map]. rewrite separate_domain_get_set.
    by apply (Htail [] c m3 g3).
  - destruct (forget_cells (k :: K) (_inv s)) as [inv'| |];
      cbn [mbind outcome_bind]; [|done..].
    destruct (offset_map.mk_cell a o size (offset_map.remove_cells (k :: K) m) g)
      as [[[c m3] g3]| |] eqn:Hmk; cbn [mbind outcome_bind]; [|done..].
    destruct (cell.get_scalar c); cbn [mbind outcome_bind]; [|done..].
    intros [= <- _]. cbn [_array_map]. rewrite separate_domain_get_set.
    by apply (Htail (k :: K) c m3 g3).
Qed.

(** X28. A load removes no cell: every cell that some offset map of the
    state holds is still found, with the same scalar variable, after
    array_load with an element size that is positive whenever it is
    constant. *)
Theorem array_load_keeps_cells (lhs a a2 : variable_t)
    (elem_size i : linear_expression_t) (s : state_t) (g : globals_t)
    (o2 size2 : Z) (x : cell_t) :
  wf_maps (_array_map s) ->
  (forall size, interval.singleton (to_interval elem_size s) = Some size -> 0 < size) ->
  offset_map.get_cell o2 size2 (separate_domain_get a2 (_array_map s)) = x ->
  cell.is_null x = false ->
  exists (s' : state_t) g',
    array_load lhs a elem_size i s g = Done (s', g')
    /\ offset_map.get_cell o2 size2 (separate_domain_get a2 (_array_map s')) = x.
Proof.
  intros Hwf Hpos Hg Hnn.
  destruct (array_load_returns lhs a elem_size i s g Hwf Hpos) as (s' & g' & Hld).
  exists s', g'. split; [done|]. revert Hld. unfold array_load.
  destruct (is_bottom s || is_top s); [by intros [= <- _]|].
  destruct (interval.singleton (to_interval i s)) as [o|]; [|by intros [= <- _]].
  destruct (interval.singleton (to_interval elem_size s)) as [size|] eqn:Hes;
    [|by intros [= <- _]].
  specialize (Hpos size eq_refl).
  destruct (wf_maps_get a _ Hwf) as [Hok Hsc].
  rewrite (get_overlap_cells_killed o size _ Hpos Hok). cbn [mbind outcome_bind].
  set (m := separate_domain_get a (_array_map s)) in *.
  destruct (killed o size (lows o m) (bucket_at o m) (highs o m)) as [|k K] eqn:HK;
    [|by intros [= <- _]].
  destruct (offset_map.mk_cell a o size m g)
    as [[[c m3] g3]| |] eqn:Hmk; cbn [mbind outcome_bind]; [|done..].
  destruct (cell.get_scalar c); cbn [mbind outcome_bind]; [|done..].
  intros [= <- _]. cbn [_array_map]. rewrite separate_domain_get_set_other.
  destruct (decide (name a2 = name a)) as [Heq|Hne]; [|done].
  assert (separate_domain_get a2 (_array_map s) = m) as Hm
    by (unfold m, separate_domain_get; by rewrite Heq).
  rewrite Hm in Hg.
  destruct (cell.eqb (cell.of_size o2 size2) (cell.of_size o size)) eqn:E.
  - apply cell_eqb_spec in E as [Eo Es]. simpl in Eo, Es. subst o2 size2.
    rewrite (mk_cell_get_same a o size m m3 g g3 c Hmk); [done|by rewrite Hg].
  - by rewrite (mk_cell_get_other a o size m g c m3 g3 o2 size2 Hpos Hok Hmk E).
Qed.

End frame_states.

End frame_properties.

(** ** Split octagons: forget, set and get_vert *)

Section octagon_more.
Context `{!GraphOps} `{!Params}.
Import SplitOCT_.

Lemma forget_unmaps (x : variable_t) (s : OCT_t) :
  _is_bottom s = false -> vert_map (forget x s) !! x = None.
Proof.
  intros Hnb. unfold forget, is_bottom. rewrite Hnb.
  destruct (vert_map (normalize s) !! x) as [p|] eqn:E; simpl; [|done].
  apply lookup_delete_eq.
Qed.

(** X12. Forgetting a variable leaves it without vertices, so its interval
    is top afterwards (bottom when the value is bottom, which it is when it
    was bottom before or when normalization found it infeasible). *)
Theorem forget_then_interval_is_top (x : variable_t) (s : OCT_t) :
  interval_of x (forget x s)
    = if _is_bottom (forget x s) then interval.bottom else interval.top.
Proof.
  unfold interval_of, is_bottom.
  destruct (_is_bottom (forget x s)) eqn:Hb; [done|].
  assert (_is_bottom s = false) as Hnb.
  { destruct (_is_bottom s) eqn:E; [|done].
    unfold forget, is_bottom in Hb. rewrite E in Hb. congruence. }
  unfold get_interval_in. by rewrite forget_unmaps.
Qed.

Lemma Wt_wrap_id (z : Z) : - 2 ^ 63 <= z < 2 ^ 63 -> Wt_wrap z = z.
Proof. intros Hz. unfold Wt_wrap. rewrite Z.mod_small by lia. lia. Qed.

(** X13. Setting a variable to an interval with two finite bounds whose
    doubles fit the weight type long (both bounds strictly between -2^62
    and 2^62) and reading it back gives that interval (as the interval
    constructor stores it), also when get_vert hands the variable a
    recycled pair of vertices. *)
Theorem set_then_interval_of (x : variable_t) (l u : number_t) (s : OCT_t) :
  - 2 ^ 62 < l < 2 ^ 62 -> - 2 ^ 62 < u < 2 ^ 62 ->
  interval_of x (set x (Interval (finite l) (finite u)) s)
    = if _is_bottom (set x (Interval (finite l) (finite u)) s)
      then interval.bottom
      else interval.make (finite l) (finite u).
Proof.
  intros Hl Hu. unfold interval_of, is_bottom.
  destruct (_is_bottom (set x (Interval (finite l) (finite u)) s)) eqn:Hb; [done|].
  assert (_is_bottom s = false) as Hnb.
  { destruct (_is_bottom s) eqn:E; [|done].
    unfold set, is_bottom in Hb. rewrite E in Hb. congruence. }
  revert Hb. unfold set, is_bottom. rewrite Hnb.
  change (interval.is_top (Interval (finite l) (finite u))) with false. cbv iota.
  pose proof (forget_unmaps x s Hnb) as Hun.
  destruct (forget x s) as [vm rm g pot un bot]. simpl in Hun.
  unfold get_vert. cbn [vert_map graph rev_map potential unstable _is_bottom].
  rewrite Hun.
  assert (ntov l = l) as Hnl by (apply Wt_wrap_id; lia).
  assert (ntov u = u) as Hnu by (apply Wt_wrap_id; lia).
  assert (Wt_wrap (2 * u) = u * 2) as Hwu by (rewrite Wt_wrap_id; lia).
  assert (Wt_wrap (-2 * l) = - (l * 2)) as Hwl by (rewrite Wt_wrap_id; lia).
  destruct (graph.new_vertex g) as [vp g1].
  destruct (graph.new_vertex g1) as [vn g2].
  destruct ((vn <? vp)%nat);
    repeat (match goal with
            | |- context [if ?c then _ else _] => destruct c
            end);
    cbn [ub lb vert_map graph rev_map potential unstable _is_bottom];
    intros _; unfold get_interval_in, vmap_insert; rewrite Hun, lookup_insert_eq;
    cbn [fst]; unfold graph.elem, graph.edge_val, graph.lookup, graph.set_edge;
    cbn [edges];
    rewrite lookup_insert_eq, lookup_insert_ne, lookup_insert_eq
      by (intros [= ?]; lia);
    rewrite !bool_decide_eq_true_2 by (by eexists); cbn [default from_option id];
    rewrite Hnl, Hnu, Hwu, Hwl, Z.opp_involutive, !Z.quot_mul by lia; reflexivity.
Qed.

End octagon_more.

Section octagon_sizes.
Import SplitOCT_.

(** X21. get_vert keeps the vertex-indexed vectors in step with the graph:
    rev_map and potential have one entry per vertex slot before and after,
    the free list stays within the slots, and the returned vertex is a slot
    of the graph. *)
Theorem get_vert_keeps_sizes (v : variable_t) (s : OCT_t) :
  oct_sized s ->
  vert_map s !! v = None ->
  oct_sized (get_vert v s).2
  /\ ((get_vert v s).1 < num_slots (graph (get_vert v s).2))%nat.
Proof.
  intros (Hr & Hp & Hf) Hv. unfold get_vert. rewrite Hv.
  destruct s as [vm rm g pot un bot]. cbn [vert_map rev_map graph potential unstable
    _is_bottom] in *.
  destruct g as [E n fr]. unfold graph.new_vertex. cbn [free_id num_slots edges] in *.
  destruct fr as [|v1 fr]; cbn [free_id num_slots edges].
  - assert ((S n <? n)%nat = false) as -> by (apply Nat.ltb_ge; lia).
    assert ((n <? length rm)%nat = false) as -> by (apply Nat.ltb_ge; lia).
    assert ((S n <? length (rm ++ [Some v]))%nat = false) as ->
      by (apply Nat.ltb_ge; rewrite length_app; simpl; lia).
    unfold oct_sized. cbn [fst snd rev_map potential graph num_slots free_id].
    rewrite !length_app. simpl. repeat split; try lia. constructor.
  - apply Forall_cons in Hf as [Hv1 Hf].
    destruct fr as [|v2 fr]; cbn [free_id num_slots edges].
    + assert ((n <? v1)%nat = false) as -> by (apply Nat.ltb_ge; lia).
      assert ((v1 <? length rm)%nat = true) as -> by (apply Nat.ltb_lt; lia).
      rewrite length_insert.
      assert ((n <? length rm)%nat = false) as -> by (apply Nat.ltb_ge; lia).
      unfold oct_sized. cbn [fst snd rev_map potential graph num_slots free_id].
      rewrite !length_app, !length_insert. simpl. repeat split; try lia. constructor.
    + apply Forall_cons in Hf as [Hv2 Hf].
      destruct (v2 <? v1)%nat eqn:Elt.
      * assert ((v2 <? length rm)%nat = true) as -> by (apply Nat.ltb_lt; lia).
        rewrite length_insert.
        assert ((v2 <? length rm)%nat = true) as -> by (apply Nat.ltb_lt; lia).
        unfold oct_sized. cbn [fst snd rev_map potential graph num_slots free_id].
        rewrite !length_insert. repeat split; try lia. done.
      * assert ((v1 <? length rm)%nat = true) as -> by (apply Nat.ltb_lt; lia).
        rewrite length_insert.
        assert ((v2 <? length rm)%nat = true) as -> by (apply Nat.ltb_lt; lia).
        unfold oct_sized. cbn [fst snd rev_map potential graph num_slots free_id].
        rewrite !length_insert. repeat split; try lia. done.
Qed.

End octagon_sizes.

(** ** Domain traits and the smashing array operations *)

Section interval_domain_facts.
Import interval_domain.
Implicit Types (s : interval_domain_t) (x y v : variable_t) (i : interval_t).

Lemma interval_get_forget v s y :
  get (forget v s) y
    = if is_bot s then interval.bottom
      else if decide (name y = name v) then interval.top else get s y.
Proof.
  unfold get, forget. destruct (is_bot s) eqn:Hb; [by rewrite Hb|]. simpl.
  destruct (decide (name y = name v)) as [->|Hne].
  - by rewrite lookup_delete_eq.
  - by rewrite lookup_delete_ne.
Qed.

Lemma interval_get_set x i s y :
  get (set x i s) y
    = if is_bot s then interval.bottom
      else if interval.is_bottom i then interval.bottom
      else if decide (name y = name x) then i else get s y.
Proof.
  unfold get, set. destruct (is_bot s) eqn:Hb; [by rewrite Hb|].
  destruct (interval.is_bottom i) eqn:Hi; [done|].
  destruct (interval.is_top i) eqn:Ht; simpl.
  - destruct (decide (name y = name x)) as [->|Hne].
    + rewrite lookup_delete_eq. simpl. symmetry. by apply interval_facts.is_top_eq.
    + by rewrite lookup_delete_ne.
  - destruct (decide (name y = name x)) as [->|Hne].
    + by rewrite lookup_insert_eq.
    + by rewrite lookup_insert_ne.
Qed.

Lemma interval_set_is_bot x i s :
  is_bot (set x i s) = is_bot s || interval.is_bottom i.
Proof.
  unfold set. destruct (is_bot s) eqn:Hb; [done|].
  destruct (interval.is_bottom i); [done|]. by destruct (interval.is_top i).
Qed.

Lemma interval_get_not_bottom s x :
  interval_domain_wf s -> is_bot s = false -> interval.is_bottom (get s x) = false.
Proof.
  unfold get. intros Hwf ->. destruct (env s !! name x) as [i|] eqn:E; simpl; [|done].
  by apply (Hwf (name x)).
Qed.

Lemma interval_domain_wf_reads s : interval_domain_wf s -> reads_nonempty s.
Proof. intros Hwf Hb v. by apply interval_get_not_bottom. Qed.

Lemma interval_eval_variable s x :
  interval.is_bottom (get s x) = false -> eval (exp_of_variable x) s = get s x.
Proof.
  intros Hnb. unfold eval, exp_of_variable. simpl.
  destruct (get s x) as [l u]. unfold interval.add, interval.scale, interval.of_number.
  rewrite Hnb. cbn [lb ub interval.is_bottom bound_ltb bound_leb].
  unfold interval.is_bottom, bound_ltb in Hnb. cbn [lb ub] in Hnb.
  apply negb_false_iff in Hnb.
  assert (bound_scale 1 l = l) as -> by (destruct l; simpl; f_equal; lia).
  assert (bound_scale 1 u = u) as -> by (destruct u; simpl; f_equal; lia).
  unfold bound_min, bound_max. rewrite Hnb.
  unfold interval.is_bottom, bound_ltb. cbn [lb ub]. rewrite Hnb.
  replace (0 <=? 0) with true by done. cbn [negb orb].
  f_equal; [destruct l|destruct u]; simpl; f_equal; lia.
Qed.

End interval_domain_facts.

#[global] Instance interval_domain_reads : NumDomainReads interval_domain.interval_domain_t.
Proof.
  split; cbn [d_top d_is_bottom d_interval d_forget d_set d_assign
              interval_domain.interval_domain_NumDomain interval_domain_NumDomainSet].
  - done.
  - done.
  - intros s y Hb. unfold interval_domain.get.
    unfold interval_domain.is_bottom in Hb. by rewrite Hb.
  - intros s x y Hxy. unfold interval_domain.get. by rewrite Hxy.
  - intros v s. unfold interval_domain.forget, interval_domain.is_bottom.
    by destruct (interval_domain.is_bot s) eqn:E.
  - intros v s y Hb. rewrite interval_get_forget.
    unfold interval_domain.is_bottom in Hb. by rewrite Hb.
  - intros x i s. apply interval_set_is_bot.
  - intros x i s y Hb Hi. rewrite interval_get_set.
    unfold interval_domain.is_bottom in Hb. by rewrite Hb, Hi.
  - intros x v s Hv. unfold interval_domain.assign, interval_domain.is_bottom in *.
    rewrite interval_set_is_bot. destruct (interval_domain.is_bot s) eqn:Hb; [done|].
    rewrite interval_eval_variable by (by apply Hv). by rewrite Hv.
  - intros x v s y Hb Hv. unfold interval_domain.assign, interval_domain.is_bottom in *.
    rewrite interval_eval_variable by done. rewrite interval_get_set. by rewrite Hb, Hv.
Qed.

Section traits_properties.
Context {Domain : Type} `{!NumDomain Domain} `{!NumDomainSet Domain}
  `{!NumDomainReads Domain}.
Implicit Types (inv res : Domain) (x y v : variable_t) (vs : list variable_t).

Lemma forget_range_is_bottom vs inv :
  d_is_bottom (domain_traits.forget vs inv) = d_is_bottom inv.
Proof.
  revert inv. induction vs as [|v vs IH]; intros inv; [done|].
  simpl. change (fold_left _ vs ?s) with (domain_traits.forget vs s).
  by rewrite IH, d_forget_is_bottom.
Qed.

Lemma elem_of_names_cons y v vs :
  bool_decide (name y ∈ name <$> v :: vs)
    = bool_decide (name y = name v) || bool_decide (name y ∈ name <$> vs).
Proof.
  rewrite fmap_cons.
  destruct (bool_decide (name y = name v)) eqn:E1;
    destruct (bool_decide (name y ∈ name <$> vs)) eqn:E2; simpl;
    [apply bool_decide_eq_true_1 in E1|apply bool_decide_eq_true_1 in E1
    |apply bool_decide_eq_true_1 in E2
    |apply bool_decide_eq_false_1 in E1; apply bool_decide_eq_false_1 in E2].
  - apply bool_decide_eq_true_2. rewrite E1. left.
  - apply bool_decide_eq_true_2. rewrite E1. left.
  - apply bool_decide_eq_true_2. by right.
  - apply bool_decide_eq_false_2. intros [?|?]%elem_of_cons; done.
Qed.

(** X14. domain_traits::forget over a range: every listed variable reads
    top afterwards (by name), every other variable reads as before, and a
    bottom value stays bottom. *)
Theorem forget_range_reads vs inv y :
  d_is_bottom (domain_traits.forget vs inv) = d_is_bottom inv
  /\ d_interval (domain_traits.forget vs inv) y
     = if d_is_bottom inv then interval.bottom
       else if bool_decide (name y ∈ name <$> vs) then interval.top
       else d_interval inv y.
Proof.
  split; [apply forget_range_is_bottom|].
  revert inv. induction vs as [|v vs IH]; intros inv.
  - simpl. destruct (d_is_bottom inv) eqn:Hb; [|done]. by apply d_read_bottom.
  - change (domain_traits.forget (v :: vs) inv)
      with (domain_traits.forget vs (d_forget v inv)).
    rewrite IH, d_forget_is_bottom, elem_of_names_cons.
    destruct (d_is_bottom inv) eqn:Hb; [done|].
    rewrite d_read_forget by done.
    destruct (bool_decide (name y ∈ name <$> vs)); [by rewrite orb_true_r|].
    rewrite orb_false_r. by repeat case_decide; repeat case_bool_decide.
Qed.

Lemma project_fold_reads vs inv res y :
  reads_nonempty inv -> d_is_bottom inv = false -> d_is_bottom res = false ->
  d_interval (fold_left (fun res v => d_set v (d_interval inv v) res) vs res) y
    = (if bool_decide (name y ∈ name <$> vs) then d_interval inv y
       else d_interval res y)
  /\ d_is_bottom (fold_left (fun res v => d_set v (d_interval inv v) res) vs res)
     = false.
Proof.
  intros Hne Hnb. revert res. induction vs as [|v vs IH]; intros res Hres; [done|].
  cbn [fold_left]. pose proof (Hne Hnb v) as Hv.
  assert (d_is_bottom (d_set v (d_interval inv v) res) = false) as Hres'
    by (by rewrite d_set_is_bottom, Hres, Hv).
  destruct (IH _ Hres') as [IH1 IH2]. split; [|done].
  rewrite IH1, elem_of_names_cons, d_read_set by done.
  destruct (bool_decide (name y ∈ name <$> vs)); [by rewrite orb_true_r|].
  rewrite orb_false_r. case_decide as E; case_bool_decide; try done.
  symmetry. by apply d_read_name.
Qed.

Lemma project_fold_bottom vs inv res :
  d_is_bottom res = true ->
  d_is_bottom (fold_left (fun res v => d_set v (d_interval inv v) res) vs res) = true.
Proof.
  revert res. induction vs as [|v vs IH]; intros res Hres; [done|].
  cbn [fold_left]. apply IH. by rewrite d_set_is_bottom, Hres.
Qed.

(** X15. domain_traits::project: the listed variables read as before and
    every other variable reads top. The result is built from top, so
    projecting a bottom value onto an empty range gives top; onto a
    non-empty range it stays bottom. *)
Theorem project_reads vs inv y :
  reads_nonempty inv ->
  d_interval (domain_traits.project vs inv) y
    = if d_is_bottom inv then
        match vs with [] => interval.top | _ => interval.bottom end
      else if bool_decide (name y ∈ name <$> vs) then d_interval inv y
      else interval.top.
Proof.
  intros Hne. unfold domain_traits.project. cbv zeta.
  destruct (d_is_bottom inv) eqn:Hb.
  - destruct vs as [|v vs]; [apply d_read_top|]. cbn [fold_left].
    apply d_read_bottom, project_fold_bottom.
    rewrite d_set_is_bottom, (d_read_bottom inv v Hb). apply orb_true_r.
  - destruct (project_fold_reads vs inv d_top y Hne Hb d_top_not_bottom) as [-> _].
    by rewrite d_read_top.
Qed.

(** X16. domain_traits::expand: the new variable reads what x reads and
    every other variable reads as before. *)
Theorem expand_reads x new_x inv y :
  reads_nonempty inv ->
  d_interval (domain_traits.expand x new_x inv) y
    = if decide (name y = name new_x) then d_interval inv x else d_interval inv y.
Proof.
  intros Hne. unfold domain_traits.expand. destruct (d_is_bottom inv) eqn:Hb.
  - rewrite !(d_read_bottom inv) by done.
    rewrite d_read_bottom by (by rewrite d_set_is_bottom, Hb). by case_decide.
  - by rewrite d_read_set by (done || by apply Hne).
Qed.

End traits_properties.

Section smashing_more.
Context {NumDomain_t : Type} `{!NumDomain NumDomain_t} `{!NumDomainSet NumDomain_t}.
Import array_smashing.

(** X17. array_init of the smashing domain ignores the element size and
    the bounds: it is the strong update of the summary variable, the same
    state as a singleton array_store of val at any index. *)
Theorem smashing_array_init_is_strong_update (a : variable_t)
    (elem_size lb_idx ub_idx val elem_size' i : linear_expression_t)
    (s : array_smashing_t) :
  array_smashing_api.array_init a elem_size lb_idx ub_idx val s
    = array_store a elem_size' i val true s.
Proof.
  unfold array_smashing_api.array_init, array_store, strong_update.
  repeat (case_decide || case_match); reflexivity.
Qed.

End smashing_more.

Section smashing_load.
Context {NumDomain_t : Type} `{!NumDomain NumDomain_t} `{!NumDomainSet NumDomain_t}
  `{!NumDomainReads NumDomain_t}.
Import array_smashing.

(** X18. array_load of the smashing domain for an array of integers (or
    reals): lhs reads what the summary variable reads, the temporary copy
    is forgotten again and every other variable, the summary variable
    included, reads as before. *)
Theorem smashing_array_load_reads (lhs a a_prime : variable_t)
    (elem_size i : linear_expression_t) (s : array_smashing_t) (y : variable_t) :
  get_type a = ARR_INT_TYPE \/ get_type a = ARR_REAL_TYPE ->
  name a_prime <> name a -> name a_prime <> name lhs ->
  reads_nonempty (_inv s) ->
  d_interval (_inv (array_smashing_api.array_load lhs a elem_size i a_prime s)) y
    = if d_is_bottom (_inv s) then interval.bottom
      else if decide (name y = name a_prime) then interval.top
      else if decide (name y = name lhs) then d_interval (_inv s) a
      else d_interval (_inv s) y.
Proof.
  intros Hty Hna Hnl Hne. unfold array_smashing_api.array_load.
  destruct (decide (get_type a = ARR_BOOL_TYPE)) as [Hb|_].
  { destruct Hty as [Hty|Hty]; rewrite Hty in Hb; done. }
  rewrite decide_True by done. cbn [_inv]. unfold domain_traits.expand.
  set (s1 := d_set a_prime (d_interval (_inv s) a) (_inv s)).
  destruct (d_is_bottom (_inv s)) eqn:Hb.
  - assert (d_is_bottom s1 = true) as Hb1
      by (unfold s1; by rewrite d_set_is_bottom, Hb).
    apply d_read_bottom. rewrite d_forget_is_bottom, d_assign_is_bottom; [done|].
    by rewrite Hb1.
  - pose proof (Hne Hb a) as Ha.
    assert (d_is_bottom s1 = false) as Hb1
      by (unfold s1; by rewrite d_set_is_bottom, Hb, Ha).
    assert (d_interval s1 a_prime = d_interval (_inv s) a) as Hg1
      by (unfold s1; rewrite d_read_set by done; by rewrite decide_True).
    assert (interval.is_bottom (d_interval s1 a_prime) = false) as Hv1
      by (by rewrite Hg1).
    rewrite d_read_forget by (by rewrite d_assign_is_bottom).
    destruct (decide (name y = name a_prime)) as [Hya|Hya]; [done|].
    rewrite d_read_assign, Hg1 by done.
    destruct (decide (name y = name lhs)) as [Hyl|Hyl]; [done|].
    unfold s1. rewrite d_read_set by done. by rewrite decide_False.
Qed.

End smashing_load.

(** ** Concrete runs *)

Section concrete_runs.
Import array_expansion.

Lemma exp_map04_ok : map_ok exp_map04.
Proof. split; [repeat constructor|]. repeat constructor; done. Qed.

Lemma exp_map04_scalars : all_scalars exp_map04.
Proof. repeat constructor. Qed.

Lemma exp_a0_is_5_wf : wf_maps (_array_map exp_a0_is_5).
Proof.
  intros n m Hn. cbn [_array_map exp_a0_is_5] in Hn.
  apply lookup_singleton_Some in Hn as [_ <-].
  split; [apply exp_map04_ok|apply exp_map04_scalars].
Qed.

Lemma insert_cell_then_get_cell_witness :
  map_ok exp_map04
  /\ offset_map.insert_cell exp_cell24 true exp_map04
     = Done [(0, [exp_cell04]); (2, [exp_cell24])]
  /\ offset_map.get_cell 2 4 [(0, [exp_cell04]); (2, [exp_cell24])] = exp_cell24.
Proof.
  assert (offset_map.insert_cell exp_cell24 true exp_map04
          = Done [(0, [exp_cell04]); (2, [exp_cell24])]) as Hins by reflexivity.
  split; [apply exp_map04_ok|]. split; [exact Hins|].
  exact (proj1 (insert_cell_then_get_cell exp_cell24 true exp_map04 _ exp_map04_ok Hins)).
Defined.

Lemma remove_cell_then_get_cell_witness :
  map_ok exp_map04
  /\ offset_map.get_cell 0 4 (offset_map.remove_cell exp_cell04 exp_map04) = cell.null.
Proof.
  split; [apply exp_map04_ok|].
  exact (remove_cell_then_get_cell exp_cell04 exp_map04 0 4 exp_map04_ok).
Defined.

Lemma insert_cell_then_remove_cell_witness :
  map_ok exp_map04
  /\ cell_set.find exp_cell24 (bucket_at (_offset exp_cell24) exp_map04) = None
  /\ offset_map.insert_cell exp_cell24 true exp_map04
     = Done [(0, [exp_cell04]); (2, [exp_cell24])]
  /\ offset_map.remove_cell exp_cell24 [(0, [exp_cell04]); (2, [exp_cell24])]
     = exp_map04.
Proof.
  assert (cell_set.find exp_cell24 (bucket_at (_offset exp_cell24) exp_map04) = None)
    as Hf by reflexivity.
  assert (offset_map.insert_cell exp_cell24 true exp_map04
          = Done [(0, [exp_cell04]); (2, [exp_cell24])]) as Hins by reflexivity.
  split; [apply exp_map04_ok|]. split; [exact Hf|]. split; [exact Hins|].
  exact (insert_cell_then_remove_cell exp_cell24 true exp_map04 _ exp_map04_ok Hf Hins).
Defined.

Lemma remove_cells_then_get_cell_witness :
  map_ok exp_map04
  /\ map_ok (offset_map.remove_cells [exp_cell04] exp_map04)
  /\ offset_map.get_cell 0 4 (offset_map.remove_cells [exp_cell04] exp_map04)
     = cell.null.
Proof.
  split; [apply exp_map04_ok|].
  exact (remove_cells_then_get_cell [exp_cell04] exp_map04 0 4 exp_map04_ok).
Defined.

Lemma get_overlap_cells_reports_overlaps_witness :
  0 < 4 /\ map_ok exp_map04
  /\ exists K,
       offset_map.get_overlap_cells 2 4 [] exp_map04 = Done (K, exp_map04)
       /\ (forall k, k ∈ K ->
             cell.overlap k 2 4 = true
             /\ cell.eqb k (cell.of_size 2 4) = false
             /\ k ∈ bucket_at (_offset k) exp_map04)
       /\ (forall x, x ∈ bucket_at 2 exp_map04 ->
             cell.overlap x 2 4 = true ->
             cell.eqb x (cell.of_size 2 4) = false ->
             key_in x K = true).
Proof.
  assert (0 < 4) as Hs by lia.
  split; [exact Hs|]. split; [apply exp_map04_ok|].
  exact (get_overlap_cells_reports_overlaps 2 4 exp_map04 Hs exp_map04_ok).
Defined.

Lemma mk_cell_returns_same_cell_again_witness :
  0 < 4 /\ map_ok exp_map04 /\ all_scalars exp_map04
  /\ exists c m' g',
       offset_map.mk_cell exp_a 2 4 exp_map04 exp_globals04 = Done (c, m', g')
       /\ _offset c = 2 /\ _size c = 4 /\ cell.has_scalar c = true
       /\ offset_map.get_cell 2 4 m' = c
       /\ offset_map.mk_cell exp_a 2 4 m' g' = Done (c, m', g').
Proof.
  assert (0 < 4) as Hs by lia.
  split; [exact Hs|]. split; [apply exp_map04_ok|]. split; [apply exp_map04_scalars|].
  exact (mk_cell_returns_same_cell_again exp_a 2 4 exp_map04 exp_globals04 Hs
           exp_map04_ok exp_map04_scalars).
Defined.

Lemma exp_globals04_index_ok : index_ok exp_globals04.
Proof.
  split; cbn [_index_map exp_globals04].
  - intros k i Hk. apply lookup_singleton_Some in Hk as [_ <-].
    rewrite map_size_singleton. lia.
  - intros k1 k2 i H1 H2. apply lookup_singleton_Some in H1 as [<- _].
    by apply lookup_singleton_Some in H2 as [<- _].
Qed.

Lemma get_index_stable_and_fresh_witness :
  index_ok exp_globals04
  /\ offset_map.get_index exp_a 2 4 exp_globals04 = (1%nat, exp_globals24)
  /\ index_ok exp_globals24
  /\ offset_map.get_index exp_a 2 4 exp_globals24 = (1%nat, exp_globals24)
  /\ forall (a2 : variable_t) o2 size2,
       (name a2, (o2, size2)) <> (name exp_a, (2, 4)) ->
       (offset_map.get_index a2 o2 size2 exp_globals24).1 <> 1%nat.
Proof.
  assert (offset_map.get_index exp_a 2 4 exp_globals04 = (1%nat, exp_globals24))
    as Hg by (vm_compute; reflexivity).
  split; [apply exp_globals04_index_ok|]. split; [exact Hg|].
  exact (get_index_stable_and_fresh exp_a 2 4 exp_globals04 exp_globals24 1
           exp_globals04_index_ok Hg).
Defined.

Lemma itv_x_is_1_reads : reads_nonempty itv_x_is_1.
Proof. apply interval_domain_wf_reads, map_Forall_singleton. reflexivity. Qed.

Lemma smashed_0_to_5_reads : reads_nonempty (array_smashing._inv smashed_0_to_5).
Proof. apply interval_domain_wf_reads, map_Forall_singleton. reflexivity. Qed.

Lemma exp_a2_is_7_wf : wf_maps (_array_map exp_a2_is_7).
Proof.
  intros n m Hn. cbn [_array_map exp_a2_is_7] in Hn.
  apply lookup_singleton_Some in Hn as [_ <-].
  split; [split; [repeat constructor|repeat constructor; done]|repeat constructor].
Qed.

Lemma forget_range_reads_witness :
  d_is_bottom (domain_traits.forget [exp_x] itv_x_is_1) = d_is_bottom itv_x_is_1
  /\ d_interval (domain_traits.forget [exp_x] itv_x_is_1) exp_x = interval.top.
Proof.
  exact (forget_range_reads (NumDomainReads0 := interval_domain_reads)
           [exp_x] itv_x_is_1 exp_x).
Defined.

Lemma project_reads_witness :
  reads_nonempty itv_x_is_1
  /\ d_interval (domain_traits.project [exp_x] itv_x_is_1) exp_x
     = Interval (finite 1) (finite 1)
  /\ d_interval (domain_traits.project [exp_n] itv_x_is_1) exp_x = interval.top.
Proof.
  split; [apply itv_x_is_1_reads|]. split.
  - exact (project_reads (NumDomainReads0 := interval_domain_reads)
             [exp_x] itv_x_is_1 exp_x itv_x_is_1_reads).
  - exact (project_reads (NumDomainReads0 := interval_domain_reads)
             [exp_n] itv_x_is_1 exp_x itv_x_is_1_reads).
Defined.

Lemma expand_reads_witness :
  reads_nonempty itv_x_is_1
  /\ d_interval (domain_traits.expand exp_x exp_n itv_x_is_1) exp_n
     = Interval (finite 1) (finite 1).
Proof.
  split; [apply itv_x_is_1_reads|].
  exact (expand_reads (NumDomainReads0 := interval_domain_reads)
           exp_x exp_n itv_x_is_1 exp_n itv_x_is_1_reads).
Defined.

Lemma smashing_array_load_reads_witness :
  (get_type smashed_array = ARR_INT_TYPE \/ get_type smashed_array = ARR_REAL_TYPE)
  /\ name exp_n <> name smashed_array /\ name exp_n <> name exp_x
  /\ reads_nonempty (array_smashing._inv smashed_0_to_5)
  /\ d_interval
       (array_smashing._inv
          (array_smashing_api.array_load exp_x smashed_array (exp_of_number 4)
             (exp_of_number 0) exp_n smashed_0_to_5)) exp_x
     = Interval (finite 0) (finite 5).
Proof.
  assert (get_type smashed_array = ARR_INT_TYPE \/ get_type smashed_array = ARR_REAL_TYPE)
    as H1 by (by left).
  assert (name exp_n <> name smashed_array) as H2 by done.
  assert (name exp_n <> name exp_x) as H3 by done.
  split; [exact H1|]. split; [exact H2|]. split; [exact H3|].
  split; [apply smashed_0_to_5_reads|].
  exact (smashing_array_load_reads (NumDomainReads0 := interval_domain_reads)
           exp_x smashed_array exp_n (exp_of_number 4)
           (exp_of_number 0) smashed_0_to_5 exp_x H1 H2 H3 smashed_0_to_5_reads).
Defined.

Lemma get_vert_keeps_sizes_witness :
  oct_sized SplitOCT_.top
  /\ SplitOCT_.vert_map SplitOCT_.top !! oct_x = None
  /\ oct_sized (SplitOCT_.get_vert oct_x SplitOCT_.top).2
  /\ ((SplitOCT_.get_vert oct_x SplitOCT_.top).1
      < num_slots (SplitOCT_.graph (SplitOCT_.get_vert oct_x SplitOCT_.top).2))%nat.
Proof.
  assert (oct_sized SplitOCT_.top) as H1 by (repeat split; constructor).
  assert (SplitOCT_.vert_map SplitOCT_.top !! oct_x = None) as H2 by reflexivity.
  split; [exact H1|]. split; [exact H2|].
  exact (get_vert_keeps_sizes oct_x SplitOCT_.top H1 H2).
Defined.

Lemma array_store_load_return_well_formed_witness :
  wf_maps (_array_map exp_a2_is_7)
  /\ (forall size,
        interval.singleton (to_interval (exp_of_number 4) exp_a2_is_7) = Some size ->
        0 < size)
  /\ (exists (s' : array_expansion_domain_t) g',
        array_store exp_a (exp_of_number 4) (exp_of_number 2) (exp_of_number 9) false
          exp_a2_is_7 exp_globals24 = Done (s', g')
        /\ wf_maps (_array_map s'))
  /\ (exists (s' : array_expansion_domain_t) g',
        array_load exp_x exp_a (exp_of_number 4) (exp_of_number 2)
          exp_a2_is_7 exp_globals24 = Done (s', g')
        /\ wf_maps (_array_map s')).
Proof.
  assert (forall size,
            interval.singleton (to_interval (exp_of_number 4) exp_a2_is_7) = Some size ->
            0 < size) as H2.
  { intros size Hsz. vm_compute in Hsz. injection Hsz as <-. lia. }
  split; [apply exp_a2_is_7_wf|]. split; [exact H2|].
  exact (array_store_load_return_well_formed exp_x exp_a (exp_of_number 4)
           (exp_of_number 2) (exp_of_number 9) false exp_a2_is_7 exp_globals24
           exp_a2_is_7_wf H2).
Defined.

Lemma array_init_returns_well_formed_witness :
  0 < 4 /\ wf_maps (_array_map exp_a0_is_5) /\ (512 <= 512)%nat
  /\ exists (s' : array_expansion_domain_t) g',
       array_init 512 exp_a (exp_of_number 4) (exp_of_number 0) (exp_of_number 16)
         (exp_of_number 0) exp_a0_is_5 exp_globals04 = Done (s', g')
       /\ wf_maps (_array_map s').
Proof.
  assert (0 < 4) as H1 by lia.
  assert (512 <= 512)%nat as H3 by lia.
  split; [exact H1|]. split; [apply exp_a0_is_5_wf|]. split; [exact H3|].
  exact (array_init_returns_well_formed 512 exp_a 4 (exp_of_number 0)
           (exp_of_number 16) (exp_of_number 0) exp_a0_is_5 exp_globals04
           H1 exp_a0_is_5_wf H3).
Defined.

Lemma exp_map_gap_ok : map_ok exp_map_gap.
Proof. split; [repeat constructor|]. repeat constructor; done. Qed.

Lemma exp_map04_in_range : map_in_range exp_map04.
Proof.
  intros x Hx. apply list_elem_of_singleton in Hx as ->.
  unfold cell_in_range. simpl. lia.
Qed.

Lemma exp_map04_apart : cells_apart exp_map04.
Proof.
  intros x y Hx Hy. apply list_elem_of_singleton in Hx as ->.
  apply list_elem_of_singleton in Hy as ->. done.
Qed.

Lemma exp_a0_is_5_apart : apart_maps (_array_map exp_a0_is_5).
Proof.
  intros n m Hn. cbn [_array_map exp_a0_is_5] in Hn.
  apply lookup_singleton_Some in Hn as [_ <-].
  split; [apply exp_map04_in_range|apply exp_map04_apart].
Qed.

Lemma exp_map_gap_in_range : map_in_range exp_map_gap.
Proof.
  intros x Hx. apply elem_of_cons in Hx as [->|Hx];
    [|apply list_elem_of_singleton in Hx as ->]; unfold cell_in_range; simpl; lia.
Qed.

Lemma cell_2_4_in_range : cell_in_range 2 4.
Proof. unfold cell_in_range. lia. Qed.

Lemma array_store_again_same_cell_witness :
  is_bottom exp_a0_is_5 = false
  /\ interval.singleton (to_interval (exp_of_number 2) exp_a0_is_5) = Some 2
  /\ interval.singleton (to_interval (exp_of_number 4) exp_a0_is_5) = Some 4
  /\ cell_in_range 2 4
  /\ map_ok (separate_domain_get exp_a (_array_map exp_a0_is_5))
  /\ all_scalars (separate_domain_get exp_a (_array_map exp_a0_is_5))
  /\ map_in_range (separate_domain_get exp_a (_array_map exp_a0_is_5))
  /\ exists (s' : array_expansion_domain_t) g' c scalar inv,
       array_store exp_a (exp_of_number 4) (exp_of_number 2) (exp_of_number 7) false
         exp_a0_is_5 exp_globals04 = Done (s', g')
       /\ offset_map.get_cell 2 4 (separate_domain_get exp_a (_array_map s')) = c
       /\ _offset c = 2 /\ _size c = 4 /\ _scalar c = Some scalar
       /\ _inv s' = d_assign scalar (exp_of_number 7) inv
       /\ (is_bottom s' = false ->
           interval.singleton (to_interval (exp_of_number 2) s') = Some 2 ->
           interval.singleton (to_interval (exp_of_number 4) s') = Some 4 ->
           array_store exp_a (exp_of_number 4) (exp_of_number 2) (exp_of_number 9) false
             s' g'
           = Done (ArrayExpansion (_array_map s')
                     (d_assign scalar (exp_of_number 9) (_inv s')), g')).
Proof.
  assert (is_bottom exp_a0_is_5 = false) as H1 by reflexivity.
  assert (interval.singleton (to_interval (exp_of_number 2) exp_a0_is_5) = Some 2)
    as H2 by (vm_compute; reflexivity).
  assert (interval.singleton (to_interval (exp_of_number 4) exp_a0_is_5) = Some 4)
    as H3 by (vm_compute; reflexivity).
  destruct (wf_maps_get exp_a _ exp_a0_is_5_wf) as [H5 H6].
  destruct (apart_maps_get exp_a _ exp_a0_is_5_apart) as [H7 _].
  split; [exact H1|]. split; [exact H2|]. split; [exact H3|].
  split; [exact cell_2_4_in_range|].
  split; [exact H5|]. split; [exact H6|]. split; [exact H7|].
  exact (array_store_again_same_cell exp_a (exp_of_number 4) (exp_of_number 2)
           (exp_of_number 7) (exp_of_number 9) false false exp_a0_is_5 exp_globals04
           2 4 H1 H2 H3 cell_2_4_in_range H5 H6 H7).
Defined.

Lemma array_load_other_size_forgets_lhs_witness :
  is_bottom exp_a0_is_5 || is_top exp_a0_is_5 = false
  /\ interval.singleton (to_interval (exp_of_number 0) exp_a0_is_5) = Some 0
  /\ interval.singleton (to_interval (exp_of_number 8) exp_a0_is_5) = Some 8
  /\ cell_in_range 0 8
  /\ map_ok (separate_domain_get exp_a (_array_map exp_a0_is_5))
  /\ map_in_range (separate_domain_get exp_a (_array_map exp_a0_is_5))
  /\ exp_cell04 ∈ bucket_at 0 (separate_domain_get exp_a (_array_map exp_a0_is_5))
  /\ _size exp_cell04 <> 8
  /\ array_load exp_x exp_a (exp_of_number 8) (exp_of_number 0) exp_a0_is_5 exp_globals04
     = Done (forget_scalar exp_x exp_a0_is_5,
             CRAB_WARN
               [W_str "array expansion ignored read from cell [";
                W_index 0; W_str "..."; W_index (0 + 8 - 1); W_str "]";
                W_str " because it overlaps with other cells."]
               exp_globals04).
Proof.
  assert (is_bottom exp_a0_is_5 || is_top exp_a0_is_5 = false) as H1
    by (vm_compute; reflexivity).
  assert (interval.singleton (to_interval (exp_of_number 0) exp_a0_is_5) = Some 0)
    as H2 by (vm_compute; reflexivity).
  assert (interval.singleton (to_interval (exp_of_number 8) exp_a0_is_5) = Some 8)
    as H3 by (vm_compute; reflexivity).
  assert (cell_in_range 0 8) as H4 by (unfold cell_in_range; lia).
  destruct (wf_maps_get exp_a _ exp_a0_is_5_wf) as [H5 _].
  destruct (apart_maps_get exp_a _ exp_a0_is_5_apart) as [H6 _].
  assert (exp_cell04 ∈ bucket_at 0 (separate_domain_get exp_a (_array_map exp_a0_is_5)))
    as H7 by (vm_compute; left).
  assert (_size exp_cell04 <> 8) as H8 by (simpl; lia).
  split; [exact H1|]. split; [exact H2|]. split; [exact H3|]. split; [exact H4|].
  split; [exact H5|]. split; [exact H6|]. split; [exact H7|]. split; [exact H8|].
  exact (array_load_other_size_forgets_lhs exp_x exp_a (exp_of_number 8)
           (exp_of_number 0) exp_a0_is_5 exp_globals04 0 8 exp_cell04
           H1 H2 H3 H4 H5 H6 H7 H8).
Defined.

Lemma array_store_materializes_cell_witness :
  is_bottom exp_a0_is_5 = false
  /\ interval.singleton (to_interval (exp_of_number 2) exp_a0_is_5) = Some 2
  /\ interval.singleton (to_interval (exp_of_number 4) exp_a0_is_5) = Some 4
  /\ cell_in_range 2 4
  /\ wf_maps (_array_map exp_a0_is_5)
  /\ map_in_range (separate_domain_get exp_a (_array_map exp_a0_is_5))
  /\ exists (s' : array_expansion_domain_t) g' c,
       array_store exp_a (exp_of_number 4) (exp_of_number 2) (exp_of_number 7) false
         exp_a0_is_5 exp_globals04 = Done (s', g')
       /\ wf_maps (_array_map s')
       /\ offset_map.get_cell 2 4 (separate_domain_get exp_a (_array_map s')) = c
       /\ _offset c = 2 /\ _size c = 4 /\ cell.has_scalar c = true
       /\ forall a2 : variable_t,
            name a2 <> name exp_a ->
            separate_domain_get a2 (_array_map s')
            = separate_domain_get a2 (_array_map exp_a0_is_5).
Proof.
  assert (is_bottom exp_a0_is_5 = false) as H1 by reflexivity.
  assert (interval.singleton (to_interval (exp_of_number 2) exp_a0_is_5) = Some 2)
    as H2 by (vm_compute; reflexivity).
  assert (interval.singleton (to_interval (exp_of_number 4) exp_a0_is_5) = Some 4)
    as H3 by (vm_compute; reflexivity).
  destruct (apart_maps_get exp_a _ exp_a0_is_5_apart) as [H6 _].
  split; [exact H1|]. split; [exact H2|]. split; [exact H3|].
  split; [exact cell_2_4_in_range|].
  split; [apply exp_a0_is_5_wf|]. split; [exact H6|].
  exact (array_store_materializes_cell exp_a (exp_of_number 4) (exp_of_number 2)
           (exp_of_number 7) false exp_a0_is_5 exp_globals04 2 4
           H1 H2 H3 cell_2_4_in_range exp_a0_is_5_wf H6).
Defined.

Lemma set_then_interval_of_witness :
  - 2 ^ 62 < 2 < 2 ^ 62 /\ - 2 ^ 62 < 5 < 2 ^ 62
  /\ SplitOCT_.interval_of oct_x
       (@SplitOCT_.set graph_ops.spec_graph_ops DefaultParams oct_x
          (Interval (finite 2) (finite 5)) oct_x_is_1)
     = Interval (finite 2) (finite 5).
Proof.
  assert (- 2 ^ 62 < 2 < 2 ^ 62) as H1 by lia.
  assert (- 2 ^ 62 < 5 < 2 ^ 62) as H2 by lia.
  split; [exact H1|]. split; [exact H2|].
  rewrite (@set_then_interval_of graph_ops.spec_graph_ops DefaultParams oct_x 2 5
             oct_x_is_1 H1 H2).
  vm_compute. reflexivity.
Defined.

Lemma get_overlap_cells_exact_witness :
  cell_in_range 2 4 /\ map_ok exp_map04 /\ map_in_range exp_map04
  /\ cells_apart exp_map04
  /\ exists K,
       offset_map.get_overlap_cells 2 4 [] exp_map04 = Done (K, exp_map04)
       /\ forall x, x ∈ cells exp_map04 ->
            (key_in x K = true
             <-> cell.overlap x 2 4 = true /\ cell.eqb x (cell.of_size 2 4) = false).
Proof.
  split; [exact cell_2_4_in_range|]. split; [apply exp_map04_ok|].
  split; [apply exp_map04_in_range|]. split; [apply exp_map04_apart|].
  exact (get_overlap_cells_exact 2 4 exp_map04 cell_2_4_in_range exp_map04_ok
           exp_map04_in_range exp_map04_apart).
Defined.

Lemma get_overlap_cells_stops_at_gap_witness :
  cell_in_range 50 4 /\ map_ok exp_map_gap /\ map_in_range exp_map_gap
  /\ quiet 50 4 (rev (lows 50 exp_map_gap).*2)
  /\ cell.overlap (Cell 0 100 (Some (Variable_ (Shadow 0) INT_TYPE 100))) 50 4 = true
  /\ offset_map.get_overlap_cells 50 4 [] exp_map_gap = Done ([], exp_map_gap)
  /\ exists K,
       offset_map.get_overlap_cells 50 4 [] exp_map_gap = Done (K, exp_map_gap)
       /\ forall k, k ∈ K -> 50 <= _offset k.
Proof.
  assert (cell_in_range 50 4) as Hs by (unfold cell_in_range; lia).
  assert (quiet 50 4 (rev (lows 50 exp_map_gap).*2)) as Hq.
  { intros x Hx. apply list_elem_of_singleton in Hx as ->. reflexivity. }
  split; [exact Hs|]. split; [apply exp_map_gap_ok|].
  split; [apply exp_map_gap_in_range|]. split; [exact Hq|].
  split; [reflexivity|]. split; [vm_compute; reflexivity|].
  exact (get_overlap_cells_stops_at_gap 50 4 exp_map_gap Hs exp_map_gap_ok
           exp_map_gap_in_range Hq).
Defined.

Lemma array_store_load_keep_cells_apart_witness :
  wf_maps (_array_map exp_a0_is_5) /\ apart_maps (_array_map exp_a0_is_5)
  /\ (forall size,
        interval.singleton (to_interval (exp_of_number 4) exp_a0_is_5) = Some size ->
        0 < size < 2 ^ 32)
  /\ (forall o size,
        interval.singleton (to_interval (exp_of_number 2) exp_a0_is_5) = Some o ->
        interval.singleton (to_interval (exp_of_number 4) exp_a0_is_5) = Some size ->
        0 <= o /\ o + size <= 2 ^ 63)
  /\ (exists (s' : array_expansion_domain_t) g',
        array_store exp_a (exp_of_number 4) (exp_of_number 2) (exp_of_number 7) false
          exp_a0_is_5 exp_globals04 = Done (s', g')
        /\ wf_maps (_array_map s') /\ apart_maps (_array_map s'))
  /\ (exists (s' : array_expansion_domain_t) g',
        array_load exp_x exp_a (exp_of_number 4) (exp_of_number 2)
          exp_a0_is_5 exp_globals04 = Done (s', g')
        /\ wf_maps (_array_map s') /\ apart_maps (_array_map s')).
Proof.
  assert (forall size,
            interval.singleton (to_interval (exp_of_number 4) exp_a0_is_5) = Some size ->
            0 < size < 2 ^ 32) as H3.
  { intros size Hsz. vm_compute in Hsz. injection Hsz as <-. lia. }
  assert (forall o size,
            interval.singleton (to_interval (exp_of_number 2) exp_a0_is_5) = Some o ->
            interval.singleton (to_interval (exp_of_number 4) exp_a0_is_5) = Some size ->
            0 <= o /\ o + size <= 2 ^ 63) as H4.
  { intros o size Ho Hsz. vm_compute in Ho, Hsz. injection Ho as <-.
    injection Hsz as <-. lia. }
  split; [apply exp_a0_is_5_wf|]. split; [apply exp_a0_is_5_apart|]. split; [exact H3|].
  split; [exact H4|].
  exact (array_store_load_keep_cells_apart exp_x exp_a (exp_of_number 4)
           (exp_of_number 2) (exp_of_number 7) false exp_a0_is_5 exp_globals04
           exp_a0_is_5_wf exp_a0_is_5_apart H3 H4).
Defined.

Lemma array_init_keeps_cells_apart_witness :
  0 < 4 < 2 ^ 32 /\ wf_maps (_array_map exp_a0_is_5)
  /\ apart_maps (_array_map exp_a0_is_5)
  /\ (forall lb ub,
        interval.singleton (to_interval (exp_of_number 2) exp_a0_is_5) = Some lb ->
        interval.singleton (to_interval (exp_of_number 18) exp_a0_is_5) = Some ub ->
        0 <= lb /\ ub <= 2 ^ 63)
  /\ (512 <= 512)%nat
  /\ exists (s' : array_expansion_domain_t) g',
       array_init 512 exp_a (exp_of_number 4) (exp_of_number 2) (exp_of_number 18)
         (exp_of_number 0) exp_a0_is_5 exp_globals04 = Done (s', g')
       /\ wf_maps (_array_map s') /\ apart_maps (_array_map s').
Proof.
  assert (0 < 4 < 2 ^ 32) as H1 by lia.
  assert (forall lb ub,
            interval.singleton (to_interval (exp_of_number 2) exp_a0_is_5) = Some lb ->
            interval.singleton (to_interval (exp_of_number 18) exp_a0_is_5) = Some ub ->
            0 <= lb /\ ub <= 2 ^ 63) as H3.
  { intros lb ub Hlb Hub. vm_compute in Hlb, Hub. injection Hlb as <-.
    injection Hub as <-. lia. }
  assert (512 <= 512)%nat as H4 by lia.
  split; [exact H1|]. split; [apply exp_a0_is_5_wf|].
  split; [apply exp_a0_is_5_apart|]. split; [exact H3|]. split; [exact H4|].
  exact (array_init_keeps_cells_apart 512 exp_a 4 (exp_of_number 2)
           (exp_of_number 18) (exp_of_number 0) exp_a0_is_5 exp_globals04
           H1 exp_a0_is_5_wf exp_a0_is_5_apart H3 H4).
Defined.

Lemma array_store_keeps_disjoint_cells_witness :
  is_bottom exp_a0_is_5 = false
  /\ interval.singleton (to_interval (exp_of_number 4) exp_a0_is_5) = Some 4
  /\ 0 < 4
  /\ wf_maps (_array_map exp_a0_is_5)
  /\ offset_map.get_cell 0 4 (separate_domain_get exp_a (_array_map exp_a0_is_5))
     = exp_cell04
  /\ cell.is_null exp_cell04 = false
  /\ cell.overlap exp_cell04 4 4 = false
  /\ exists (s' : array_expansion_domain_t) g',
       array_store exp_a (exp_of_number 4) (exp_of_number 4) (exp_of_number 7) false
         exp_a0_is_5 exp_globals04 = Done (s', g')
       /\ offset_map.get_cell 0 4 (separate_domain_get exp_a (_array_map s'))
          = exp_cell04.
Proof.
  assert (is_bottom exp_a0_is_5 = false) as H1 by reflexivity.
  assert (interval.singleton (to_interval (exp_of_number 4) exp_a0_is_5) = Some 4)
    as H2 by (vm_compute; reflexivity).
  assert (0 < 4) as H4 by lia.
  assert (offset_map.get_cell 0 4 (separate_domain_get exp_a (_array_map exp_a0_is_5))
          = exp_cell04) as H5 by (vm_compute; reflexivity).
  assert (cell.is_null exp_cell04 = false) as H6 by reflexivity.
  assert (cell.overlap exp_cell04 4 4 = false) as H7 by reflexivity.
  split; [exact H1|]. split; [exact H2|]. split; [exact H4|].
  split; [apply exp_a0_is_5_wf|]. split; [exact H5|]. split; [exact H6|].
  split; [exact H7|].
  exact (array_store_keeps_disjoint_cells exp_a (exp_of_number 4) (exp_of_number 4)
           (exp_of_number 7) false exp_a0_is_5 exp_globals04 4 4 0 4 exp_cell04
           H1 H2 H2 H4 exp_a0_is_5_wf H5 H6 H7).
Defined.

Lemma array_load_keeps_cells_witness :
  wf_maps (_array_map exp_a0_is_5)
  /\ (forall size,
        interval.singleton (to_interval (exp_of_number 4) exp_a0_is_5) = Some size ->
        0 < size)
  /\ offset_map.get_cell 0 4 (separate_domain_get exp_a (_array_map exp_a0_is_5))
     = exp_cell04
  /\ cell.is_null exp_cell04 = false
  /\ exists (s' : array_expansion_domain_t) g',
       array_load exp_x exp_a (exp_of_number 4) (exp_of_number 4)
         exp_a0_is_5 exp_globals04 = Done (s', g')
       /\ offset_map.get_cell 0 4 (separate_domain_get exp_a (_array_map s'))
          = exp_cell04.
Proof.
  assert (forall size,
            interval.singleton (to_interval (exp_of_number 4) exp_a0_is_5) = Some size ->
            0 < size) as H2.
  { intros size Hsz. vm_compute in Hsz. injection Hsz as <-. lia. }
  assert (offset_map.get_cell 0 4 (separate_domain_get exp_a (_array_map exp_a0_is_5))
          = exp_cell04) as H3 by (vm_compute; reflexivity).
  assert (cell.is_null exp_cell04 = false) as H4 by reflexivity.
  split; [apply exp_a0_is_5_wf|]. split; [exact H2|]. split; [exact H3|].
  split; [exact H4|].
  exact (array_load_keeps_cells exp_x exp_a exp_a (exp_of_number 4) (exp_of_number 4)
           exp_a0_is_5 exp_globals04 0 4 exp_cell04 exp_a0_is_5_wf H2 H3 H4).
Defined.

End concrete_runs.
